(** * Kisan.JI chat assistant: the voice/text session of [Chatbot.js]

    A shallow embedding of the conversational session implemented by
    [frontend/src/components/Chatbot.js] on top of the two voice endpoints
    of [frontend/src/services/api.js], and the properties of it that the
    specification states.

    The component is a React function component driven by the browser's
    event loop.  Its asynchronous handlers are embedded in defunctionalised
    form: every [await] of the source is a constructor of [Cont] (the
    suspended rest of the handler), [resume] is the code that runs when the
    awaited call settles, and [exec] is one turn of the event loop.

    What the embedding takes from the browser:
    - a recorder started without a time slice delivers its data once, when
      it is stopped ([dataavailable], then [stop]), and stops only when
      [stopRecording] stops it;
    - on a granted stream [new MediaRecorder] and [start()] may throw, which
      the [try] of [startRecording] catches;
    - a reply whose body is the JSON text [null] is returned by the service
      as it is.  The session then reads a property of [null]: inside the
      [try] of [processVoiceInput] that is caught; inside an updater given
      to [setMessages] it is thrown while React renders, and React unmounts
      the component.  The embedding follows the component while it is
      mounted: a turn that unmounts it has no next configuration;
    - React applies the state updates of a turn before the next turn, so a
      handler reads the state of the turn it runs in, except for what an
      [onstop] closure captured when its recording was requested;
    - [Math.random()] returns a binary64 number [u] with [0 <= u < 1],
      given by its exact value; what is computed with it is rounded as
      binary64 arithmetic rounds.
    The chat window's [isOpen] flag touches none of the state below and is
    left out.  The read-aloud button ([speakResponse]) touches only the
    browser's speech queue and is embedded on its own, in [Speech].

    Around the session the development also embeds
    - the endpoints that [services/api.js] builds with [encodeURIComponent]
      and [URLSearchParams] ([Uri], [Rest]);
    - the language provider of [contexts/LanguageContext.js] ([Language]),
      which the session takes its language from;
    - the detection page of [pages/PestDetection.js] ([PestDetection]),
      the caller of [analyzeImage], as an event loop of the same kind.
    For these it takes from the browser, in addition:
    - a body read from a reply has the fields the code reads with the types
      the code uses them at, or lacks them;
    - [localStorage] can be read; a write may be refused;
    - a timer that has been cleared does not fire, and a [FileReader] fires
      [loadend] once for each read;
    - a list of choices reports a choice only for an entry that is not
      disabled. *)

From Stdlib Require Import ZArith NArith QArith Qround String Ascii List Bool Lia.
From stdpp Require Import base option list.
Import ListNotations.

Local Open Scope string_scope.
Local Open Scope N_scope.
Local Open Scope list_scope.

(** ** JavaScript values *)

Module Js.

(** A JavaScript string is a sequence of UTF-16 code units. *)
Abbreviation JsString := (list N).

(** A source literal made of ASCII characters only. *)
Definition lit (s : string) : JsString :=
  map N_of_ascii (list_ascii_of_string s).

(** ECMAScript [WhiteSpace] and [LineTerminator] code units: what
    [String.prototype.trim] strips. *)
Definition is_ws (c : N) : bool :=
  ((9 <=? c) && (c <=? 13))
  || (c =? 32) || (c =? 160) || (c =? 5760)
  || ((8192 <=? c) && (c <=? 8202))
  || (c =? 8232) || (c =? 8233) || (c =? 8239) || (c =? 8287)
  || (c =? 12288) || (c =? 65279).

Fixpoint trimStart (s : JsString) : JsString :=
  match s with
  | [] => []
  | c :: s' => if is_ws c then trimStart s' else s
  end.

Definition trimEnd (s : JsString) : JsString := rev (trimStart (rev s)).

(** [s.trim()] *)
Definition trim (s : JsString) : JsString := trimEnd (trimStart s).

(** Truthiness of a string: only the empty string is falsy. *)
Definition truthy_str (s : JsString) : bool :=
  match s with [] => false | _ :: _ => true end.

(** Truthiness of a property that holds a string or is [undefined]/[null]
    ([None]). *)
Definition truthy (v : option JsString) : bool :=
  match v with Some s => truthy_str s | None => false end.

(** [a || b] on such values. *)
Definition or (a b : option JsString) : option JsString :=
  if truthy a then a else b.

(** [a || b] where [b] is a string. *)
Definition or_str (a : option JsString) (b : JsString) : JsString :=
  match a with
  | Some (c :: s) => c :: s
  | _ => b
  end.

(** A default parameter value [x = d]: used only when the argument is
    [undefined]. *)
Definition default_param (a : option JsString) (d : JsString) : JsString :=
  match a with Some s => s | None => d end.

(** How an [async] function settles: its promise is fulfilled with a value
    or rejected with a thrown [Error] (of which only the message is kept). *)
Inductive Completion (A : Type) : Type :=
| Normal (a : A)
| Throw (msg : option JsString).
Arguments Normal {A} a.
Arguments Throw {A} msg.

(** Numbers are binary64.  One that is not negative is counted in units of
    [2^-1074], the distance between the smallest of them: every binary64
    number is a whole number of units, and a whole number of units below
    [2^1024] is a binary64 number when it has at most 53 significant
    bits. *)
Definition units (x : Q) : Z := Qfloor (x * inject_Z (2 ^ 1074)).

(** [p / 2^s] rounded to the nearest integer, a tie to the even one. *)
Definition round_half_even (p s : Z) : Z :=
  let q := (p / 2 ^ s)%Z in
  match (2 * (p mod 2 ^ s) ?= 2 ^ s)%Z with
  | Lt => q
  | Gt => (q + 1)%Z
  | Eq => if Z.even q then q else (q + 1)%Z
  end.

(** A whole number of units rounded to 53 significant bits: what a
    binary64 operation makes of its exact result. *)
Definition round53 (p : Z) : Z :=
  let s := Z.max (Z.log2 p - 52) 0 in
  (round_half_even p s * 2 ^ s)%Z.

(** [x] is not negative and has the precision of binary64: a whole number
    of units of [2^-1074] with at most 53 significant bits.  Below [2^1024]
    these are the binary64 numbers that are not negative. *)
Definition binary64 (x : Q) : bool :=
  Qle_bool 0 x
  && Qeq_bool (inject_Z (units x) / inject_Z (2 ^ 1074)) x
  && (round53 (units x) =? units x)%Z.

(** [Math.floor(u * n)] for the binary64 number [u] returned by
    [Math.random()] and the length [n] of an array: the exact product is
    rounded to binary64 before its integer part is taken. *)
Definition floor_scaled (u : Q) (n : nat) : Z :=
  (round53 (units u * Z.of_nat n) / 2 ^ 1074)%Z.

(** [arr[i]] for an integer-valued index: [undefined] out of range. *)
Definition index {A} (arr : list A) (i : Z) : option A :=
  if (i <? 0)%Z then None else arr !! Z.to_nat i.

(** A [Blob] is its bytes; [new Blob(parts)] concatenates the parts. *)
Abbreviation Blob := (list Byte.byte).

Definition new_Blob (parts : list Blob) : Blob := concat parts.

Definition size (b : Blob) : nat := length b.

End Js.

Import Js.

(** ** The API service ([services/api.js]) *)

Module Api.

(** Body of a reply of [POST /voice/chat]. *)
Record ChatResult := mkChatResult {
  cr_response : option JsString;
  cr_language : option JsString
}.

(** Body of a reply of [POST /voice/transcribe]. *)
Record TranscribeResult := mkTranscribeResult {
  tr_success : bool;
  tr_text : option JsString;
  tr_language : option JsString
}.

(** Body of an error reply, as far as the service reads it. *)
Record ErrorBody := mkErrorBody {
  detail : option JsString;
  message : option JsString
}.

(** What [await fetch(url, config)] followed by [response.json()] can give.
    [A] is what a JSON object of the body is read as.  A 2xx reply whose
    body is the JSON text [null] is kept apart from these answers: the
    service hands [null] on unchanged, and what then happens is decided by
    the caller, so it is an outcome of the caller's own ([ChatReplyNull]
    and [TranscribeReplyNull] for the chat session) or a value of [A] (an
    option, for the detection page). *)
Inductive Fetched (A : Type) : Type :=
| Rejected (reason : JsString)      (* [fetch] rejects: no HTTP response *)
| NotOk (body : option ErrorBody)   (* [!response.ok]; [None]: body is not JSON *)
| OkBody (body : option A).         (* [response.ok]; [None]: body is not JSON *)
Arguments Rejected {A} reason.
Arguments NotOk {A} body.
Arguments OkBody {A} body.

Inductive FormValue :=
| FormFile (data : Blob) (filename : string)
| FormText (value : JsString).

(** The two requests the session sends. *)
Inductive Request :=
| PostJson (endpoint : string) (msg language : JsString) (farmer_id : option JsString)
| PostForm (endpoint : string) (formData : list (string * FormValue)).

(** An [async] method of the service, up to its first [await]: it either
    settles without touching the network, or sends one request and settles
    from what [fetch] gives ([k] also tells whether [console.error] ran). *)
Inductive Async (A : Type) : Type :=
| Settled (c : Completion A)
| Fetch (req : Request) (k : Fetched A -> Completion A * bool).
Arguments Settled {A} c.
Arguments Fetch {A} req k.

(** The requests a call puts on the network. *)
Definition issued {A} (a : Async A) : list Request :=
  match a with
  | Settled _ => []
  | Fetch req _ => [req]
  end.

(** How the call settles once the network has answered [r]. *)
Definition settle {A} (a : Async A) (r : Fetched A) : Completion A * bool :=
  match a with
  | Settled c => (c, false)
  | Fetch _ k => k r
  end.

(** [request(endpoint, options)] for a JSON [POST]: non-2xx replies and
    failures of [fetch] or of [response.json()] are logged and rethrown. *)
Definition request {A} (endpoint : string) (msg language : JsString)
    (farmer_id : option JsString) : Async A :=
  Fetch (PostJson endpoint msg language farmer_id)
    (fun r =>
       match r with
       | Rejected reason => (Throw (Some reason), true)
       | NotOk body =>
           let error :=
             match body with
             | Some e => e
             | None => mkErrorBody None (Some (lit "Request failed"))
             end in
           (Throw (Js.or (Js.or (detail error) (message error))
                         (Some (lit "Request failed"))), true)
       | OkBody (Some a) => (Normal a, false)
       | OkBody None => (Throw (Some (lit "SyntaxError")), true)
       end).

(** [voiceChat(message, language = 'en', farmerId = null)] *)
Definition voiceChat (msg : JsString) (language : option JsString)
    (farmerId : option JsString) : Async ChatResult :=
  request "/voice/chat" msg (default_param language (lit "en")) farmerId.

(** [transcribeAudio(audioBlob, farmerId = null)]: the form is built and
    posted whatever the blob; a non-2xx reply is rethrown, not logged. *)
Definition transcribeAudio (audioBlob : Blob) (farmerId : option JsString)
    : Async TranscribeResult :=
  let formData :=
    ("audio", FormFile audioBlob "recording.webm")
    :: (if truthy farmerId
        then [("farmer_id", FormText (default_param farmerId []))]
        else []) in
  Fetch (PostForm "/voice/transcribe" formData)
    (fun r =>
       match r with
       | Rejected reason => (Throw (Some reason), false)
       | NotOk body =>
           let error :=
             match body with
             | Some e => e
             | None => mkErrorBody None (Some (lit "Transcription failed"))
             end in
           (Throw (Js.or (detail error) (message error)), false)
       | OkBody (Some a) => (Normal a, false)
       | OkBody None => (Throw (Some (lit "SyntaxError")), false)
       end).

(** The call failed: the promise of the client method is rejected. *)
Definition failed {A} (c : Completion A * bool) : bool :=
  match fst c with Normal _ => false | Throw _ => true end.

(** The answers of the network on which the client methods throw: anything
    but a 2xx reply with a JSON body. *)
Definition answer_fails {A} (r : Fetched A) : bool :=
  match r with
  | OkBody (Some _) => false
  | _ => true
  end.

End Api.

Import Api.

(** ** The chat component ([components/Chatbot.js]) *)

(** A message of the transcript: [{ role, content, isVoice, language }].
    A property the object literal leaves out is [None] ([false] for
    [isVoice], which is only tested for truthiness). *)
Module Msg.

Inductive Role := user | assistant.

Record Message := mk {
  role : Role;
  content : option JsString;
  isVoice : bool;
  language : option JsString
}.

End Msg.

Abbreviation Message := Msg.Message.

Module Chatbot.

(** *** State *)

(** [MediaRecorder.state]; the component never pauses a recorder. *)
Inductive RecordingState := inactive | recording.

(** A [MediaRecorder] built by [startRecording]: the stream it records, its
    state, and the [language] its [onstop] closure was created with. *)
Record MediaRecorder := mkRecorder {
  rec_stream : nat;
  rec_state : RecordingState;
  rec_language : JsString
}.

(** The component's state ([useState]), its refs ([useRef]), what it reads
    from its surroundings ([useLanguage], [localStorage]) and the browser
    objects it creates: recorders, and microphone streams ([true] while the
    tracks of the stream are live, that is while the device is held). *)
Record World := mkWorld {
  messages : list Message;
  input : JsString;
  isListening : bool;
  isProcessing : bool;
  isLoading : bool;
  mediaRecorderRef : option nat;
  audioChunksRef : list Blob;
  language : JsString;
  userId : option JsString;
  recorders : list MediaRecorder;
  streams : list bool
}.

Definition setMessages (f : list Message -> list Message) (w : World) : World :=
  mkWorld (f (messages w)) (input w) (isListening w) (isProcessing w) (isLoading w)
    (mediaRecorderRef w) (audioChunksRef w) (language w) (userId w)
    (recorders w) (streams w).

Definition setInput (v : JsString) (w : World) : World :=
  mkWorld (messages w) v (isListening w) (isProcessing w) (isLoading w)
    (mediaRecorderRef w) (audioChunksRef w) (language w) (userId w)
    (recorders w) (streams w).

Definition setIsListening (b : bool) (w : World) : World :=
  mkWorld (messages w) (input w) b (isProcessing w) (isLoading w)
    (mediaRecorderRef w) (audioChunksRef w) (language w) (userId w)
    (recorders w) (streams w).

Definition setIsProcessing (b : bool) (w : World) : World :=
  mkWorld (messages w) (input w) (isListening w) b (isLoading w)
    (mediaRecorderRef w) (audioChunksRef w) (language w) (userId w)
    (recorders w) (streams w).

Definition setIsLoading (b : bool) (w : World) : World :=
  mkWorld (messages w) (input w) (isListening w) (isProcessing w) b
    (mediaRecorderRef w) (audioChunksRef w) (language w) (userId w)
    (recorders w) (streams w).

Definition set_mediaRecorderRef (r : option nat) (w : World) : World :=
  mkWorld (messages w) (input w) (isListening w) (isProcessing w) (isLoading w)
    r (audioChunksRef w) (language w) (userId w)
    (recorders w) (streams w).

Definition set_audioChunksRef (chunks : list Blob) (w : World) : World :=
  mkWorld (messages w) (input w) (isListening w) (isProcessing w) (isLoading w)
    (mediaRecorderRef w) chunks (language w) (userId w)
    (recorders w) (streams w).

Definition set_language (l : JsString) (w : World) : World :=
  mkWorld (messages w) (input w) (isListening w) (isProcessing w) (isLoading w)
    (mediaRecorderRef w) (audioChunksRef w) l (userId w)
    (recorders w) (streams w).

Definition set_userId (u : option JsString) (w : World) : World :=
  mkWorld (messages w) (input w) (isListening w) (isProcessing w) (isLoading w)
    (mediaRecorderRef w) (audioChunksRef w) (language w) u
    (recorders w) (streams w).

Definition set_recorders (rs : list MediaRecorder) (w : World) : World :=
  mkWorld (messages w) (input w) (isListening w) (isProcessing w) (isLoading w)
    (mediaRecorderRef w) (audioChunksRef w) (language w) (userId w)
    rs (streams w).

Definition set_streams (ss : list bool) (w : World) : World :=
  mkWorld (messages w) (input w) (isListening w) (isProcessing w) (isLoading w)
    (mediaRecorderRef w) (audioChunksRef w) (language w) (userId w)
    (recorders w) ss.

(** The microphone is held while some stream obtained from [getUserMedia]
    still has live tracks. *)
Definition micHeld (w : World) : bool := existsb (fun live => live) (streams w).

(** What the handlers do to the outside, in the order they do it. *)
Inductive Event :=
| getUserMedia                  (* [navigator.mediaDevices.getUserMedia({ audio: true })] *)
| recorder_start (rid : nat)    (* [mediaRecorderRef.current.start()] *)
| recorder_stop (rid : nat)     (* [mediaRecorderRef.current.stop()] *)
| track_stop (sid : nat)        (* [stream.getTracks().forEach(track => track.stop())] *)
| fetch (req : Request)         (* a request leaves for the backend *)
| console_error (what : string)
| alert (text : string).

(** The suspended rest of a handler, one constructor per [await] (and one
    for the events a stopped recorder still has to deliver), with the local
    variables the rest of the handler reads. *)
Inductive Cont :=
| K_startRecording (language : JsString)
| K_onstop (stream : nat) (language : JsString)
| K_handleSend (currentInput language : JsString) (farmerId : option JsString)
| K_transcribe (stream : nat) (language : JsString) (audioBlob : Blob)
    (farmerId : option JsString)
| K_voiceChat (stream : nat) (transcribedText detectedLang : JsString)
    (farmerId : option JsString).

(** What the awaited operation gives when it settles. *)
Inductive Outcome :=
| MediaGranted                                  (* [getUserMedia] fulfils with a new stream *)
| MediaDenied                                   (* [getUserMedia] rejects *)
| FinalData (data : Blob)                       (* [dataavailable], then [stop] *)
| ChatReply (r : Fetched ChatResult) (random : Q)  (* and what [Math.random()] would return *)
| TranscribeReply (r : Fetched TranscribeResult)
| ConstructorThrows       (* a new stream, on which [new MediaRecorder] throws *)
| StartThrows             (* a new stream and recorder, whose [start()] throws *)
| ChatReplyNull           (* [voiceChat] returns [null]: a 2xx reply with body [null] *)
| TranscribeReplyNull.    (* [transcribeAudio] returns [null] *)

(** A handler run: the new state, the continuations it leaves suspended and
    the events it caused. *)
Definition Effect : Type := World * list Cont * list Event.

(** *** Initial state: [useState([...])], [useState('')], [useState(false)],
    [useRef(null)], [useRef([])] *)

Definition greeting : Message :=
  Msg.mk Msg.assistant
    (Some (lit "Hello! I am Kisan.JI AI Assistant powered by Gemini. Ask me anything about farming, crops, weather, or government schemes!"))
    false None.

Definition initial (language : JsString) (userId : option JsString) : World :=
  mkWorld [greeting] [] false false false None [] language userId [] [].

(** *** Text chat *)

Definition fallbackResponses : list JsString :=
  [ lit "Based on your location, I recommend planting wheat this season for optimal yield.";
    lit "The weather forecast shows good conditions for spraying in the next 2 days.";
    lit "Current market prices in your nearest mandi show rice at " ++ [8377]
      ++ lit "2,100 per quintal.";
    lit "For pest control, I suggest using neem-based organic pesticides.";
    lit "You may be eligible for the PM-KISAN scheme. Visit your nearest CSC for registration." ].

(** [handleSend], up to its [await]. *)
Definition handleSend (w : World) : Effect :=
  if negb (truthy_str (trim (input w))) || isLoading w then (w, [], [])
  else
    let userMessage := Msg.mk Msg.user (Some (input w)) false None in
    let currentInput := input w in
    let lang := or_str (Some (language w)) (lit "en") in
    let farmerId := userId w in
    let w1 := setIsLoading true
                (setInput [] (setMessages (fun prev => prev ++ [userMessage]) w)) in
    (w1, [K_handleSend currentInput lang farmerId],
     map fetch (issued (voiceChat currentInput (Some lang) farmerId))).

(** [handleSend], from the [await] on: the [try] body, [catch] and [finally]. *)
Definition handleSend_resume (currentInput lang : JsString)
    (farmerId : option JsString) (r : Fetched ChatResult) (random : Q)
    (w : World) : Effect :=
  let settled := settle (voiceChat currentInput (Some lang) farmerId) r in
  let logged := if snd settled then [console_error "API Error (/voice/chat):"] else [] in
  match fst settled with
  | Normal result =>
      let w1 := setMessages
                  (fun prev => prev ++ [Msg.mk Msg.assistant (cr_response result)
                                          false (cr_language result)]) w in
      (setIsLoading false w1, [], logged)
  | Throw _ =>
      let randomResponse :=
        index fallbackResponses (floor_scaled random (length fallbackResponses)) in
      let w1 := setMessages
                  (fun prev => prev ++ [Msg.mk Msg.assistant randomResponse false None]) w in
      (setIsLoading false w1, [], logged ++ [console_error "Chat error:"])
  end.

(** *** Voice chat *)

Definition apology : Message :=
  Msg.mk Msg.assistant
    (Some (lit "Sorry, I had trouble understanding. Please try speaking again or type your question."))
    false None.

(** [startRecording], up to [await getUserMedia]. *)
Definition startRecording (w : World) : Effect :=
  (w, [K_startRecording (language w)], [getUserMedia]).

(** How far the [try] of [startRecording] gets once [getUserMedia] has
    settled. *)
Inductive Attempt :=
| runs_to_its_end
| getUserMedia_rejects
| MediaRecorder_throws    (* [new MediaRecorder(stream, ...)] throws *)
| start_throws.           (* [mediaRecorderRef.current.start()] throws *)

(** [startRecording], from the [await] on.  The stream and the recorder
    are new objects; the ref is overwritten and the chunk list is replaced
    by a new empty one, whatever they held.  When the recorder cannot be
    built or started the [catch] runs with the stream already granted:
    nothing stops its tracks. *)
Definition startRecording_resume (lang : JsString) (attempt : Attempt) (w : World)
    : Effect :=
  let stream := length (streams w) in
  let rid := length (recorders w) in
  let w1 := set_streams (streams w ++ [true]) w in
  let built (state : RecordingState) :=
    let w2 := set_recorders (recorders w1 ++ [mkRecorder stream state lang]) w1 in
    set_audioChunksRef [] (set_mediaRecorderRef (Some rid) w2) in
  let caught :=
    [console_error "Error accessing microphone:";
     alert "Could not access microphone. Please check permissions."] in
  match attempt with
  | runs_to_its_end => (setIsListening true (built recording), [], [recorder_start rid])
  | getUserMedia_rejects => (w, [], caught)
  | MediaRecorder_throws => (w1, [], caught)
  | start_throws => (built inactive, [], caught)
  end.

(** [stopRecording]: [stop()] makes the recorder inactive at once and
    queues its last [dataavailable] and its [stop] event. *)
Definition stopRecording (w : World) : Effect :=
  match mediaRecorderRef w with
  | Some rid =>
      match recorders w !! rid with
      | Some r =>
          match rec_state r with
          | recording =>
              let stopped := mkRecorder (rec_stream r) inactive (rec_language r) in
              let w1 := set_recorders (<[rid := stopped]> (recorders w)) w in
              (setIsListening false w1,
               [K_onstop (rec_stream r) (rec_language r)],
               [recorder_stop rid])
          | inactive => (w, [], [])
          end
      | None => (w, [], [])
      end
  | None => (w, [], [])
  end.

(** [handleVoiceInput]: the microphone button toggles. *)
Definition handleVoiceInput (w : World) : Effect :=
  if isListening w then stopRecording w else startRecording w.

(** [ondataavailable] *)
Definition ondataavailable (data : Blob) (w : World) : World :=
  if (0 <? size data)%nat
  then set_audioChunksRef (audioChunksRef w ++ [data]) w
  else w.

(** The end of [onstop], after [await processVoiceInput(audioBlob)]. *)
Definition stop_tracks (stream : nat) (w : World) : World :=
  set_streams (<[stream := false]> (streams w)) w.

(** [processVoiceInput], up to [await api.transcribeAudio]. *)
Definition processVoiceInput (stream : nat) (lang : JsString) (audioBlob : Blob)
    (w : World) : Effect :=
  let w1 := setIsProcessing true w in
  let farmerId := userId w1 in
  (w1, [K_transcribe stream lang audioBlob farmerId],
   map fetch (issued (transcribeAudio audioBlob farmerId))).

(** [onstop], entered after the recorder's last [dataavailable]. *)
Definition onstop (stream : nat) (lang : JsString) (w : World) : Effect :=
  let audioBlob := new_Blob (audioChunksRef w) in
  processVoiceInput stream lang audioBlob w.

(** The [catch] and [finally] of [processVoiceInput], then the end of
    [onstop]. *)
Definition voice_catch (stream : nat) (logged : list Event) (w : World) : Effect :=
  let w1 := setMessages (fun prev => prev ++ [apology]) w in
  (stop_tracks stream (setIsProcessing false w1), [],
   logged ++ [console_error "Voice processing error:"; track_stop stream]).

(** [processVoiceInput], from [await api.transcribeAudio] on. *)
Definition transcribe_resume (stream : nat) (lang : JsString) (audioBlob : Blob)
    (farmerId : option JsString) (r : Fetched TranscribeResult) (w : World)
    : Effect :=
  match fst (settle (transcribeAudio audioBlob farmerId) r) with
  | Normal transcribeResult =>
      if tr_success transcribeResult && truthy (tr_text transcribeResult) then
        let transcribedText := default_param (tr_text transcribeResult) [] in
        let detectedLang := or_str (tr_language transcribeResult) lang in
        let w1 := setMessages
                    (fun prev => prev ++ [Msg.mk Msg.user (Some transcribedText) true
                                            (Some detectedLang)]) w in
        let farmerId' := userId w1 in
        (w1, [K_voiceChat stream transcribedText detectedLang farmerId'],
         map fetch (issued (voiceChat transcribedText (Some detectedLang) farmerId')))
      else
        (stop_tracks stream (setIsProcessing false w), [], [track_stop stream])
  | Throw _ => voice_catch stream [] w
  end.

(** [processVoiceInput], from [await api.voiceChat] on. *)
Definition voiceChat_resume (stream : nat) (transcribedText detectedLang : JsString)
    (farmerId : option JsString) (r : Fetched ChatResult) (w : World) : Effect :=
  let settled := settle (voiceChat transcribedText (Some detectedLang) farmerId) r in
  let logged := if snd settled then [console_error "API Error (/voice/chat):"] else [] in
  match fst settled with
  | Normal chatResult =>
      let w1 := setMessages
                  (fun prev => prev ++ [Msg.mk Msg.assistant (cr_response chatResult)
                                          false (cr_language chatResult)]) w in
      (stop_tracks stream (setIsProcessing false w1), [], logged ++ [track_stop stream])
  | Throw _ => voice_catch stream logged w
  end.

(** *** The event loop *)

(** The settlements on which React unmounts the component: a reply
    request comes back with [null], so the updater given to [setMessages]
    reads [null.response] when React renders. *)
Definition unmounts (k : Cont) (o : Outcome) : bool :=
  match k, o with
  | K_handleSend _ _ _, ChatReplyNull => true
  | K_voiceChat _ _ _ _, ChatReplyNull => true
  | _, _ => false
  end.

(** Run the rest of a handler on what it was waiting for.  There is no
    result when the handler was not waiting for that, or when the component
    is unmounted. *)
Definition resume (k : Cont) (o : Outcome) (w : World) : option Effect :=
  match k, o with
  | K_startRecording lang, MediaGranted =>
      Some (startRecording_resume lang runs_to_its_end w)
  | K_startRecording lang, MediaDenied =>
      Some (startRecording_resume lang getUserMedia_rejects w)
  | K_startRecording lang, ConstructorThrows =>
      Some (startRecording_resume lang MediaRecorder_throws w)
  | K_startRecording lang, StartThrows =>
      Some (startRecording_resume lang start_throws w)
  | K_onstop stream lang, FinalData data =>
      Some (onstop stream lang (ondataavailable data w))
  | K_handleSend currentInput lang farmerId, ChatReply r random =>
      Some (handleSend_resume currentInput lang farmerId r random w)
  | K_transcribe stream lang audioBlob farmerId, TranscribeReply r =>
      Some (transcribe_resume stream lang audioBlob farmerId r w)
  | K_transcribe stream _ _ _, TranscribeReplyNull =>
      (* reading [transcribeResult.success] throws inside the [try] *)
      Some (voice_catch stream [] w)
  | K_voiceChat stream transcribedText detectedLang farmerId, ChatReply r _ =>
      Some (voiceChat_resume stream transcribedText detectedLang farmerId r w)
  | K_handleSend _ _ _, ChatReplyNull => None     (* unmounted *)
  | K_voiceChat _ _ _ _, ChatReplyNull => None    (* unmounted *)
  | _, _ => None
  end.

(** The component with what it has in flight and what it has done so far. *)
Record Config := mkConfig {
  world : World;
  pending : list Cont;
  log : list Event
}.

Definition start (w : World) : Config := mkConfig w [] [].

(** One turn of the event loop: something the user does to an enabled
    control, or the settling of the [i]-th suspended operation. *)
Inductive Action :=
| Typing (text : JsString)        (* [onChange] of the input *)
| PressEnter                      (* [onKeyPress] of the input, key [Enter] *)
| ClickSend                       (* [onClick] of the send button *)
| ClickMic                        (* [onClick] of the microphone button *)
| Complete (i : nat) (o : Outcome)
| ChangeLanguage (l : JsString)   (* the language context changes *)
| StoreUserId (u : option JsString).  (* [localStorage] item [userId] changes *)

(** The [disabled] attributes of the three controls. *)
Definition input_disabled (w : World) : bool := isListening w || isProcessing w.

Definition send_disabled (w : World) : bool :=
  negb (truthy_str (trim (input w))) || isLoading w || isListening w || isProcessing w.

Definition mic_disabled (w : World) : bool := isProcessing w.

Definition apply_effect (c : Config) (waiting : list Cont) (e : Effect) : Config :=
  let '(w, ks, evs) := e in
  mkConfig w (waiting ++ ks) (log c ++ evs).

Definition exec (a : Action) (c : Config) : option Config :=
  let w := world c in
  match a with
  | Typing text =>
      if input_disabled w then None
      else Some (mkConfig (setInput text w) (pending c) (log c))
  | PressEnter =>
      if input_disabled w then None
      else Some (apply_effect c (pending c) (handleSend w))
  | ClickSend =>
      if send_disabled w then None
      else Some (apply_effect c (pending c) (handleSend w))
  | ClickMic =>
      if mic_disabled w then None
      else Some (apply_effect c (pending c) (handleVoiceInput w))
  | Complete i o =>
      match pending c !! i with
      | Some k =>
          match resume k o w with
          | Some e => Some (apply_effect c (delete i (pending c)) e)
          | None => None
          end
      | None => None
      end
  | ChangeLanguage l => Some (mkConfig (set_language l w) (pending c) (log c))
  | StoreUserId u => Some (mkConfig (set_userId u w) (pending c) (log c))
  end.

(** Run a list of turns. *)
Fixpoint run (acts : list Action) (c : Config) : option Config :=
  match acts with
  | [] => Some c
  | a :: acts' =>
      match exec a c with
      | Some c' => run acts' c'
      | None => None
      end
  end.

(** The configurations a run goes through, the first one included. *)
Fixpoint visited (acts : list Action) (c : Config) : list Config :=
  c :: match acts with
       | [] => []
       | a :: acts' =>
           match exec a c with
           | Some c' => visited acts' c'
           | None => []
           end
       end.

Definition step (c c' : Config) : Prop := exists a, exec a c = Some c'.

(** The configurations a session can be in. *)
Inductive reachable : Config -> Prop :=
| reachable_start language userId : reachable (start (initial language userId))
| reachable_step c c' : reachable c -> step c c' -> reachable c'.

(** *** The specification's session states, read off the flags *)

Inductive SessionState := Idle | Recording | Transcribing | AwaitingReply | Speaking | Failed.

Definition awaits_reply (k : Cont) : bool :=
  match k with
  | K_handleSend _ _ _ | K_voiceChat _ _ _ _ => true
  | _ => false
  end.

Definition awaits_transcription (k : Cont) : bool :=
  match k with
  | K_transcribe _ _ _ _ => true
  | _ => false
  end.

Definition finishing_capture (k : Cont) : bool :=
  match k with
  | K_onstop _ _ => true
  | _ => false
  end.

Definition sessionState (c : Config) : SessionState :=
  if isListening (world c) || existsb finishing_capture (pending c) then Recording
  else if isLoading (world c) || existsb awaits_reply (pending c) then AwaitingReply
  else if isProcessing (world c) || existsb awaits_transcription (pending c) then Transcribing
  else Idle.

(** Nothing is going on: no flag is raised and nothing is in flight. *)
Definition idle (c : Config) : Prop :=
  isListening (world c) = false /\ isProcessing (world c) = false
  /\ isLoading (world c) = false /\ pending c = [].

(** *** Notions used to state the properties *)

(** Every handler leaves the transcript it found and appends to it. *)
Definition appends (w : World) (e : Effect) : Prop :=
  exists added, messages (fst (fst e)) = messages w ++ added.

(** The world once a recording started from [w] has been stopped and its
    last chunk [data] delivered: [processVoiceInput] is waiting for the
    transcription. *)
Definition captured (w : World) (data : Blob) : World :=
  mkWorld (messages w) (input w) false true (isLoading w)
    (Some (length (recorders w)))
    (if (0 <? size data)%nat then [data] else [])
    (language w) (userId w)
    (recorders w ++ [mkRecorder (length (streams w)) inactive (language w)])
    (streams w ++ [true]).

(** A recording from the first press of the microphone button to the
    recorder's last chunk [data]. *)
Definition capture (data : Blob) : list Action :=
  [ClickMic; Complete 0 MediaGranted; ClickMic; Complete 0 (FinalData data)].

(** The user presses the microphone button twice before the browser has
    granted the microphone. *)
Definition double_click : list Action :=
  [ClickMic; ClickMic;
   Complete 0 MediaGranted].           (* first recording starts *)

(** The user presses the microphone button three times while the browser
    is still asking for permission, and once more when the first recording
    has started. *)
Definition impatient : list Action :=
  [ClickMic; ClickMic; ClickMic;
   Complete 0 MediaGranted;            (* first recording starts *)
   ClickMic;                           (* ... and is stopped *)
   Complete 0 MediaGranted;            (* second recording starts *)
   Complete 1 (FinalData [Byte.x07])]. (* the first one delivers its audio *)

(** The stream a suspended step of a voice interaction will release. *)
Definition cont_stream (k : Cont) : option nat :=
  match k with
  | K_onstop stream _ => Some stream
  | K_transcribe stream _ _ _ => Some stream
  | K_voiceChat stream _ _ _ => Some stream
  | _ => None
  end.

(** The stream of a network call of a voice interaction that is in flight. *)
Definition voice_call (k : Cont) : option nat :=
  match k with
  | K_transcribe stream _ _ _ => Some stream
  | K_voiceChat stream _ _ _ => Some stream
  | _ => None
  end.

Definition recording_stream (r : MediaRecorder) : option nat :=
  match rec_state r with
  | recording => Some (rec_stream r)
  | inactive => None
  end.

(** The streams in use: by a recorder that records, or by a voice
    interaction that has not reached the end of [onstop]. *)
Definition owners (c : Config) : list nat :=
  omap recording_stream (recorders (world c)) ++ omap cont_stream (pending c).

(** Every stream in use is live, and no two users share a stream. *)
Definition streams_owned (c : Config) : Prop :=
  NoDup (owners c)
  /\ Forall (fun s => streams (world c) !! s = Some true) (owners c).

(** The turn from [c] to [c'] ends the voice interaction whose
    continuation was [i]-th in flight: nothing replaces the continuation,
    and the last thing the turn does is to stop the tracks of [s]. *)
Definition released_at_end (c c' : Config) (i s : nat) : Prop :=
  pending c' = delete i (pending c)
  /\ streams (world c') !! s = Some false
  /\ exists evs, log c' = log c ++ evs ++ [track_stop s].

End Chatbot.

Import Chatbot.

(** ** Further notions on the event loop *)

(** A typed message is awaiting its reply. *)
Definition text_call (k : Cont) : option unit :=
  match k with
  | K_handleSend _ _ _ => Some tt
  | _ => None
  end.

(** How many more turns a suspended step can still cause, itself
    included: a stopped recorder is followed by the transcription, the
    transcription by the reply. *)
Definition turns_left (k : Cont) : nat :=
  match k with
  | K_startRecording _ => 1
  | K_onstop _ _ => 3
  | K_handleSend _ _ _ => 1
  | K_transcribe _ _ _ _ => 2
  | K_voiceChat _ _ _ _ => 1
  end.

Definition work_left (c : Config) : nat := sum_list_with turns_left (pending c).

(** A turn made of the settling of something in flight. *)
Definition is_Complete (a : Action) : bool :=
  match a with
  | Complete _ _ => true
  | _ => false
  end.

(** The turn is a [start()] that throws. *)
Definition start_failed (a : Action) : bool :=
  match a with
  | Complete _ StartThrows => true
  | _ => false
  end.

(** The turn is a recorder that cannot be built or started: a stream has
    been granted that nothing will record. *)
Definition recorder_failed (a : Action) : bool :=
  match a with
  | Complete _ ConstructorThrows | Complete _ StartThrows => true
  | _ => false
  end.

(** What one turn can do to the microphone streams and to their users:
    nothing, release one stream of a user that is done, or give a new
    stream to a new user; and on a turn on which the recorder cannot be
    built or started, leave a new stream without a user. *)
Definition stream_turn (failed : bool) (c c' : Config) : Prop :=
  if failed then
    owners c' ≡ₚ owners c /\ streams (world c') = streams (world c) ++ [true]
  else
    (owners c' ≡ₚ owners c /\ streams (world c') = streams (world c))
    \/ (exists s, owners c ≡ₚ s :: owners c'
                  /\ streams (world c') = <[s := false]> (streams (world c)))
    \/ (owners c' ≡ₚ length (streams (world c)) :: owners c
        /\ streams (world c') = streams (world c) ++ [true]).

(** How many streams are live. *)
Definition live_streams (w : World) : nat :=
  length (filter (fun live => live = true) (streams w)).

(** How many recorders could not be built or started in a run. *)
Definition failures (acts : list Action) : nat :=
  length (filter (fun a => recorder_failed a = true) acts).

(** A recorder cannot be built on the stream that has been granted. *)
Definition unbuilt : list Action := [ClickMic; Complete 0 ConstructorThrows].

(** The recorder the ref points to is recording. *)
Definition ref_recording (w : World) : Prop :=
  exists rid r,
    mediaRecorderRef w = Some rid
    /\ recorders w !! rid = Some r
    /\ rec_state r = recording.

(** A whole voice interaction on which the transcription answers [result]
    and the reply service answers [r]. *)
Definition voice_interaction (data : Blob) (result : TranscribeResult)
    (r : Fetched ChatResult) (random : Q) : list Action :=
  capture data
  ++ [Complete 0 (TranscribeReply (OkBody (Some result)));
      Complete 0 (ChatReply r random)].

(** [isLoading] counts the typed messages that await a reply. *)
Definition loading_counts (c : Config) : Prop :=
  length (omap text_call (pending c))
  = if isLoading (world c) then 1%nat else 0%nat.

(** [isProcessing] is raised only while a call of a voice interaction is
    in flight. *)
Definition processing_means_call (c : Config) : Prop :=
  isProcessing (world c) = true ->
  exists k s, k ∈ pending c /\ voice_call k = Some s.

(** While the session listens, the ref points to a recorder that records. *)
Definition listening_means_recording (c : Config) : Prop :=
  isListening (world c) = true -> ref_recording (world c).

(** Every live stream has a user. *)
Definition live_streams_owned (c : Config) : Prop :=
  forall s, streams (world c) !! s = Some true -> s ∈ owners c.

(** ** URI encoding, as the service uses it to build endpoints *)

Module Uri.

Definition in_range (lo hi c : N) : bool := (lo <=? c) && (c <=? hi).

Definition is_alnum (c : N) : bool :=
  in_range 48 57 c || in_range 65 90 c || in_range 97 122 c.

(** What [encodeURIComponent] leaves as it is: letters, digits and
    [- _ . ! ~ * ' ( )]. *)
Definition unreserved (c : N) : bool :=
  is_alnum c || existsb (N.eqb c) [45; 95; 46; 33; 126; 42; 39; 40; 41].

(** What [URLSearchParams] leaves as it is: letters, digits and [* - . _]. *)
Definition form_safe (c : N) : bool :=
  is_alnum c || existsb (N.eqb c) [42; 45; 46; 95].

(** An upper-case hexadecimal digit. *)
Definition hex_digit (d : N) : N := if d <? 10 then 48 + d else 55 + d.

(** [%XX] *)
Definition percent (byte : N) : JsString :=
  [37; hex_digit (byte / 16); hex_digit (byte mod 16)].

(** The bytes of the UTF-8 form of a code point. *)
Definition utf8 (cp : N) : list N :=
  if cp <? 128 then [cp]
  else if cp <? 2048 then [192 + cp / 64; 128 + cp mod 64]
  else if cp <? 65536 then
    [224 + cp / 4096; 128 + (cp / 64) mod 64; 128 + cp mod 64]
  else
    [240 + cp / 262144; 128 + (cp / 4096) mod 64; 128 + (cp / 64) mod 64;
     128 + cp mod 64].

Definition is_high (c : N) : bool := in_range 55296 56319 c.   (* D800-DBFF *)
Definition is_low (c : N) : bool := in_range 56320 57343 c.    (* DC00-DFFF *)

(** The code point of a surrogate pair. *)
Definition code_point (hi lo : N) : N :=
  65536 + (hi - 55296) * 1024 + (lo - 56320).

Definition escape (cp : N) : JsString := concat (map percent (utf8 cp)).

(** The code units of a JavaScript string are 16-bit. *)
Definition valid16 (s : JsString) : Prop := Forall (fun c => c < 65536) s.

(** A code unit [encodeURIComponent] can produce: an unreserved one or [%]. *)
Definition uri_char (c : N) : bool := unreserved c || (c =? 37).

(** The delimiters of a URL: [/ ? # & = +] and the space. *)
Definition delimiter (c : N) : bool :=
  existsb (N.eqb c) [47; 63; 35; 38; 61; 43; 32].

(** [s.isWellFormed()]: no surrogate without its partner. *)
Fixpoint well_formed (s : JsString) : bool :=
  match s with
  | [] => true
  | c :: rest =>
      if is_high c then
        match rest with
        | d :: rest' => is_low d && well_formed rest'
        | [] => false
        end
      else negb (is_low c) && well_formed rest
  end.

(** [encodeURIComponent(s)]; [None] is the [URIError] it throws on a
    surrogate without its partner. *)
Fixpoint encode (s : JsString) : option JsString :=
  match s with
  | [] => Some []
  | c :: rest =>
      if unreserved c then cons c <$> encode rest
      else if is_high c then
        match rest with
        | d :: rest' =>
            if is_low d then app (escape (code_point c d)) <$> encode rest'
            else None
        | [] => None
        end
      else if is_low c then None
      else app (escape c) <$> encode rest
  end.

Definition encodeURIComponent (s : JsString) : Completion JsString :=
  match encode s with
  | Some out => Normal out
  | None => Throw (Some (lit "URI malformed"))
  end.

(** The separators of a URL with a query: [? & = # /]. *)
Definition query_separator (c : N) : bool :=
  existsb (N.eqb c) [63; 38; 61; 35; 47].

(** The scalar values of a string handed to a Web API ([USVString]): a
    surrogate without its partner becomes U+FFFD. *)
Fixpoint scalar_values (s : JsString) : list N :=
  match s with
  | [] => []
  | c :: rest =>
      if is_high c then
        match rest with
        | d :: rest' =>
            if is_low d then code_point c d :: scalar_values rest'
            else 65533 :: scalar_values rest
        | [] => [65533]
        end
      else if is_low c then 65533 :: scalar_values rest
      else c :: scalar_values rest
  end.

(** One byte in the [application/x-www-form-urlencoded] serialisation. *)
Definition form_byte (byte : N) : JsString :=
  if byte =? 32 then [43]
  else if form_safe byte then [byte]
  else percent byte.

Definition form_encode (s : JsString) : JsString :=
  concat (map form_byte (concat (map utf8 (scalar_values s)))).

(** [new URLSearchParams()] after some [append(name, value)] calls, and its
    [toString()]. *)
Fixpoint URLSearchParams_toString (params : list (JsString * JsString)) : JsString :=
  match params with
  | [] => []
  | [(name, value)] => form_encode name ++ [61] ++ form_encode value
  | (name, value) :: rest =>
      form_encode name ++ [61] ++ form_encode value ++ [38]
      ++ URLSearchParams_toString rest
  end.

End Uri.

(** ** The REST methods of the service *)

Module Rest.

Import Uri.

(** What a method of the service does up to its [fetch]: it throws before
    sending anything, or sends one [GET] to an endpoint. *)
Inductive Call (A : Type) : Type :=
| Rejects (msg : option JsString)
| Gets (endpoint : JsString) (k : Fetched A -> Completion A * bool).
Arguments Rejects {A} msg.
Arguments Gets {A} endpoint k.

(** [request(endpoint)] without options: what it does with the answer is
    what it does for a [POST]. *)
Definition request {A} (endpoint : JsString) : Call A :=
  Gets endpoint (settle (Api.request "" [] [] None)).

(** A method whose endpoint is a template with one encoded argument. *)
Definition with_encoded {A} (before : JsString) (arg : JsString) : Call A :=
  match encodeURIComponent arg with
  | Normal out => request (before ++ out)
  | Throw msg => Rejects msg
  end.

(** [getPriceHistory(crop)] *)
Definition getPriceHistory {A} (crop : JsString) : Call A :=
  with_encoded (lit "/mandi/price-history/") crop.

(** [getDiseasesByCrop(cropName)] *)
Definition getDiseasesByCrop {A} (cropName : JsString) : Call A :=
  with_encoded (lit "/diseases/") cropName.

(** [getDiseaseInfo(diseaseName)] *)
Definition getDiseaseInfo {A} (diseaseName : JsString) : Call A :=
  with_encoded (lit "/detection/disease-info/") diseaseName.

(** [searchPesticides(query)] *)
Definition searchPesticides {A} (query : JsString) : Call A :=
  with_encoded (lit "/pesticide/search?q=") query.

(** [getPesticidesForCrop(crop)] *)
Definition getPesticidesForCrop {A} (crop : JsString) : Call A :=
  with_encoded (lit "/pesticide/for-crop/") crop.

(** The [filters] argument of [getMarketPrices]. *)
Record PriceFilters := mkPriceFilters {
  crop_name : option JsString;
  mandi_name : option JsString
}.

(** The [filters] argument of [getVillages]. *)
Record VillageFilters := mkVillageFilters {
  state : option JsString;
  district : option JsString
}.

(** [if (v) params.append(name, v)] *)
Definition append_if_truthy (name : string) (v : option JsString)
    (params : list (JsString * JsString)) : list (JsString * JsString) :=
  if truthy v then params ++ [(lit name, default_param v [])] else params.

(** The template [`${path}${queryString ? `?${queryString}` : ''}`] *)
Definition with_query (path : JsString) (params : list (JsString * JsString))
    : JsString :=
  let queryString := URLSearchParams_toString params in
  path ++ (if truthy_str queryString then 63 :: queryString else []).

(** [getMarketPrices(filters = {})] *)
Definition getMarketPrices_endpoint (filters : PriceFilters) : JsString :=
  with_query (lit "/market-prices")
    (append_if_truthy "mandi_name" (mandi_name filters)
       (append_if_truthy "crop_name" (crop_name filters) [])).

Definition getMarketPrices {A} (filters : PriceFilters) : Call A :=
  request (getMarketPrices_endpoint filters).

(** [getVillages(filters = {})] *)
Definition getVillages_endpoint (filters : VillageFilters) : JsString :=
  with_query (lit "/villages")
    (append_if_truthy "district" (district filters)
       (append_if_truthy "state" (state filters) [])).

Definition getVillages {A} (filters : VillageFilters) : Call A :=
  request (getVillages_endpoint filters).

(** The methods whose endpoint ends with an encoded argument. *)
Definition encoding_methods (A : Type) : list (JsString * (JsString -> Call A)) :=
  [ (lit "/mandi/price-history/", getPriceHistory);
    (lit "/diseases/", getDiseasesByCrop);
    (lit "/detection/disease-info/", getDiseaseInfo);
    (lit "/pesticide/search?q=", searchPesticides);
    (lit "/pesticide/for-crop/", getPesticidesForCrop) ].

(** How many of the optional filters are given. *)
Definition given (filters : list (option JsString)) : nat :=
  length (filter (fun v => truthy v = true) filters).

(** How often a code unit occurs in a string. *)
Definition occurrences (c : N) (s : JsString) : nat :=
  length (filter (fun x => x = c) s).

End Rest.

(** ** Reading a property of an object literal *)

Module Obj.

(** [a === b] on strings. *)
Fixpoint strict_eq (a b : JsString) : bool :=
  match a, b with
  | [], [] => true
  | x :: a', y :: b' => (x =? y) && strict_eq a' b'
  | _, _ => false
  end.

(** The properties every object literal inherits from [Object.prototype]
    in a browser.  All of them hold a function or an object. *)
Definition Object_prototype : list string :=
  [ "constructor"; "hasOwnProperty"; "isPrototypeOf"; "propertyIsEnumerable";
    "toLocaleString"; "toString"; "valueOf"; "__proto__";
    "__defineGetter__"; "__defineSetter__"; "__lookupGetter__";
    "__lookupSetter__" ].

Definition inherited (key : JsString) : bool :=
  existsb (fun name => strict_eq (lit name) key) Object_prototype.

(** What [obj[key]] gives for an object literal [obj]. *)
Inductive Property (A : Type) : Type :=
| Own (v : A)     (* a property written in the literal *)
| Inherited       (* a function or object of [Object.prototype] *)
| Missing.        (* [undefined] *)
Arguments Own {A} v.
Arguments Inherited {A}.
Arguments Missing {A}.

(** [obj[key]], the literal given by its properties in source order (no
    literal of the program repeats a key). *)
Definition get {A} (obj : list (string * A)) (key : JsString) : Property A :=
  match find (fun kv => strict_eq (lit (fst kv)) key) obj with
  | Some kv => Own (snd kv)
  | None => if inherited key then Inherited else Missing
  end.

(** The key an argument that may be [undefined] or [null] is turned into:
    its text.  ([None] stands for either; both texts behave alike wherever
    the program reads a property.) *)
Definition key_of (v : option JsString) : JsString :=
  default_param v (lit "undefined").

(** Truthiness of [obj[key]], given that of the literal's values. *)
Definition truthy_property {A} (truthy_value : A -> bool) (p : Property A) : bool :=
  match p with
  | Own v => truthy_value v
  | Inherited => true
  | Missing => false
  end.

(** The own keys of a literal. *)
Definition keys {A} (obj : list (string * A)) : list JsString :=
  map (fun kv => lit (fst kv)) obj.

End Obj.

(** ** Reading a reply aloud *)

Module Speech.

Import Obj.

(** A [SpeechSynthesisUtterance], as far as the component sets it.  [lang]
    is [None] when the value assigned is no string of the program but the
    text of an inherited function or object. *)
Record Utterance := mkUtterance {
  text : option JsString;
  lang : option JsString;
  rate : Q
}.

(** The queue of [window.speechSynthesis]: the utterance being spoken, then
    those waiting. *)
Definition cancel (queue : list Utterance) : list Utterance := [].

Definition speak (u : Utterance) (queue : list Utterance) : list Utterance :=
  queue ++ [u].

Definition langMap : list (string * JsString) :=
  [ ("en", lit "en-US"); ("hi", lit "hi-IN"); ("mr", lit "mr-IN");
    ("ta", lit "ta-IN"); ("te", lit "te-IN"); ("bn", lit "bn-IN");
    ("gu", lit "gu-IN"); ("kn", lit "kn-IN"); ("ml", lit "ml-IN");
    ("pa", lit "pa-IN") ].

(** [a || b] on values read from [langMap]. *)
Definition or_property (a b : Property JsString) : Property JsString :=
  if truthy_property truthy_str a then a else b.

(** Assigning to [utterance.lang] turns the value into a string. *)
Definition assigned (p : Property JsString) : option JsString :=
  match p with
  | Own v => Some v
  | Inherited => None
  | Missing => Some (lit "undefined")
  end.

(** [langMap[lang] || langMap[language] || 'en-US'] *)
Definition utterance_lang (lang : option JsString) (language : JsString)
    : option JsString :=
  assigned
    (or_property
       (or_property (get langMap (key_of lang)) (get langMap language))
       (Own (lit "en-US"))).

(** [speakResponse(text, lang)]; [supported] is ['speechSynthesis' in
    window], [language] the language of the interface. *)
Definition speakResponse (supported : bool) (language : JsString)
    (text lang : option JsString) (queue : list Utterance) : list Utterance :=
  if supported then
    speak (mkUtterance text (utterance_lang lang language) (9 # 10))
          (cancel queue)
  else queue.

(** A press of a [Listen] button: the interface language at that moment,
    and the message read. *)
Record Listen := mkListen {
  at_language : JsString;
  message : Msg.Message
}.

Definition listen (supported : bool) (queue : list Utterance) (l : Listen)
    : list Utterance :=
  speakResponse supported (at_language l)
    (Msg.content (message l)) (Msg.language (message l)) queue.

(** The locales the component can ask for. *)
Definition locales : list JsString := map snd langMap.

End Speech.

(** ** The language of the interface *)

Module Language.

Import Obj.

(** The languages [translations] has a table for.  The tables themselves
    are not needed to follow the language. *)
Definition translations : list (string * unit) :=
  [ ("en", tt); ("hi", tt); ("mr", tt) ].

(** Truthiness of [translations[lang]]: a table is an object. *)
Definition has_table (lang : JsString) : bool :=
  truthy_property (fun _ => true) (get translations lang).

(** The provider's state and the [agri_language] item of [localStorage]
    ([None]: no such item). *)
Record State := mkState {
  language : JsString;
  stored : option JsString
}.

(** [useState('en')], in a browser whose storage holds [item]. *)
Definition initial (item : option JsString) : State := mkState (lit "en") item.

(** The effect run once after the first render. *)
Definition mount (s : State) : State :=
  match stored s with
  | Some storedLang =>
      if truthy_str storedLang && has_table storedLang
      then mkState storedLang (stored s)
      else s
  | None => s
  end.

(** [changeLanguage(lang)].  [written] tells whether [localStorage.setItem]
    succeeds; when it throws, [setLanguage] has already been called. *)
Definition changeLanguage (lang : JsString) (written : bool) (s : State) : State :=
  if has_table lang
  then mkState lang (if written then Some lang else stored s)
  else s.

(** The provider from its first render on: the mount effect, then the
    calls of [changeLanguage]. *)
Definition provider (item : option JsString) (calls : list (JsString * bool))
    : State :=
  fold_left (fun s call => changeLanguage (fst call) (snd call) s)
            calls (mount (initial item)).

(** What a reload of the page would show. *)
Definition reloaded (s : State) : State := mount (initial (stored s)).

End Language.

(** ** The disease detection page *)

Module PestDetection.

Import Rest.

(** *** The service methods the page calls *)

(** A [File]: its name and its bytes. *)
Record File := mkFile {
  name : string;
  data : Blob
}.

(** [file.size] *)
Definition file_size (file : File) : N := N.of_nat (Js.size (data file)).

(** An entry of [response.crops]. *)
Record Model := mkModel {
  id : JsString;
  model_name : JsString;
  available : bool;
  diseases : list JsString
}.

(** Bodies of the replies, as far as the page reads them.  A field is a
    value of its type or absent ([None]); the entries of [treatments],
    [preventions] and [history] are passed on unread. *)
Record ModelsBody := mkModelsBody {
  crops : option (list Model)
}.

Record HistoryBody := mkHistoryBody {
  history : option (list JsString)
}.

Record Analysis := mkAnalysis {
  success : bool;
  disease : option JsString;
  confidence : option Q;
  severity : option JsString;
  description : option JsString;
  crop_type : option JsString;
  treatments : option (list JsString);
  preventions : option (list JsString);
  error : option JsString
}.

(** The decimal digits of a natural number, most significant first. *)
Fixpoint digits (fuel : nat) (n : N) (acc : JsString) : JsString :=
  match fuel with
  | O => acc
  | S fuel' =>
      let acc' := (48 + n mod 10) :: acc in
      if n / 10 =? 0 then acc' else digits fuel' (n / 10) acc'
  end.

(** [`${n}`] for a natural number below [10^21]. *)
Definition decimal (n : N) : JsString := digits (S (N.to_nat (N.log2 n))) n [].

(** What a call puts on the network, and how it settles. *)
Definition sent {A} (call : Call A) : list JsString :=
  match call with
  | Rejects _ => []
  | Gets endpoint _ => [endpoint]
  end.

Definition settles {A} (call : Call A) (r : Fetched A) : Completion A * bool :=
  match call with
  | Rejects msg => (Throw msg, false)
  | Gets _ k => k r
  end.

(** [getDetectionModels()].  The body of a reply is [None] when it is the
    JSON text [null]. *)
Definition getDetectionModels : Call (option ModelsBody) :=
  request (lit "/detection/models").

(** [getDetectionHistory(limit = 20)] *)
Definition getDetectionHistory (limit : option N) : Call (option HistoryBody) :=
  request (lit "/detection/history?limit="
           ++ decimal (match limit with Some n => n | None => 20 end)).

(** [analyzeImage(imageFile, cropType = 'general')]: a non-2xx reply is
    rethrown, not logged. *)
Definition analyzeImage (imageFile : File) (cropType : option JsString)
    : Async (option Analysis) :=
  let formData :=
    [ ("file", FormFile (data imageFile) (name imageFile));
      ("crop_type", FormText (default_param cropType (lit "general"))) ] in
  Fetch (PostForm "/detection/analyze" formData)
    (fun r =>
       match r with
       | Rejected reason => (Throw (Some reason), false)
       | NotOk body =>
           let error :=
             match body with
             | Some e => e
             | None => mkErrorBody None (Some (lit "Analysis failed"))
             end in
           (Throw (Js.or (detail error) (message error)), false)
       | OkBody (Some a) => (Normal a, false)
       | OkBody None => (Throw (Some (lit "SyntaxError")), false)
       end).

(** *** The page *)

(** What [setResult] is given after a successful analysis. *)
Record Result := mkResult {
  r_disease : option JsString;
  r_confidence : option Q;
  r_severity : JsString;
  r_description : JsString;
  r_crop_type : JsString;
  r_treatments : list JsString;
  r_preventions : list JsString
}.

(** The state of the page, and the timers of [setInterval]: the [n]-th
    one created is live or cleared. *)
Record World := mkWorld {
  availableModels : list Model;
  selectedCrop : JsString;
  uploadedImage : option JsString;
  imageFile : option File;
  detecting : bool;
  result : option Result;
  step : N;
  detectionHistory : list JsString;
  loadingModels : bool;
  intervals : list bool
}.

Definition setAvailableModels (v : list Model) (w : World) : World :=
  mkWorld v (selectedCrop w) (uploadedImage w) (imageFile w) (detecting w)
    (result w) (step w) (detectionHistory w) (loadingModels w) (intervals w).

Definition setSelectedCrop (v : JsString) (w : World) : World :=
  mkWorld (availableModels w) v (uploadedImage w) (imageFile w) (detecting w)
    (result w) (step w) (detectionHistory w) (loadingModels w) (intervals w).

Definition setUploadedImage (v : option JsString) (w : World) : World :=
  mkWorld (availableModels w) (selectedCrop w) v (imageFile w) (detecting w)
    (result w) (step w) (detectionHistory w) (loadingModels w) (intervals w).

Definition setImageFile (v : option File) (w : World) : World :=
  mkWorld (availableModels w) (selectedCrop w) (uploadedImage w) v (detecting w)
    (result w) (step w) (detectionHistory w) (loadingModels w) (intervals w).

Definition setDetecting (v : bool) (w : World) : World :=
  mkWorld (availableModels w) (selectedCrop w) (uploadedImage w) (imageFile w) v
    (result w) (step w) (detectionHistory w) (loadingModels w) (intervals w).

Definition setResult (v : option Result) (w : World) : World :=
  mkWorld (availableModels w) (selectedCrop w) (uploadedImage w) (imageFile w)
    (detecting w) v (step w) (detectionHistory w) (loadingModels w) (intervals w).

Definition setStep (f : N -> N) (w : World) : World :=
  mkWorld (availableModels w) (selectedCrop w) (uploadedImage w) (imageFile w)
    (detecting w) (result w) (f (step w)) (detectionHistory w) (loadingModels w)
    (intervals w).

Definition setDetectionHistory (v : list JsString) (w : World) : World :=
  mkWorld (availableModels w) (selectedCrop w) (uploadedImage w) (imageFile w)
    (detecting w) (result w) (step w) v (loadingModels w) (intervals w).

Definition setLoadingModels (v : bool) (w : World) : World :=
  mkWorld (availableModels w) (selectedCrop w) (uploadedImage w) (imageFile w)
    (detecting w) (result w) (step w) (detectionHistory w) v (intervals w).

(** [setInterval(...)] returns the number of the timer it creates. *)
Definition setInterval (w : World) : nat * World :=
  (length (intervals w),
   mkWorld (availableModels w) (selectedCrop w) (uploadedImage w) (imageFile w)
     (detecting w) (result w) (step w) (detectionHistory w) (loadingModels w)
     (intervals w ++ [true])).

Definition clearInterval (interval : nat) (w : World) : World :=
  mkWorld (availableModels w) (selectedCrop w) (uploadedImage w) (imageFile w)
    (detecting w) (result w) (step w) (detectionHistory w) (loadingModels w)
    (<[interval := false]> (intervals w)).

(** What the page does to the outside. *)
Inductive Event :=
| get (endpoint : JsString)            (* a [GET] through [request] *)
| post (req : Request)                 (* the [POST] of [analyzeImage] *)
| readAsDataURL (file : File)
| interval_set (interval : nat)
| interval_cleared (interval : nat)
| toast_error (text : JsString)
| toast_success (text : JsString)
| console_error (label : string).

(** The operations in flight: each resumes the page when it settles. *)
Inductive Cont :=
| K_models                             (* [loadAvailableModels] awaits *)
| K_history                            (* [loadDetectionHistory] awaits *)
| K_onloadend                          (* a [FileReader] is reading *)
| K_analyzeImage (progressInterval : nat) (imageFile : File)
                 (selectedCrop : JsString).  (* [handleDetection] awaits *)

Inductive Outcome :=
| Models (r : Fetched (option ModelsBody))
| History (r : Fetched (option HistoryBody))
| LoadEnd (reader_result : option JsString)   (* [None]: the read failed *)
| Analysed (r : Fetched (option Analysis)).

Definition Effect : Type := World * list Cont * list Event.

Definition fallbackModels : list Model :=
  [ mkModel (lit "cotton") (lit "Cotton") true
      [lit "Bacterial Blight"; lit "Curl Virus"; lit "Fusarium Wilt"; lit "Healthy"];
    mkModel (lit "corn") (lit "Corn") true
      [lit "Blight"; lit "Common Rust"; lit "Gray Leaf Spot"; lit "Healthy"];
    mkModel (lit "sugarcane") (lit "Sugarcane") true
      [lit "Mosaic"; lit "Red Rot"; lit "Rust"; lit "Healthy"];
    mkModel (lit "wheat") (lit "Wheat") true
      [lit "Brown Rust"; lit "Healthy"; lit "Yellow Rust"];
    mkModel (lit "rice") (lit "Rice") true
      [lit "Blast"; lit "Blight"; lit "Tungro"];
    mkModel (lit "general") (lit "General Plant Scan") true [];
    mkModel (lit "pest") (lit "Pest Detection ") true [] ].

(** What [request] logs when it rethrows. *)
Definition api_error (logged : bool) : list Event :=
  if logged then [console_error "API Error"] else [].

(** [loadAvailableModels], up to its [await]. *)
Definition loadAvailableModels (w : World) : Effect :=
  (setLoadingModels true w, [K_models], map get (sent getDetectionModels)).

(** [loadAvailableModels], from the [await] on. *)
Definition loadAvailableModels_resume (r : Fetched (option ModelsBody))
    (w : World) : Effect :=
  let settled := settles getDetectionModels r in
  let caught :=
    (setAvailableModels fallbackModels w, [console_error "Error loading models:"]) in
  let '(w1, evs) :=
    match fst settled with
    | Normal (Some response) =>
        let w1 := setAvailableModels
                    (match crops response with Some l => l | None => [] end) w in
        match crops response with
        | Some (first :: rest) =>
            let firstAvailable :=
              match find available (first :: rest) with
              | Some c => c
              | None => first
              end in
            (setSelectedCrop (id firstAvailable) w1, [])
        | _ => (w1, [])
        end
    | Normal None => caught      (* reading [crops] of [null] throws *)
    | Throw _ => caught
    end in
  (setLoadingModels false w1, [], api_error (snd settled) ++ evs).

(** [loadDetectionHistory], up to its [await]. *)
Definition loadDetectionHistory (w : World) : Effect :=
  (w, [K_history], map get (sent (getDetectionHistory (Some 10)))).

(** [loadDetectionHistory], from the [await] on. *)
Definition loadDetectionHistory_resume (r : Fetched (option HistoryBody))
    (w : World) : Effect :=
  let settled := settles (getDetectionHistory (Some 10)) r in
  let caught := (w, [console_error "Error loading history:"]) in
  let '(w1, evs) :=
    match fst settled with
    | Normal (Some response) =>
        (setDetectionHistory
           (match history response with Some l => l | None => [] end) w, [])
    | Normal None => caught      (* reading [history] of [null] throws *)
    | Throw _ => caught
    end in
  (w1, [], api_error (snd settled) ++ evs).

(** [10 * 1024 * 1024] *)
Definition max_size : N := 10 * 1024 * 1024.

(** [handleImageUpload(e)]; [file] is [e.target.files[0]]. *)
Definition handleImageUpload (file : option File) (w : World) : Effect :=
  match file with
  | Some f =>
      if max_size <? file_size f
      then (w, [], [toast_error (lit "Image too large. Maximum size is 10MB.")])
      else (setImageFile (Some f) w, [K_onloadend], [readAsDataURL f])
  | None => (w, [], [])
  end.

(** [reader.onloadend] *)
Definition onloadend (reader_result : option JsString) (w : World) : Effect :=
  (setResult None (setUploadedImage reader_result w), [],
   [toast_success (lit "Image uploaded successfully")]).

(** [handleDetection], up to its [await]. *)
Definition handleDetection (w : World) : Effect :=
  match imageFile w with
  | Some file =>
      if truthy (uploadedImage w) then
        let w1 := setResult None (setStep (fun _ => 1) (setDetecting true w)) in
        let '(progressInterval, w2) := setInterval w1 in
        (w2, [K_analyzeImage progressInterval file (selectedCrop w)],
         interval_set progressInterval
         :: map post (issued (analyzeImage file (Some (selectedCrop w)))))
      else (w, [], [toast_error (lit "Please upload an image first")])
  | None => (w, [], [toast_error (lit "Please upload an image first")])
  end.

(** The callback of the progress timer. *)
Definition tick (w : World) : World :=
  setStep (fun prev => if prev <? 3 then prev + 1 else prev) w.

(** The text [`${v}`] of a string that may be absent. *)
Definition interpolated (v : option JsString) : JsString :=
  default_param v (lit "undefined").

(** [a || []] on a list that may be absent. *)
Definition or_empty {A} (a : option (list A)) : list A :=
  match a with Some l => l | None => [] end.

(** [handleDetection], from the [await] on: the [try] body, [catch] and
    [finally].  A [TypeError] of the engine is given by its name. *)
Definition handleDetection_resume (progressInterval : nat) (file : File)
    (selectedCrop : JsString) (r : Fetched (option Analysis)) (w : World)
    : Effect :=
  let settled := settle (analyzeImage file (Some selectedCrop)) r in
  let caught (msg : option JsString) : list Event :=
    [ interval_cleared progressInterval;
      console_error "Detection error:";
      toast_error (or_str msg (lit "Detection failed. Please try again.")) ] in
  match fst settled with
  | Normal (Some response) =>
      let w1 := setStep (fun _ => 4) (clearInterval progressInterval w) in
      if success response then
        let shown :=
          mkResult (disease response) (confidence response)
            (or_str (severity response) (lit "Unknown"))
            (or_str (description response)
               (lit "Detected " ++ interpolated (disease response)
                ++ lit " in your " ++ selectedCrop ++ lit " crop."))
            (or_str (crop_type response) selectedCrop)
            (or_empty (treatments response))
            (or_empty (preventions response)) in
        let '(w2, ks, evs) := loadDetectionHistory (setResult (Some shown) w1) in
        (setDetecting false w2, ks,
         interval_cleared progressInterval
         :: toast_success (lit "Analysis complete!") :: evs)
      else
        (setDetecting false w1, [],
         [ interval_cleared progressInterval;
           toast_error (or_str (error response) (lit "Detection failed")) ])
  | Normal None =>               (* reading [success] of [null] throws *)
      let w1 := setStep (fun _ => 4) (clearInterval progressInterval w) in
      (setDetecting false (clearInterval progressInterval w1), [],
       interval_cleared progressInterval :: caught (Some (lit "TypeError")))
  | Throw msg =>
      (setDetecting false (clearInterval progressInterval w), [], caught msg)
  end.

Definition resume (k : Cont) (o : Outcome) (w : World) : option Effect :=
  match k, o with
  | K_models, Models r => Some (loadAvailableModels_resume r w)
  | K_history, History r => Some (loadDetectionHistory_resume r w)
  | K_onloadend, LoadEnd reader_result => Some (onloadend reader_result w)
  | K_analyzeImage progressInterval file crop, Analysed r =>
      Some (handleDetection_resume progressInterval file crop r w)
  | _, _ => None
  end.

(** *** The event loop *)

Record Config := mkConfig {
  world : World;
  pending : list Cont;
  log : list Event
}.

Definition apply_effect (c : Config) (waiting : list Cont) (e : Effect) : Config :=
  let '(w, ks, evs) := e in
  mkConfig w (waiting ++ ks) (log c ++ evs).

(** The state of the first render. *)
Definition initial : World :=
  mkWorld [] (lit "general") None None false None 1 [] true [].

(** The page once the effect of its first render has run:
    [loadAvailableModels()] and [loadDetectionHistory()] are awaiting. *)
Definition start : Config :=
  let c0 := mkConfig initial [] [] in
  let c1 := apply_effect c0 (pending c0) (loadAvailableModels (world c0)) in
  apply_effect c1 (pending c1) (loadDetectionHistory (world c1)).

(** One turn of the event loop. *)
Inductive Action :=
| SelectCrop (value : JsString)     (* [onValueChange] of the model list *)
| Upload (file : option File)       (* [onChange] of the file input *)
| ClickDetect                       (* [onClick] of the detect button *)
| Tick (interval : nat)             (* a progress timer fires *)
| Complete (i : nat) (o : Outcome).

(** The entries of the model list that can be chosen: the list is disabled
    while the models load, an entry when its model is not available. *)
Definition selectable (value : JsString) (w : World) : bool :=
  negb (loadingModels w)
  && existsb (fun model => Obj.strict_eq (id model) value && available model)
             (availableModels w).

(** The [disabled] attribute of the detect button. *)
Definition detect_disabled (w : World) : bool :=
  negb (truthy (uploadedImage w)) || detecting w.

Definition exec (a : Action) (c : Config) : option Config :=
  let w := world c in
  match a with
  | SelectCrop value =>
      if selectable value w
      then Some (mkConfig (setSelectedCrop value w) (pending c) (log c))
      else None
  | Upload file => Some (apply_effect c (pending c) (handleImageUpload file w))
  | ClickDetect =>
      if detect_disabled w then None
      else Some (apply_effect c (pending c) (handleDetection w))
  | Tick interval =>
      match intervals w !! interval with
      | Some true => Some (mkConfig (tick w) (pending c) (log c))
      | _ => None
      end
  | Complete i o =>
      match pending c !! i with
      | Some k =>
          match resume k o w with
          | Some e => Some (apply_effect c (delete i (pending c)) e)
          | None => None
          end
      | None => None
      end
  end.

Fixpoint run (acts : list Action) (c : Config) : option Config :=
  match acts with
  | [] => Some c
  | a :: acts' =>
      match exec a c with
      | Some c' => run acts' c'
      | None => None
      end
  end.

(** The configurations the page can be in. *)
Inductive reachable : Config -> Prop :=
| reachable_start : reachable start
| reachable_step a c c' : reachable c -> exec a c = Some c' -> reachable c'.

(** *** Notions used to state the properties *)

(** The timer of a detection in flight. *)
Definition cont_interval (k : Cont) : option nat :=
  match k with
  | K_analyzeImage progressInterval _ _ => Some progressInterval
  | _ => None
  end.

(** The files posted for analysis. *)
Definition analysed (e : Event) : option File :=
  match e with
  | post (PostForm _ (("file", FormFile bytes filename) :: _)) =>
      Some (mkFile filename bytes)
  | _ => None
  end.

Definition models_call (k : Cont) : option unit :=
  match k with
  | K_models => Some tt
  | _ => None
  end.

(** The model list offers the value, and its model is available. *)
Definition offered (value : JsString) (w : World) : Prop :=
  exists model,
    model ∈ availableModels w /\ id model = value /\ available model = true.

(** The progress timers of the detections in flight. *)
Definition timers (c : Config) : list nat := omap cont_interval (pending c).

(** [detecting] tells whether a detection is in flight, and the live
    timers are those of the detections in flight. *)
Definition timers_owned (c : Config) : Prop :=
  length (timers c) = (if detecting (world c) then 1 else 0)%nat
  /\ forall interval,
       intervals (world c) !! interval = Some true <-> interval ∈ timers c.

(** The progress shown stays between the first step and the last, and
    below the last while a detection is in flight. *)
Definition progress_in_range (c : Config) : Prop :=
  1 <= step (world c) <= 4
  /\ (detecting (world c) = true -> step (world c) <= 3).

(** The file kept for analysis and the files posted are within the limit,
    and a preview is shown or awaited only when a file is kept. *)
Definition files_within_limit (c : Config) : Prop :=
  (forall file, imageFile (world c) = Some file -> file_size file <= max_size)
  /\ Forall (fun file => file_size file <= max_size) (omap analysed (log c))
  /\ (truthy (uploadedImage (world c)) = true \/ K_onloadend ∈ pending c ->
      imageFile (world c) <> None).

(** While the models load the first choice stands; afterwards the choice is
    a model the list offers, if it offers any. *)
Definition choice_is_offered (c : Config) : Prop :=
  length (omap models_call (pending c))
  = (if loadingModels (world c) then 1 else 0)%nat
  /\ (loadingModels (world c) = true -> selectedCrop (world c) = lit "general")
  /\ (loadingModels (world c) = false ->
      (exists model, model ∈ availableModels (world c) /\ available model = true) ->
      offered (selectedCrop (world c)) (world c)).

(** The text of a toast. *)
Definition toast_text (e : Event) : option JsString :=
  match e with
  | toast_error text | toast_success text => Some text
  | _ => None
  end.

(** A photograph of three bytes is chosen and read, the detect button is
    pressed, and the progress timer fires once. *)
Definition photo : File := mkFile "leaf.jpg" [Byte.x01; Byte.x02; Byte.x03].

Definition detection_started : list Action :=
  [ Upload (Some photo); Complete 2 (LoadEnd (Some (lit "data:")));
    ClickDetect; Tick 0 ].

End PestDetection.

(** * Properties *)

(** ** [trim] *)

Lemma trimStart_nil_iff (s : JsString) :
  trimStart s = [] <-> forallb is_ws s = true.
Proof.
  induction s as [|c s IH]; simpl; [tauto|].
  destruct (is_ws c); simpl; [exact IH|].
  split; discriminate.
Qed.

Lemma forallb_is_ws_rev (s : JsString) :
  forallb is_ws (rev s) = forallb is_ws s.
Proof.
  induction s as [|c s IH]; simpl; [reflexivity|].
  rewrite forallb_app, IH. simpl. rewrite andb_true_r. apply andb_comm.
Qed.

Lemma trimStart_blank_tail (s : JsString) :
  forallb is_ws (trimStart s) = forallb is_ws s.
Proof.
  induction s as [|c s IH]; simpl; [reflexivity|].
  destruct (is_ws c) eqn:E; simpl; rewrite ?E; auto.
Qed.

(** [s.trim()] is the empty string exactly when [s] is empty or made of
    white space only. *)
Lemma trim_nil_iff (s : JsString) :
  trim s = [] <-> forallb is_ws s = true.
Proof.
  unfold trim, trimEnd.
  rewrite <- (trimStart_blank_tail s), <- (forallb_is_ws_rev (trimStart s)),
    <- trimStart_nil_iff.
  split; intros H.
  - destruct (trimStart (rev (trimStart s))); [reflexivity|].
    simpl in H. destruct (rev l); discriminate.
  - rewrite H. reflexivity.
Qed.

Lemma not_blank_not_empty (s : JsString) :
  truthy_str (trim s) = true -> s <> [].
Proof. intros H ->. discriminate. Qed.

(** ** The service: what makes a call fail *)

Lemma transcribeAudio_failed audioBlob farmerId r :
  failed (settle (transcribeAudio audioBlob farmerId) r) = answer_fails r.
Proof. destruct r as [?|[?|]|[?|]]; reflexivity. Qed.

Lemma voiceChat_failed msg language farmerId r :
  failed (settle (voiceChat msg language farmerId) r) = answer_fails r.
Proof. destruct r as [?|[?|]|[?|]]; reflexivity. Qed.

Lemma transcribeAudio_ok audioBlob farmerId result :
  fst (settle (transcribeAudio audioBlob farmerId) (OkBody (Some result)))
  = Normal result.
Proof. reflexivity. Qed.

Lemma voiceChat_ok msg language farmerId result :
  settle (voiceChat msg language farmerId) (OkBody (Some result))
  = (Normal result, false).
Proof. reflexivity. Qed.

(** ** The guard of [handleSend] *)

Lemma handleSend_blank (w : World) :
  forallb is_ws (input w) = true -> handleSend w = (w, [], []).
Proof.
  intros H. unfold handleSend.
  rewrite (proj2 (trim_nil_iff _) H). reflexivity.
Qed.

Lemma handleSend_loading (w : World) :
  isLoading w = true -> handleSend w = (w, [], []).
Proof.
  intros H. unfold handleSend. rewrite H, orb_true_r. reflexivity.
Qed.

(** [handleSend] reaches the reply service exactly when the text is not
    blank and no reply is being awaited by an earlier [handleSend]. *)
Lemma handleSend_accepts (w : World) :
  truthy_str (trim (input w)) = true -> isLoading w = false ->
  handleSend w =
    (setIsLoading true
       (setInput []
          (setMessages (fun prev => prev ++ [Msg.mk Msg.user (Some (input w)) false None]) w)),
     [K_handleSend (input w) (or_str (Some (language w)) (lit "en")) (userId w)],
     [fetch (PostJson "/voice/chat" (input w)
               (or_str (Some (language w)) (lit "en")) (userId w))]).
Proof.
  intros H1 H2. unfold handleSend. rewrite H1, H2. reflexivity.
Qed.

Lemma apply_effect_none (c : Config) :
  apply_effect c (pending c) (world c, [], []) = c.
Proof.
  destruct c as [w p l]. unfold apply_effect. simpl.
  rewrite !app_nil_r. reflexivity.
Qed.

(** C7, as the specification states it, does not hold: a blank text is not
    rejected with [InvalidInput], nor with any other error.  [handleSend]
    has no error to give: at its guard it returns, and what it returns is
    [undefined] as after any other call.  Nothing is thrown, logged or
    shown, and nothing the caller can read is changed: the configuration
    after the press is the configuration before it, so the caller cannot
    tell that the text was refused.  (A refusal the component does report
    looks otherwise: a microphone that is denied is logged and shown in an
    alert.) *)
Lemma C7_blank_text_is_dropped_silently :
  let c := start (setInput [32; 9; 160] (initial (lit "en") None)) in
  forallb is_ws (input (world c)) = true
  /\ snd (handleSend (world c)) = []
  /\ exec PressEnter c = Some c
  /\ log c = []
  /\ exists c',
       run [ClickMic; Complete 0 MediaDenied] c = Some c'
       /\ log c' = [getUserMedia;
                    console_error "Error accessing microphone:";
                    alert "Could not access microphone. Please check permissions."].
Proof.
  intros c. repeat split. eexists. split; reflexivity.
Qed.

(** C7, amended.  Submitting an empty or white-space-only text does
    nothing and reports nothing: [handleSend] returns at its guard, before
    any [set...] call and before any request, without an event and without
    anything left in flight.  The whole configuration (flags, transcript,
    input field, what is in flight, what was done) is the same after the
    turn, so the session state is unchanged and no message is appended;
    the send button is disabled for such a text. *)
Theorem C7_blank_text_is_rejected (c : Config) :
  forallb is_ws (input (world c)) = true ->
  handleSend (world c) = (world c, [], [])
  /\ (input_disabled (world c) = false -> exec PressEnter c = Some c)
  /\ exec ClickSend c = None
  /\ (forall c', exec PressEnter c = Some c' ->
        sessionState c' = sessionState c
        /\ messages (world c') = messages (world c)).
Proof.
  intros H. pose proof (handleSend_blank _ H) as Hs.
  assert (Hen : forall c', exec PressEnter c = Some c' -> c' = c).
  { intros c' Hc. unfold exec in Hc.
    destruct (input_disabled (world c)); [discriminate|].
    rewrite Hs, apply_effect_none in Hc. congruence. }
  repeat split.
  - exact Hs.
  - intros Hd. unfold exec. rewrite Hd, Hs, apply_effect_none. reflexivity.
  - unfold exec, send_disabled.
    rewrite (proj2 (trim_nil_iff _) H). reflexivity.
  - match goal with Hc : exec PressEnter c = Some _ |- _ =>
      rewrite (Hen _ Hc) end. reflexivity.
  - match goal with Hc : exec PressEnter c = Some _ |- _ =>
      rewrite (Hen _ Hc) end. reflexivity.
Qed.

Lemma C7_blank_text_is_rejected_witness :
  let c := start (setInput [32; 9; 160] (initial (lit "en") None)) in
  exec PressEnter c = Some c /\ exec ClickSend c = None.
Proof.
  intros c.
  destruct (C7_blank_text_is_rejected c eq_refl) as (_ & H1 & H2 & _).
  split; [apply H1; reflexivity | exact H2].
Defined.

(** ** The transcript only grows *)

Ltac appends_with l := exists l; simpl; rewrite ?app_nil_r; reflexivity.

Lemma handleSend_appends w : appends w (handleSend w).
Proof.
  unfold handleSend.
  destruct (negb _ || _); [appends_with (@nil Message)|].
  eexists. simpl. reflexivity.
Qed.

Lemma handleVoiceInput_appends w : appends w (handleVoiceInput w).
Proof.
  unfold handleVoiceInput, stopRecording, startRecording.
  destruct (isListening w); [|appends_with (@nil Message)].
  destruct (mediaRecorderRef w) as [rid|]; [|appends_with (@nil Message)].
  destruct (recorders w !! rid) as [r|]; [|appends_with (@nil Message)].
  destruct (rec_state r); appends_with (@nil Message).
Qed.

Lemma resume_appends k o w e : resume k o w = Some e -> appends w e.
Proof.
  destruct k, o; simpl; intros He; inversion He; subst; clear He.
  - appends_with (@nil Message).
  - appends_with (@nil Message).
  - appends_with (@nil Message).
  - appends_with (@nil Message).
  - unfold onstop, processVoiceInput, ondataavailable.
    destruct (0 <? size data)%nat; appends_with (@nil Message).
  - unfold handleSend_resume.
    destruct (fst (settle _ r)); eexists; simpl; reflexivity.
  - unfold transcribe_resume, voice_catch.
    destruct (fst (settle _ r)) as [tr|].
    + destruct (tr_success tr && truthy (tr_text tr)).
      * eexists; simpl; reflexivity.
      * appends_with (@nil Message).
    + eexists; simpl; reflexivity.
  - unfold voice_catch. eexists; simpl; reflexivity.
  - unfold voiceChat_resume, voice_catch.
    destruct (fst (settle _ r)); eexists; simpl; reflexivity.
Qed.

Lemma exec_appends a c c' :
  exec a c = Some c' ->
  exists added, messages (world c') = messages (world c) ++ added.
Proof.
  destruct a; simpl; intros H.
  - destruct (input_disabled _); inversion H; subst. appends_with (@nil Message).
  - destruct (input_disabled _); inversion H; subst.
    destruct (handleSend_appends (world c)) as [l Hl].
    destruct (handleSend (world c)) as [[w ks] evs]. exists l. exact Hl.
  - destruct (send_disabled _); inversion H; subst.
    destruct (handleSend_appends (world c)) as [l Hl].
    destruct (handleSend (world c)) as [[w ks] evs]. exists l. exact Hl.
  - destruct (mic_disabled _); inversion H; subst.
    destruct (handleVoiceInput_appends (world c)) as [l Hl].
    destruct (handleVoiceInput (world c)) as [[w ks] evs]. exists l. exact Hl.
  - destruct (pending c !! i) as [k|]; [|discriminate].
    destruct (resume k o (world c)) as [e|] eqn:He; inversion H; subst.
    destruct (resume_appends _ _ _ _ He) as [l Hl].
    destruct e as [[w ks] evs]. exists l. exact Hl.
  - inversion H; subst. appends_with (@nil Message).
  - inversion H; subst. appends_with (@nil Message).
Qed.

(** C10.  A new session's transcript is exactly the assistant's greeting,
    and in every configuration the session can reach the transcript still
    starts with that greeting: it is never empty and its first message has
    role [assistant]. *)
Theorem C10_transcript_starts_with_greeting (c : Config) :
  reachable c ->
  (forall language userId, messages (initial language userId) = [greeting])
  /\ Msg.role greeting = Msg.assistant
  /\ messages (world c) <> []
  /\ exists rest, messages (world c) = greeting :: rest.
Proof.
  intros Hr.
  split; [reflexivity|]. split; [reflexivity|].
  assert (H : exists rest, messages (world c) = greeting :: rest).
  { induction Hr as [l u|c c' Hr IH [a Ha]].
    - exists []. reflexivity.
    - destruct IH as [rest IH].
      destruct (exec_appends _ _ _ Ha) as [added Hadd].
      exists (rest ++ added). rewrite Hadd, IH. reflexivity. }
  split; [|exact H].
  destruct H as [rest ->]. discriminate.
Qed.

Lemma C10_transcript_starts_with_greeting_witness :
  exists c, run [Typing (lit "soil?"); PressEnter] (start (initial (lit "hi") None)) = Some c
    /\ reachable c
    /\ exists rest, messages (world c) = greeting :: rest.
Proof.
  eexists. split; [reflexivity|].
  assert (Hr : reachable
    (apply_effect
       (mkConfig (setInput (lit "soil?") (initial (lit "hi") None)) [] [])
       [] (handleSend (setInput (lit "soil?") (initial (lit "hi") None))))).
  { eapply reachable_step; [eapply reachable_step; [apply reachable_start|]|].
    - exists (Typing (lit "soil?")). reflexivity.
    - exists PressEnter. reflexivity. }
  split; [exact Hr|].
  exact (proj2 (proj2 (proj2 (C10_transcript_starts_with_greeting _ Hr)))).
Defined.

(** ** The transcription client *)

(** C5, as stated, fails on the empty buffer: [transcribeAudio] does not
    settle before the network call, it posts the empty blob. *)
Lemma C5_empty_buffer_is_posted :
  issued (transcribeAudio [] None)
    = [PostForm "/voice/transcribe" [("audio", FormFile [] "recording.webm")]]
  /\ (exists req k, transcribeAudio [] None = Fetch req k)
  /\ fst (settle (transcribeAudio [] None)
            (OkBody (Some (mkTranscribeResult true (Some (lit "ok")) None))))
     = Normal (mkTranscribeResult true (Some (lit "ok")) None).
Proof.
  split; [reflexivity|]. split; [|reflexivity].
  eexists _, _. reflexivity.
Qed.

(** C5, amended.  [transcribeAudio] does not look at the buffer: for every
    buffer, empty or of any size, it makes the network call with that
    buffer as the [audio] part of the form; it never settles before the
    call, and whether it fails depends on the answer of the network only. *)
Theorem C5_transcribe_posts_every_buffer (audioBlob : Blob) (farmerId : option JsString) :
  (exists form k,
      transcribeAudio audioBlob farmerId = Fetch (PostForm "/voice/transcribe" form) k
      /\ form !! 0%nat = Some ("audio", FormFile audioBlob "recording.webm"))
  /\ (forall c, transcribeAudio audioBlob farmerId <> Settled c)
  /\ length (issued (transcribeAudio audioBlob farmerId)) = 1%nat
  /\ (forall r, failed (settle (transcribeAudio audioBlob farmerId) r) = answer_fails r).
Proof.
  split; [eexists _, _; split; reflexivity|].
  split; [intros c; discriminate|].
  split; [reflexivity|].
  intros r. apply transcribeAudio_failed.
Qed.

(** ** One voice interaction, turn by turn *)

Lemma capture_run (w : World) (data : Blob) :
  isListening w = false -> isProcessing w = false ->
  run (capture data) (start w)
  = Some (mkConfig (captured w data)
            [K_transcribe (length (streams w)) (language w)
               (new_Blob (if (0 <? size data)%nat then [data] else [])) (userId w)]
            ([getUserMedia; recorder_start (length (recorders w));
              recorder_stop (length (recorders w))]
             ++ map fetch
                  (issued (transcribeAudio
                     (new_Blob (if (0 <? size data)%nat then [data] else []))
                     (userId w))))).
Proof.
  intros Hl Hp. destruct w as [ms inp li pr lo ref ch la uid rs ss].
  simpl in Hl, Hp. subst li pr.
  unfold capture, run, exec, mic_disabled, handleVoiceInput, startRecording,
    apply_effect, start; simpl.
  unfold stopRecording; simpl.
  rewrite (list_lookup_middle rs [] _ (length rs) eq_refl); simpl.
  rewrite (insert_app_r_alt rs _ (length rs)) by lia.
  rewrite Nat.sub_diag; simpl.
  unfold ondataavailable, onstop, processVoiceInput, captured; simpl.
  destruct (0 <? size data)%nat; reflexivity.
Qed.

(** A failing transcription, at the turn on which it settles. *)
Lemma transcribe_failure_turn (c : Config) i stream lang audioBlob farmerId r :
  pending c !! i = Some (K_transcribe stream lang audioBlob farmerId) ->
  failed (settle (transcribeAudio audioBlob farmerId) r) = true ->
  exec (Complete i (TranscribeReply r)) c
  = Some (mkConfig
            (stop_tracks stream
               (setIsProcessing false
                  (setMessages (fun prev => prev ++ [apology]) (world c))))
            (delete i (pending c))
            (log c ++ [console_error "Voice processing error:"; track_stop stream])).
Proof.
  intros Hk Hf. unfold exec. rewrite Hk. simpl.
  unfold transcribe_resume. unfold failed in Hf.
  destruct (fst (settle (transcribeAudio audioBlob farmerId) r)); [discriminate|].
  unfold voice_catch, apply_effect. simpl. rewrite app_nil_r. reflexivity.
Qed.

(** A transcription that answers without a usable text, at the turn on
    which it settles. *)
Lemma transcribe_unusable_turn (c : Config) i stream lang audioBlob farmerId result :
  pending c !! i = Some (K_transcribe stream lang audioBlob farmerId) ->
  tr_success result = false \/ truthy (tr_text result) = false ->
  exec (Complete i (TranscribeReply (OkBody (Some result)))) c
  = Some (mkConfig (stop_tracks stream (setIsProcessing false (world c)))
            (delete i (pending c))
            (log c ++ [track_stop stream])).
Proof.
  intros Hk Hu. unfold exec. rewrite Hk. simpl.
  unfold transcribe_resume. rewrite transcribeAudio_ok.
  assert (tr_success result && truthy (tr_text result) = false) as ->.
  { destruct Hu as [-> | ->]; [reflexivity | apply andb_false_r]. }
  unfold apply_effect. simpl. rewrite app_nil_r. reflexivity.
Qed.

Lemma run_app (l1 l2 : list Action) (c : Config) :
  run (l1 ++ l2) c = match run l1 c with Some c1 => run l2 c1 | None => None end.
Proof.
  revert c. induction l1 as [|a l1 IH]; intros c; simpl; [reflexivity|].
  destruct (exec a c); [apply IH | reflexivity].
Qed.

Lemma run_reachable (acts : list Action) (c c' : Config) :
  reachable c -> run acts c = Some c' -> reachable c'.
Proof.
  revert c. induction acts as [|a acts IH]; intros c Hr; simpl.
  - intros [= <-]. exact Hr.
  - destruct (exec a c) as [c1|] eqn:Ha; [|discriminate].
    apply IH. eapply reachable_step; [exact Hr|]. exists a. exact Ha.
Qed.

Lemma visited_app (l1 l2 : list Action) (c c1 : Config) :
  run l1 c = Some c1 ->
  visited (l1 ++ l2) c = visited l1 c ++ tail (visited l2 c1).
Proof.
  revert c. induction l1 as [|a l1 IH]; intros c; simpl.
  - intros [= ->]. destruct l2; reflexivity.
  - destruct (exec a c) as [c'|]; [|discriminate].
    intros H. rewrite (IH _ H). reflexivity.
Qed.

(** The session states a capture goes through when nothing else is going
    on. *)
Lemma capture_states (w : World) (data : Blob) :
  idle (start w) ->
  map sessionState (visited (capture data) (start w))
  = [Idle; Idle; Recording; Recording; Transcribing].
Proof.
  intros (Hl & Hp & Hlo & _). destruct w as [ms inp li pr lo ref ch la uid rs ss].
  simpl in Hl, Hp, Hlo. subst li pr lo.
  unfold capture, visited, exec, mic_disabled, handleVoiceInput, startRecording,
    apply_effect, start; simpl.
  unfold stopRecording; simpl.
  rewrite (list_lookup_middle rs [] _ (length rs) eq_refl); simpl.
  unfold sessionState, ondataavailable; simpl.
  destruct (0 <? size data)%nat; reflexivity.
Qed.

(** The reply to a transcribed utterance, at the turn on which it settles:
    one assistant message is appended, the reply or the apology, and the
    microphone stream is released. *)
Lemma voiceChat_turn (c : Config) i stream text lang farmerId r random :
  pending c !! i = Some (K_voiceChat stream text lang farmerId) ->
  exists m evs,
    exec (Complete i (ChatReply r random)) c
    = Some (mkConfig
              (stop_tracks stream
                 (setIsProcessing false
                    (setMessages (fun prev => prev ++ [m]) (world c))))
              (delete i (pending c))
              (log c ++ evs ++ [track_stop stream]))
    /\ Msg.role m = Msg.assistant
    /\ (answer_fails r = true -> m = apology)
    /\ (forall result, r = OkBody (Some result) ->
          m = Msg.mk Msg.assistant (cr_response result) false (cr_language result))
    /\ (forall req, fetch req ∉ evs).
Proof.
  intros Hk. unfold exec. rewrite Hk. simpl. unfold voiceChat_resume.
  destruct r as [reason|body|[result|]]; simpl.
  - exists apology.
    exists [console_error "API Error (/voice/chat):";
            console_error "Voice processing error:"].
    unfold apply_effect, voice_catch. simpl.
    rewrite app_nil_r. split; [reflexivity|].
    repeat split; try discriminate.
    intros req Hin. repeat (apply elem_of_cons in Hin as [Hin|Hin]; [discriminate|]).
    inversion Hin.
  - exists apology.
    exists [console_error "API Error (/voice/chat):";
            console_error "Voice processing error:"].
    unfold apply_effect, voice_catch. simpl.
    rewrite app_nil_r. split; [reflexivity|].
    repeat split; try discriminate.
    intros req Hin. repeat (apply elem_of_cons in Hin as [Hin|Hin]; [discriminate|]).
    inversion Hin.
  - eexists. exists []. unfold apply_effect. simpl.
    rewrite app_nil_r. split; [reflexivity|].
    repeat split; try discriminate.
    + intros result' [= <-]. reflexivity.
    + intros req Hin. inversion Hin.
  - exists apology.
    exists [console_error "API Error (/voice/chat):";
            console_error "Voice processing error:"].
    unfold apply_effect, voice_catch. simpl.
    rewrite app_nil_r. split; [reflexivity|].
    repeat split; try discriminate.
    intros req Hin. repeat (apply elem_of_cons in Hin as [Hin|Hin]; [discriminate|]).
    inversion Hin.
Qed.

(** C1.  A voice interaction in an otherwise idle session whose
    transcription call fails (no HTTP response, a non-2xx reply, or a body
    that is not JSON): every turn of it runs, the transcript gains exactly
    the apology, no reply is requested, the session goes
    Idle, Recording, Transcribing and back to Idle without passing through
    AwaitingReply or Failed, nothing is left in flight and the microphone
    stream is released. *)
Theorem C1_failed_transcription_apologises
    (w : World) (data : Blob) (r : Fetched TranscribeResult) :
  idle (start w) ->
  answer_fails r = true ->
  exists c',
    run (capture data ++ [Complete 0 (TranscribeReply r)]) (start w) = Some c'
    /\ messages (world c') = messages w ++ [apology]
    /\ idle c'
    /\ sessionState c' = Idle
    /\ map sessionState
         (visited (capture data ++ [Complete 0 (TranscribeReply r)]) (start w))
       = [Idle; Idle; Recording; Recording; Transcribing; Idle]
    /\ (forall msg lang farmerId,
          fetch (PostJson "/voice/chat" msg lang farmerId) ∉ log c')
    /\ streams (world c') = streams w ++ [false].
Proof.
  intros Hidle Hf.
  pose proof Hidle as (Hl & Hp & Hlo & _). simpl in Hl, Hp, Hlo.
  pose proof (capture_run w data Hl Hp) as Hrun.
  set (blob := new_Blob (if (0 <? size data)%nat then [data] else [])) in *.
  set (c1 := mkConfig (captured w data) _ _) in Hrun.
  assert (Hturn := transcribe_failure_turn c1 0 (length (streams w)) (language w)
                     blob (userId w) r eq_refl).
  rewrite transcribeAudio_failed in Hturn. specialize (Hturn Hf).
  eexists. split; [rewrite run_app, Hrun; cbn [run]; rewrite Hturn; reflexivity|].
  split; [reflexivity|].
  split; [repeat split; simpl; assumption|].
  split; [unfold sessionState; simpl; rewrite Hlo; reflexivity|].
  split.
  { rewrite (visited_app _ _ _ _ Hrun), map_app, (capture_states _ _ Hidle).
    cbn [visited]. rewrite Hturn. simpl.
    unfold sessionState; simpl. rewrite Hlo. reflexivity. }
  split.
  { intros msg lang farmerId Hin. simpl in Hin.
    repeat (apply elem_of_cons in Hin as [Hin|Hin]; [discriminate|]).
    inversion Hin. }
  simpl. rewrite (insert_app_r_alt (streams w) _ (length (streams w))) by lia.
  rewrite Nat.sub_diag. reflexivity.
Qed.

Lemma C1_failed_transcription_apologises_witness :
  exists c',
    run (capture [Byte.x52; Byte.x49] ++ [Complete 0 (TranscribeReply (NotOk None))])
      (start (initial (lit "hi") None)) = Some c'
    /\ messages (world c') = [greeting; apology]
    /\ idle c'.
Proof.
  destruct (C1_failed_transcription_apologises (initial (lit "hi") None)
              [Byte.x52; Byte.x49] (NotOk None)) as (c' & H1 & H2 & H3 & _).
  - repeat split.
  - reflexivity.
  - exists c'. split; [exact H1|]. split; [exact H2 | exact H3].
Defined.

(** End-to-end: a recorded utterance is transcribed and answered.  The
    transcript gains the voice-flagged user message, then the assistant's. *)
Example voice_interaction_answered :
  exists c',
    run (capture [Byte.x52; Byte.x49]
         ++ [Complete 0 (TranscribeReply
               (OkBody (Some (mkTranscribeResult true
                                (Some (lit "Mujhe paani ki salah chahiye"))
                                (Some (lit "hi"))))));
             Complete 0 (ChatReply
               (OkBody (Some (mkChatResult (Some (lit "Subah sinchai karein"))
                                (Some (lit "hi"))))) 0)])
      (start (initial (lit "en") None)) = Some c'
    /\ messages (world c')
       = [greeting;
          Msg.mk Msg.user (Some (lit "Mujhe paani ki salah chahiye")) true
            (Some (lit "hi"));
          Msg.mk Msg.assistant (Some (lit "Subah sinchai karein")) false
            (Some (lit "hi"))]
    /\ sessionState c' = Idle
    /\ micHeld (world c') = false.
Proof. eexists. split; [vm_compute; reflexivity|]. repeat split. Qed.

(** C9.  When the transcription call returns normally but with
    [success = false] or without a text ([undefined] or the empty string),
    the turn appends no message, logs no error, shows no alert and sends no
    request: it lowers [isProcessing], releases the microphone stream and
    leaves everything else as it was. *)
Theorem C9_unusable_transcription_is_silent
    (c : Config) i stream lang audioBlob farmerId result :
  pending c !! i = Some (K_transcribe stream lang audioBlob farmerId) ->
  tr_success result = false \/ truthy (tr_text result) = false ->
  exists c',
    exec (Complete i (TranscribeReply (OkBody (Some result)))) c = Some c'
    /\ messages (world c') = messages (world c)
    /\ log c' = log c ++ [track_stop stream]
    /\ pending c' = delete i (pending c)
    /\ isProcessing (world c') = false
    /\ input (world c') = input (world c)
    /\ isListening (world c') = isListening (world c)
    /\ isLoading (world c') = isLoading (world c)
    /\ mediaRecorderRef (world c') = mediaRecorderRef (world c)
    /\ audioChunksRef (world c') = audioChunksRef (world c)
    /\ language (world c') = language (world c)
    /\ userId (world c') = userId (world c)
    /\ recorders (world c') = recorders (world c).
Proof.
  intros Hk Hu. eexists.
  split; [exact (transcribe_unusable_turn c i _ _ _ _ result Hk Hu)|].
  repeat split.
Qed.

Lemma C9_unusable_transcription_is_silent_witness :
  exists c c',
    run (capture [Byte.x01]) (start (initial (lit "en") None)) = Some c
    /\ exec (Complete 0 (TranscribeReply
               (OkBody (Some (mkTranscribeResult true (Some []) (Some (lit "en"))))))) c
       = Some c'
    /\ messages (world c') = [greeting]
    /\ log c' = log c ++ [track_stop 0]
    /\ pending c' = [].
Proof.
  eexists. 
  destruct (C9_unusable_transcription_is_silent
              (mkConfig (captured (initial (lit "en") None) [Byte.x01])
                 [K_transcribe 0 (lit "en") [Byte.x01] None]
                 [getUserMedia; recorder_start 0; recorder_stop 0;
                  fetch (PostForm "/voice/transcribe"
                           [("audio", FormFile [Byte.x01] "recording.webm")])])
              0 0 (lit "en") [Byte.x01] None
              (mkTranscribeResult true (Some []) (Some (lit "en"))))
    as (c' & H1 & H2 & H3 & H4 & _).
  - reflexivity.
  - right. reflexivity.
  - exists c'. split; [reflexivity|]. split; [exact H1|].
    split; [exact H2|]. split; [exact H3 | exact H4].
Defined.

(** C2, as stated, fails: a recording stopped with no audio at all still
    reaches the transcription service, with an empty blob, and the session
    is left waiting for it. *)
Lemma C2_zero_bytes_are_transcribed :
  exists c,
    run (capture []) (start (initial (lit "en") None)) = Some c
    /\ log c = [getUserMedia; recorder_start 0; recorder_stop 0;
                fetch (PostForm "/voice/transcribe"
                         [("audio", FormFile [] "recording.webm")])]
    /\ pending c = [K_transcribe 0 (lit "en") [] None]
    /\ isProcessing (world c) = true
    /\ sessionState c = Transcribing.
Proof. eexists. repeat split. Qed.

(** C2, amended.  A recording stopped with no audio at all is handled like
    any other: the transcription service is called, once, with the empty
    blob, and the session is Transcribing.  It is back to Idle when that
    call has settled, or, if a text came back for the empty blob, when the
    reply call that follows has settled. *)
Theorem C2_zero_bytes_run_to_idle (w : World) :
  idle (start w) ->
  exists c1,
    run (capture []) (start w) = Some c1
    /\ log c1 = [getUserMedia; recorder_start (length (recorders w));
                 recorder_stop (length (recorders w))]
                ++ map fetch (issued (transcribeAudio [] (userId w)))
    /\ length (issued (transcribeAudio [] (userId w))) = 1%nat
    /\ pending c1 = [K_transcribe (length (streams w)) (language w) [] (userId w)]
    /\ sessionState c1 = Transcribing
    /\ forall r, exists c2,
         exec (Complete 0 (TranscribeReply r)) c1 = Some c2
         /\ (idle c2
             \/ exists k, pending c2 = [k] /\ awaits_reply k = true
                  /\ forall r' random, exists c3,
                       exec (Complete 0 (ChatReply r' random)) c2 = Some c3
                       /\ idle c3).
Proof.
  intros Hidle. pose proof Hidle as (Hl & Hp & Hlo & _). simpl in Hl, Hp, Hlo.
  set (c1 := mkConfig (captured w [])
               [K_transcribe (length (streams w)) (language w) [] (userId w)]
               ([getUserMedia; recorder_start (length (recorders w));
                 recorder_stop (length (recorders w))]
                ++ map fetch (issued (transcribeAudio [] (userId w))))).
  assert (Hrun : run (capture []) (start w) = Some c1)
    by exact (capture_run w [] Hl Hp).
  exists c1. split; [exact Hrun|].
  split; [reflexivity|]. split; [reflexivity|]. split; [reflexivity|].
  split; [unfold sessionState; simpl; rewrite Hlo; reflexivity|].
  intros r.
  destruct (answer_fails r) eqn:Hf.
  - pose proof (transcribe_failure_turn c1 0 _ _ _ _ r eq_refl) as Ht.
    rewrite transcribeAudio_failed in Ht. specialize (Ht Hf).
    eexists. split; [exact Ht|].
    left. repeat split; simpl; assumption.
  - destruct r as [?|?|[result|]]; try discriminate.
    destruct (tr_success result && truthy (tr_text result)) eqn:Hu.
    + eexists. split.
      * unfold exec. simpl. unfold transcribe_resume.
        rewrite transcribeAudio_ok, Hu. unfold apply_effect. simpl. reflexivity.
      * right. eexists. split; [reflexivity|]. split; [reflexivity|].
        intros r' random.
        match goal with |- exists c3, exec _ ?c2 = _ /\ _ =>
          destruct (voiceChat_turn c2 0 _ _ _ _ r' random eq_refl)
            as (m & evs & Hex & _)
        end.
        eexists. split; [exact Hex|].
        repeat split; simpl; assumption.
    + apply andb_false_iff in Hu.
      pose proof (transcribe_unusable_turn c1 0 _ _ _ _ result eq_refl Hu) as Ht.
      eexists. split; [exact Ht|].
      left. repeat split; simpl; assumption.
Qed.

Lemma C2_zero_bytes_run_to_idle_witness :
  exists c1,
    run (capture []) (start (initial (lit "en") (Some (lit "u1")))) = Some c1
    /\ pending c1 = [K_transcribe 0 (lit "en") [] (Some (lit "u1"))].
Proof.
  destruct (C2_zero_bytes_run_to_idle (initial (lit "en") (Some (lit "u1"))))
    as (c1 & H1 & _ & _ & H2 & _).
  - repeat split.
  - exists c1. split; [exact H1 | exact H2].
Defined.

(** ** Replies *)

(** *** The index [Math.floor(Math.random() * length)] *)

Local Open Scope Z_scope.

Lemma round_half_even_nonneg (p s : Z) :
  0 <= p -> 0 <= s -> 0 <= round_half_even p s.
Proof.
  intros Hp Hs. unfold round_half_even.
  assert (HB : 0 < 2 ^ s) by (apply Z.pow_pos_nonneg; lia).
  assert (Hq : 0 <= p / 2 ^ s) by (apply Z.div_pos; lia).
  destruct (2 * (p mod 2 ^ s) ?= 2 ^ s); [destruct (Z.even _)| |]; lia.
Qed.

(** Rounding to nearest stays below a multiple of the spacing that the
    number misses by more than half the spacing. *)
Lemma round_half_even_below (p s K D : Z) :
  0 <= s -> p <= K * 2 ^ s - D -> 2 ^ s < 2 * D ->
  round_half_even p s <= K - 1.
Proof.
  intros Hs Hp HD. unfold round_half_even.
  assert (HB : 0 < 2 ^ s) by (apply Z.pow_pos_nonneg; lia).
  pose proof (Z.div_mod p (2 ^ s) ltac:(lia)) as Hdm.
  pose proof (Z.mod_pos_bound p (2 ^ s) HB) as Hr.
  set (B := 2 ^ s) in *. set (q := p / B) in *. set (r := p mod B) in *.
  assert (Hq : q <= K - 1) by nia.
  destruct (Z.compare_spec (2 * r) B) as [He|Hl|Hg].
  - assert (q <> K - 1) by nia. destruct (Z.even q); lia.
  - exact Hq.
  - assert (q <> K - 1) by nia. lia.
Qed.

Lemma round_half_even_exact (p : Z) : round_half_even p 0 = p.
Proof.
  unfold round_half_even. rewrite Z.pow_0_r, Z.div_1_r, Z.mod_1_r. reflexivity.
Qed.

Lemma units_nonneg (x : Q) : (0 <= x)%Q -> 0 <= units x.
Proof.
  intros Hx. unfold units.
  change 0 with (Qfloor 0). apply Qfloor_resp_le.
  apply Qmult_le_0_compat; [exact Hx|].
  unfold Qle. simpl. pose proof (Z.pow_pos_nonneg 2 1074). lia.
Qed.

Lemma binary64_spec (x : Q) :
  binary64 x = true ->
  (0 <= x)%Q
  /\ (inject_Z (units x) / inject_Z (2 ^ 1074) == x)%Q
  /\ round53 (units x) = units x.
Proof.
  unfold binary64. intros H.
  apply andb_true_iff in H as [H H3]. apply andb_true_iff in H as [H1 H2].
  apply Qle_bool_iff in H1. apply Qeq_bool_iff in H2. apply Z.eqb_eq in H3.
  auto.
Qed.

Lemma units_below (x : Q) :
  (inject_Z (units x) / inject_Z (2 ^ 1074) == x)%Q -> (x < 1)%Q ->
  units x < 2 ^ 1074.
Proof.
  intros He Hx. rewrite <- He in Hx.
  assert (HT : 0 < 2 ^ 1074) by (apply Z.pow_pos_nonneg; lia).
  set (T := 2 ^ 1074) in *.
  assert (HTq : (0 < inject_Z T)%Q)
    by (change 0%Q with (inject_Z 0); rewrite <- Zlt_Qlt; exact HT).
  apply (Qmult_lt_l _ _ (inject_Z T) HTq) in Hx.
  rewrite Qmult_div_r, Qmult_1_r in Hx by (intros E; rewrite E in HTq; discriminate).
  rewrite <- Zlt_Qlt in Hx. exact Hx.
Qed.

(** The largest binary64 number below 1 is [1 - 2^-53]. *)
Lemma binary64_below_one (u : Q) :
  binary64 u = true -> (u < 1)%Q ->
  0 <= units u <= 2 ^ 1074 - 2 ^ 1021.
Proof.
  intros Hb Hu. destruct (binary64_spec u Hb) as (H0 & He & Hfix).
  pose proof (units_nonneg u H0) as Hn.
  pose proof (units_below u He Hu) as Hlt.
  split; [exact Hn|].
  assert (HX : 0 < 2 ^ 1021) by (apply Z.pow_pos_nonneg; lia).
  assert (HT : 2 ^ 1074 = 2 ^ 53 * 2 ^ 1021)
    by (rewrite <- Z.pow_add_r by lia; reflexivity).
  assert (HT' : 2 ^ 1073 = 2 ^ 52 * 2 ^ 1021)
    by (rewrite <- Z.pow_add_r by lia; reflexivity).
  destruct (Z.lt_ge_cases (units u) (2 ^ 1073)) as [Hsmall|Hbig].
  - rewrite HT. rewrite HT' in Hsmall.
    set (X := 2 ^ 1021) in *. change (2 ^ 53) with 9007199254740992.
    change (2 ^ 52) with 4503599627370496 in Hsmall. lia.
  - assert (Hlog : Z.log2 (units u) = 1073)
      by (apply Z.log2_unique; [lia|split; [exact Hbig|exact Hlt]]).
    unfold round53 in Hfix. rewrite Hlog in Hfix.
    change (Z.max (1073 - 52) 0) with 1021 in Hfix.
    rewrite HT in *. set (X := 2 ^ 1021) in *.
    set (k := round_half_even (units u) 1021) in *.
    change (2 ^ 53) with 9007199254740992 in *. nia.
Qed.

(** [Math.floor(Math.random() * n)] is an index of an array of length [n],
    although the product is rounded: the largest binary64 number below 1
    times [n] is further from [n] than half the distance between the
    binary64 numbers just below [n]. *)
Lemma floor_scaled_range (u : Q) (n : nat) :
  binary64 u = true -> (u < 1)%Q -> (0 < n)%nat -> Z.of_nat n <= 2 ^ 53 ->
  0 <= floor_scaled u n < Z.of_nat n.
Proof.
  intros Hb Hu Hn Hmax. destruct (binary64_below_one u Hb Hu) as [H0 Hle].
  unfold floor_scaled.
  assert (HT : 0 < 2 ^ 1074) by (apply Z.pow_pos_nonneg; lia).
  assert (HX : 0 < 2 ^ 1021) by (apply Z.pow_pos_nonneg; lia).
  assert (HTX : 2 ^ 1074 = 2 ^ 53 * 2 ^ 1021)
    by (rewrite <- Z.pow_add_r by lia; reflexivity).
  set (P := units u * Z.of_nat n).
  assert (HP0 : 0 <= P) by (unfold P; nia).
  assert (HPle : P <= Z.of_nat n * 2 ^ 1074 - Z.of_nat n * 2 ^ 1021)
    by (unfold P; nia).
  assert (Hround : 0 <= round53 P < Z.of_nat n * 2 ^ 1074).
  { unfold round53.
    destruct (Z.max_spec (Z.log2 P - 52) 0) as [[Hs ->]|[Hs ->]].
    - rewrite round_half_even_exact, Z.pow_0_r, Z.mul_1_r. nia.
    - assert (HPpos : 0 < P).
      { destruct (Z.eq_dec P 0) as [E|E]; [|lia].
        rewrite E in Hs. simpl in Hs. lia. }
      set (s := Z.log2 P - 52) in *.
      assert (Hs1074 : s <= 1074).
      { assert (Z.log2 P < 1127); [|lia].
        apply Z.log2_lt_pow2; [exact HPpos|].
        replace (2 ^ 1127) with (2 ^ 53 * 2 ^ 1074)
          by (rewrite <- Z.pow_add_r by lia; reflexivity).
        nia. }
      assert (HB : 0 < 2 ^ s) by (apply Z.pow_pos_nonneg; lia).
      assert (Hsplit : 2 ^ 1074 = 2 ^ (1074 - s) * 2 ^ s)
        by (rewrite <- Z.pow_add_r by lia; f_equal; lia).
      assert (Hlog : 2 ^ s * 2 ^ 52 <= P).
      { rewrite <- Z.pow_add_r by lia. replace (s + 52) with (Z.log2 P) by lia.
        apply Z.log2_spec. exact HPpos. }
      assert (Hhalf : 2 ^ s < 2 * (Z.of_nat n * 2 ^ 1021)).
      { rewrite HTX in HPle. set (X := 2 ^ 1021) in *. set (B := 2 ^ s) in *.
        change (2 ^ 52) with 4503599627370496 in Hlog.
        change (2 ^ 53) with 9007199254740992 in HPle. nia. }
      assert (Hup : round_half_even P s <= Z.of_nat n * 2 ^ (1074 - s) - 1).
      { apply (round_half_even_below P s _ (Z.of_nat n * 2 ^ 1021)); [lia| |exact Hhalf].
        rewrite <- Z.mul_assoc, <- Hsplit. exact HPle. }
      pose proof (round_half_even_nonneg P s HP0 ltac:(lia)) as Hlo.
      rewrite Hsplit. set (B := 2 ^ s) in *. set (C := 2 ^ (1074 - s)) in *.
      nia. }
  split.
  - apply Z.div_pos; lia.
  - apply Z.div_lt_upper_bound; [exact HT|]. lia.
Qed.

Local Close Scope Z_scope.

(** The number nearest to 0.6: its product with 5 is rounded up to 3, so
    the fourth fallback is chosen, not the third. *)
Example floor_scaled_rounds :
  binary64 (5404319552844595 # 9007199254740992) = true
  /\ floor_scaled (5404319552844595 # 9007199254740992) 5 = 3%Z
  /\ Qfloor ((5404319552844595 # 9007199254740992) * 5) = 2%Z.
Proof. vm_compute. repeat split. Qed.

Lemma random_fallback (random : Q) :
  binary64 random = true -> (random < 1)%Q ->
  exists t,
    index fallbackResponses (floor_scaled random (length fallbackResponses)) = Some t
    /\ t ∈ fallbackResponses.
Proof.
  intros H0 H1.
  destruct (floor_scaled_range random (length fallbackResponses) H0 H1) as [Hlo Hhi];
    [simpl; lia|simpl; lia|].
  unfold index.
  destruct (Z.ltb_spec (floor_scaled random (length fallbackResponses)) 0); [lia|].
  destruct (lookup_lt_is_Some_2 fallbackResponses
              (Z.to_nat (floor_scaled random (length fallbackResponses))))
    as [t Ht]; [lia|].
  exists t. split; [exact Ht|].
  eapply list_elem_of_lookup_2. exact Ht.
Qed.

(** A failing reply to a typed message, at the turn on which it settles. *)
Lemma handleSend_failure_turn (c : Config) i currentInput lang farmerId r random :
  pending c !! i = Some (K_handleSend currentInput lang farmerId) ->
  answer_fails r = true ->
  exec (Complete i (ChatReply r random)) c
  = Some (mkConfig
            (setIsLoading false
               (setMessages
                  (fun prev => prev ++
                     [Msg.mk Msg.assistant
                        (index fallbackResponses
                           (floor_scaled random (length fallbackResponses)))
                        false None])
                  (world c)))
            (delete i (pending c))
            (log c ++ [console_error "API Error (/voice/chat):";
                       console_error "Chat error:"])).
Proof.
  intros Hk Hf. unfold exec. rewrite Hk. simpl. unfold handleSend_resume.
  destruct r as [?|?|[?|]]; try discriminate; simpl;
    unfold apply_effect; simpl; rewrite app_nil_r; reflexivity.
Qed.

(** An answered typed message, at the turn on which the reply arrives,
    whatever else is in flight: the assistant's message goes to the end of
    the transcript as it is then. *)
Lemma handleSend_success_turn (c : Config) i currentInput lang farmerId result random :
  pending c !! i = Some (K_handleSend currentInput lang farmerId) ->
  exec (Complete i (ChatReply (OkBody (Some result)) random)) c
  = Some (mkConfig
            (setIsLoading false
               (setMessages
                  (fun prev => prev ++
                     [Msg.mk Msg.assistant (cr_response result) false
                        (cr_language result)])
                  (world c)))
            (delete i (pending c))
            (log c)).
Proof.
  intros Hk. unfold exec. rewrite Hk. simpl.
  unfold apply_effect. simpl. rewrite !app_nil_r. reflexivity.
Qed.

(** C4.  When the reply call fails (no HTTP response, a non-2xx reply, or
    a body that is not JSON), the turn on which it settles appends exactly
    one message, of role [assistant]: for a typed message, one of the five
    [fallbackResponses], at the index [Math.floor(Math.random() * 5)]
    computed in binary64 from the number [Math.random()] returns, a
    binary64 number that is not negative and below 1; for a transcribed
    utterance, the fixed apology.  The continuation is gone after the turn
    and the flag of the path is lowered. *)
Theorem C4_failed_reply_gets_fallback (c : Config) i k r random :
  pending c !! i = Some k ->
  awaits_reply k = true ->
  answer_fails r = true ->
  binary64 random = true -> (random < 1)%Q ->
  exists c' m,
    exec (Complete i (ChatReply r random)) c = Some c'
    /\ messages (world c') = messages (world c) ++ [m]
    /\ Msg.role m = Msg.assistant
    /\ pending c' = delete i (pending c)
    /\ (forall currentInput lang farmerId,
          k = K_handleSend currentInput lang farmerId ->
          (exists t, Msg.content m = Some t /\ t ∈ fallbackResponses)
          /\ isLoading (world c') = false)
    /\ (forall stream text lang farmerId,
          k = K_voiceChat stream text lang farmerId ->
          m = apology /\ isProcessing (world c') = false)
    /\ length fallbackResponses = 5%nat.
Proof.
  intros Hk Hw Hf H0 H1.
  destruct k as [|?|currentInput lang farmerId|?|stream text lang farmerId];
    try discriminate.
  - eexists _, _.
    split; [exact (handleSend_failure_turn c i _ _ _ r random Hk Hf)|].
    repeat split; try discriminate.
    destruct (random_fallback random H0 H1) as (t & Ht & Hin).
    exists t. split; [exact Ht | exact Hin].
  - destruct (voiceChat_turn c i _ _ _ _ r random Hk)
      as (m & evs & Hex & Hrole & Hap & _).
    eexists. exists m. split; [exact Hex|].
    repeat split; try discriminate; try exact Hrole.
    intros; apply Hap; exact Hf.
Qed.

Lemma C4_failed_reply_gets_fallback_witness :
  exists c c' m,
    run [Typing (lit "What crop should I plant?"); PressEnter]
      (start (initial (lit "en") None)) = Some c
    /\ exec (Complete 0 (ChatReply (Rejected (lit "Failed to fetch"))
                          (5404319552844595 # 9007199254740992))) c
       = Some c'
    /\ messages (world c')
       = [greeting;
          Msg.mk Msg.user (Some (lit "What crop should I plant?")) false None;
          m]
    /\ Msg.role m = Msg.assistant.
Proof.
  eexists.
  destruct (C4_failed_reply_gets_fallback
              (mkConfig
                 (setIsLoading true
                    (setInput []
                       (setMessages
                          (fun prev => prev ++
                             [Msg.mk Msg.user (Some (lit "What crop should I plant?"))
                                false None])
                          (initial (lit "en") None))))
                 [K_handleSend (lit "What crop should I plant?") (lit "en") None]
                 [fetch (PostJson "/voice/chat" (lit "What crop should I plant?")
                           (lit "en") None)])
              0 _ (Rejected (lit "Failed to fetch"))
              (5404319552844595 # 9007199254740992) eq_refl eq_refl eq_refl)
    as (c' & m & H1 & H2 & H3 & _).
  - vm_compute. reflexivity.
  - reflexivity.
  - exists c', m. split; [reflexivity|]. split; [exact H1|].
    split; [exact H2 | exact H3].
Defined.

(** C6.  A text that passes the guard of [handleSend] (it is not blank),
    submitted with the Enter key or the send button in an idle session, and
    answered by the reply service: at submission the user's message, with
    the text as typed, is appended and the session awaits the reply; when
    the reply arrives the assistant's message with the returned [response]
    is appended after it; nothing else is appended, and the session is
    idle again. *)
Theorem C6_text_reply_in_order
    (w : World) (submit : Action) (result : ChatResult) (random : Q) :
  idle (start w) ->
  truthy_str (trim (input w)) = true ->
  submit = PressEnter \/ submit = ClickSend ->
  exists c1 c',
    exec submit (start w) = Some c1
    /\ messages (world c1)
       = messages w ++ [Msg.mk Msg.user (Some (input w)) false None]
    /\ sessionState c1 = AwaitingReply
    /\ exec (Complete 0 (ChatReply (OkBody (Some result)) random)) c1 = Some c'
    /\ messages (world c')
       = messages w ++ [Msg.mk Msg.user (Some (input w)) false None;
                        Msg.mk Msg.assistant (cr_response result) false
                          (cr_language result)]
    /\ idle c'
    /\ sessionState c' = Idle
    /\ run [submit; Complete 0 (ChatReply (OkBody (Some result)) random)] (start w)
       = Some c'.
Proof.
  intros (Hl & Hp & Hlo & _) Ht Hs. simpl in Hl, Hp, Hlo.
  assert (Hex : exec submit (start w)
                = Some (apply_effect (start w) [] (handleSend w))).
  { destruct Hs as [-> | ->]; unfold exec, input_disabled, send_disabled; simpl;
      rewrite ?Ht, Hl, Hp, ?Hlo; reflexivity. }
  rewrite (handleSend_accepts w Ht Hlo) in Hex.
  unfold apply_effect in Hex. cbn [app log start] in Hex.
  match type of Hex with _ = Some ?c => set (c1 := c) in * end.
  pose proof (handleSend_success_turn c1 0 _ _ _ result random eq_refl) as Hex2.
  eexists c1, _. split; [exact Hex|].
  split; [reflexivity|].
  split; [unfold sessionState; simpl; rewrite Hl; reflexivity|].
  split; [exact Hex2|].
  split; [simpl; rewrite <- app_assoc; reflexivity|].
  split; [repeat split; simpl; assumption|].
  split; [unfold sessionState; simpl; rewrite Hl, Hp; reflexivity|].
  cbn [run]. rewrite Hex, Hex2. reflexivity.
Qed.

Lemma C6_text_reply_in_order_witness :
  exists c',
    run [PressEnter;
         Complete 0 (ChatReply
           (OkBody (Some (mkChatResult (Some (lit "Try wheat this season"))
                            (Some (lit "en"))))) 0)]
      (start (setInput (lit "What crop should I plant?") (initial (lit "en") None)))
    = Some c'
    /\ messages (world c')
       = [greeting;
          Msg.mk Msg.user (Some (lit "What crop should I plant?")) false None;
          Msg.mk Msg.assistant (Some (lit "Try wheat this season")) false
            (Some (lit "en"))]
    /\ sessionState c' = Idle.
Proof.
  destruct (C6_text_reply_in_order
              (setInput (lit "What crop should I plant?") (initial (lit "en") None))
              PressEnter
              (mkChatResult (Some (lit "Try wheat this season")) (Some (lit "en")))
              0)
    as (c1 & c' & _ & _ & _ & _ & H5 & _ & H7 & H8).
  - repeat split.
  - reflexivity.
  - left. reflexivity.
  - exists c'. split; [exact H8|]. split; [exact H5 | exact H7].
Defined.

(** ** The microphone button *)

(** C8, as stated, fails.  Pressing the microphone button while a
    recording is active is not rejected: it stops the recorder, whose last
    chunk then goes to the chunk list and on to the transcription service.
    And a start requested before the session was listening goes ahead when
    the microphone is granted although a recording is active by then: a
    second recorder is started on a second stream and the ref moves to it,
    so that the first recorder can no longer be stopped.  In the longer run
    the chunk list the active recording shares holds audio, and is replaced
    by an empty one. *)
Lemma C8_second_recording_is_started :
  (exists c c' c'',
      run [ClickMic; Complete 0 MediaGranted] (start (initial (lit "en") None)) = Some c
      /\ recorders (world c) = [mkRecorder 0 recording (lit "en")]
      /\ exec ClickMic c = Some c'
      /\ recorders (world c') = [mkRecorder 0 inactive (lit "en")]
      /\ log c' = log c ++ [recorder_stop 0]
      /\ exec (Complete 0 (FinalData [Byte.x07])) c' = Some c''
      /\ audioChunksRef (world c) = []
      /\ audioChunksRef (world c'') = [[Byte.x07]])
  /\ (exists c c',
        run double_click (start (initial (lit "en") None)) = Some c
        /\ isListening (world c) = true
        /\ recorders (world c) = [mkRecorder 0 recording (lit "en")]
        /\ exec (Complete 0 MediaGranted) c = Some c'
        /\ recorders (world c')
           = [mkRecorder 0 recording (lit "en"); mkRecorder 1 recording (lit "en")]
        /\ mediaRecorderRef (world c') = Some 1%nat
        /\ streams (world c') = [true; true]
        /\ log c' = log c ++ [recorder_start 1])
  /\ (exists c c',
        run impatient (start (initial (lit "en") None)) = Some c
        /\ reachable c
        /\ recorders (world c) !! 1%nat = Some (mkRecorder 1 recording (lit "en"))
        /\ isListening (world c) = true
        /\ audioChunksRef (world c) = [[Byte.x07]]
        /\ exec (Complete 0 MediaGranted) c = Some c'
        /\ audioChunksRef (world c') = []
        /\ recorders (world c') !! 1%nat = Some (mkRecorder 1 recording (lit "en"))
        /\ recorders (world c') !! 2%nat = Some (mkRecorder 2 recording (lit "en"))
        /\ log c' = log c ++ [recorder_start 2]
        /\ streams (world c') = [true; true; true]).
Proof.
  split; [|split].
  - eexists _, _, _. split; [vm_compute; reflexivity|].
    split; [reflexivity|]. split; [vm_compute; reflexivity|].
    split; [reflexivity|]. split; [reflexivity|].
    split; [vm_compute; reflexivity|].
    repeat split.
  - eexists _, _. split; [vm_compute; reflexivity|].
    split; [reflexivity|]. split; [reflexivity|].
    split; [vm_compute; reflexivity|].
    repeat split.
  - eexists _, _. split; [vm_compute; reflexivity|].
    split.
    { apply (run_reachable impatient (start (initial (lit "en") None)));
        [apply reachable_start | vm_compute; reflexivity]. }
    split; [reflexivity|]. split; [reflexivity|]. split; [reflexivity|].
    split; [vm_compute; reflexivity|].
    repeat split.
Qed.

(** C8, amended.  While the session is listening, the microphone button
    does not start a recording: [handleVoiceInput] calls [stopRecording].
    That turn asks for no microphone, creates no recorder or stream, starts
    no recorder, and leaves the transcript and the chunk list as they
    are; at most it stops the recorder the ref points to. *)
Theorem C8_mic_button_stops_while_listening (c : Config) :
  isListening (world c) = true ->
  mic_disabled (world c) = false ->
  handleVoiceInput (world c) = stopRecording (world c)
  /\ exists c' ks evs,
       exec ClickMic c = Some c'
       /\ messages (world c') = messages (world c)
       /\ audioChunksRef (world c') = audioChunksRef (world c)
       /\ mediaRecorderRef (world c') = mediaRecorderRef (world c)
       /\ streams (world c') = streams (world c)
       /\ length (recorders (world c')) = length (recorders (world c))
       /\ pending c' = pending c ++ ks
       /\ log c' = log c ++ evs
       /\ (forall lang, K_startRecording lang ∉ ks)
       /\ (getUserMedia ∉ evs)
       /\ (forall rid, recorder_start rid ∉ evs).
Proof.
  intros Hl Hm.
  assert (Hv : handleVoiceInput (world c) = stopRecording (world c))
    by (unfold handleVoiceInput; rewrite Hl; reflexivity).
  split; [exact Hv|].
  unfold exec. rewrite Hm, Hv. unfold stopRecording.
  destruct (mediaRecorderRef (world c)) as [rid|] eqn:Href.
  2:{ exists c, [], []. rewrite apply_effect_none, !app_nil_r.
      repeat split; try assumption; intros; apply not_elem_of_nil. }
  destruct (recorders (world c) !! rid) as [r|] eqn:Hr.
  2:{ exists c, [], []. rewrite apply_effect_none, !app_nil_r.
      repeat split; try assumption; intros; apply not_elem_of_nil. }
  destruct (rec_state r).
  { exists c, [], []. rewrite apply_effect_none, !app_nil_r.
    repeat split; try assumption; intros; apply not_elem_of_nil. }
  eexists _, _, _. unfold apply_effect.
  split; [reflexivity|]. simpl.
  repeat split; try assumption.
  - apply length_insert.
  - intros lang Hin. apply list_elem_of_singleton in Hin. discriminate.
  - intros Hin. apply list_elem_of_singleton in Hin. discriminate.
  - intros rid' Hin. apply list_elem_of_singleton in Hin. discriminate.
Qed.

Lemma C8_mic_button_stops_while_listening_witness :
  exists c c',
    run [ClickMic; Complete 0 MediaGranted] (start (initial (lit "en") None)) = Some c
    /\ exec ClickMic c = Some c'
    /\ audioChunksRef (world c') = audioChunksRef (world c)
    /\ streams (world c') = [true].
Proof.
  eexists.
  destruct (C8_mic_button_stops_while_listening
              (mkConfig
                 (mkWorld [greeting] [] true false false (Some 0%nat) [] (lit "en") None
                    [mkRecorder 0 recording (lit "en")] [true])
                 [] [getUserMedia; recorder_start 0]) eq_refl eq_refl)
    as (_ & c' & ks & evs & H1 & _ & H3 & _ & H5 & _).
  exists c'. split; [reflexivity|]. split; [exact H1|].
  split; [exact H3 | exact H5].
Defined.

(** ** Who holds the microphone *)

Lemma omap_lookup_delete {A B} (f : A -> option B) (l : list A) i x :
  l !! i = Some x ->
  omap f l ≡ₚ option_list (f x) ++ omap f (delete i l).
Proof.
  intros H. rewrite <- (take_drop_middle l i x H) at 1.
  rewrite delete_take_drop, !omap_app. simpl.
  destruct (f x); simpl; [|reflexivity].
  symmetry. apply Permutation_middle.
Qed.

Lemma omap_insert_delete {A B} (f : A -> option B) (l : list A) i x y :
  l !! i = Some x ->
  omap f (<[i := y]> l) ≡ₚ option_list (f y) ++ omap f (delete i l).
Proof.
  intros H. rewrite insert_take_drop by (eapply lookup_lt_Some; exact H).
  rewrite delete_take_drop, !omap_app. simpl.
  destruct (f y); simpl; [|reflexivity].
  symmetry. apply Permutation_middle.
Qed.

Lemma streams_owned_same (c c' : Config) :
  owners c' ≡ₚ owners c ->
  streams (world c') = streams (world c) ->
  streams_owned c -> streams_owned c'.
Proof.
  intros Hp Hs [Hn Hf]. unfold streams_owned. rewrite Hp, Hs. split; assumption.
Qed.

Lemma streams_owned_release (c c' : Config) s :
  owners c ≡ₚ s :: owners c' ->
  streams (world c') = <[s := false]> (streams (world c)) ->
  streams_owned c -> streams_owned c'.
Proof.
  intros Hp Hs [Hn Hf]. rewrite Hp in Hn, Hf.
  apply NoDup_cons in Hn as [Hnotin Hn].
  apply Forall_cons in Hf as [_ Hf].
  split; [exact Hn|].
  rewrite Hs. apply Forall_forall. intros s' Hin.
  rewrite list_lookup_insert_ne by (intros ->; contradiction).
  rewrite Forall_forall in Hf. apply Hf. exact Hin.
Qed.

Lemma streams_owned_acquire (c c' : Config) :
  owners c' ≡ₚ length (streams (world c)) :: owners c ->
  streams (world c') = streams (world c) ++ [true] ->
  streams_owned c -> streams_owned c'.
Proof.
  intros Hp Hs [Hn Hf]. unfold streams_owned. rewrite Hp, Hs.
  rewrite Forall_forall in Hf. split.
  - apply NoDup_cons. split; [|exact Hn].
    intros Hin. apply Hf, lookup_lt_Some in Hin. lia.
  - apply Forall_cons. split.
    + apply list_lookup_middle. reflexivity.
    + apply Forall_forall. intros s Hin.
      rewrite lookup_app_l by (eapply lookup_lt_Some; apply Hf; exact Hin).
      apply Hf. exact Hin.
Qed.

(** A stream is granted and no recorder comes to record it. *)
Lemma streams_owned_unused (c c' : Config) :
  owners c' ≡ₚ owners c ->
  streams (world c') = streams (world c) ++ [true] ->
  streams_owned c -> streams_owned c'.
Proof.
  intros Hp Hs [Hn Hf]. unfold streams_owned. rewrite Hp, Hs.
  split; [exact Hn|].
  rewrite Forall_forall in Hf. apply Forall_forall. intros s Hin.
  rewrite lookup_app_l by (eapply lookup_lt_Some; apply Hf; exact Hin).
  apply Hf. exact Hin.
Qed.

Lemma handleSend_streams_owned (c : Config) waiting :
  omap cont_stream waiting = omap cont_stream (pending c) ->
  streams_owned c -> streams_owned (apply_effect c waiting (handleSend (world c))).
Proof.
  intros Hw. apply streams_owned_same.
  - unfold owners, handleSend.
    destruct (negb _ || _); simpl; rewrite omap_app, Hw; simpl;
      rewrite app_nil_r; reflexivity.
  - unfold handleSend. destruct (negb _ || _); reflexivity.
Qed.

Lemma handleVoiceInput_streams_owned (c : Config) :
  streams_owned c ->
  streams_owned (apply_effect c (pending c) (handleVoiceInput (world c))).
Proof.
  unfold handleVoiceInput, startRecording, stopRecording.
  destruct (isListening (world c)).
  2:{ apply streams_owned_same; [|reflexivity].
      unfold owners. simpl. rewrite omap_app. simpl. rewrite app_nil_r. reflexivity. }
  assert (Hsame : streams_owned c ->
                  streams_owned (apply_effect c (pending c) (world c, [], []))).
  { rewrite apply_effect_none. tauto. }
  destruct (mediaRecorderRef (world c)) as [rid|]; [|exact Hsame].
  destruct (recorders (world c) !! rid) as [r|] eqn:Hr; [|exact Hsame].
  destruct (rec_state r) eqn:Hst; [exact Hsame|].
  apply streams_owned_same; [|reflexivity].
  unfold owners. simpl.
  rewrite (omap_insert_delete recording_stream _ rid r _ Hr).
  rewrite (omap_lookup_delete recording_stream _ rid r Hr).
  unfold recording_stream at 1 3. rewrite Hst. simpl.
  rewrite omap_app. simpl.
  rewrite (Permutation_app_comm (omap cont_stream (pending c)) [rec_stream r]).
  simpl. symmetry. apply Permutation_middle.
Qed.

Lemma resume_streams_owned (c : Config) i k o e :
  pending c !! i = Some k ->
  resume k o (world c) = Some e ->
  streams_owned c ->
  streams_owned (apply_effect c (delete i (pending c)) e).
Proof.
  intros Hk He.
  pose proof (omap_lookup_delete cont_stream _ i k Hk) as Hp.
  destruct k, o; simpl in He; inversion He; subst e; clear He; simpl in Hp.
  - (* a recording starts *)
    apply streams_owned_acquire; [|reflexivity].
    unfold owners. simpl. rewrite !omap_app, Hp. simpl. rewrite app_nil_r.
    rewrite <- app_assoc. simpl. symmetry. apply Permutation_middle.
  - (* the microphone is refused *)
    apply streams_owned_same; [|reflexivity].
    unfold owners. simpl. rewrite app_nil_r, Hp. reflexivity.
  - (* the recorder cannot be built *)
    apply streams_owned_unused; [|reflexivity].
    unfold owners. simpl. rewrite app_nil_r, Hp. reflexivity.
  - (* the recorder cannot be started *)
    apply streams_owned_unused; [|reflexivity].
    unfold owners. simpl. rewrite omap_app. simpl. rewrite !app_nil_r, Hp.
    reflexivity.
  - (* the recorder has stopped: transcription starts *)
    apply streams_owned_same.
    + unfold owners, onstop, processVoiceInput, ondataavailable.
      destruct (0 <? size data)%nat; simpl;
        rewrite omap_app, Hp; simpl;
        rewrite (Permutation_app_comm _ [stream]); reflexivity.
    + unfold onstop, processVoiceInput, ondataavailable.
      destruct (0 <? size data)%nat; reflexivity.
  - (* the reply to a typed message *)
    apply streams_owned_same.
    + unfold owners, handleSend_resume.
      destruct (fst (settle _ r)); simpl; rewrite app_nil_r, Hp; reflexivity.
    + unfold handleSend_resume. destruct (fst (settle _ r)); reflexivity.
  - (* the transcription *)
    unfold transcribe_resume, voice_catch.
    destruct (fst (settle _ r)) as [result|].
    + destruct (tr_success result && truthy (tr_text result)).
      * apply streams_owned_same; [|reflexivity].
        unfold owners. simpl. rewrite omap_app, Hp. simpl.
        rewrite (Permutation_app_comm _ [stream]). reflexivity.
      * apply (streams_owned_release _ _ stream); [|reflexivity].
        unfold owners. simpl. rewrite app_nil_r, Hp.
        symmetry. apply Permutation_middle.
    + apply (streams_owned_release _ _ stream); [|reflexivity].
      unfold owners. simpl. rewrite app_nil_r, Hp.
      symmetry. apply Permutation_middle.
  - (* the transcription comes back with [null] *)
    unfold voice_catch.
    apply (streams_owned_release _ _ stream); [|reflexivity].
    unfold owners. simpl. rewrite app_nil_r, Hp.
    symmetry. apply Permutation_middle.
  - (* the reply to an utterance *)
    unfold voiceChat_resume, voice_catch.
    destruct (fst (settle _ r)); (apply (streams_owned_release _ _ stream); [|reflexivity]);
      unfold owners; simpl; rewrite app_nil_r, Hp;
      symmetry; apply Permutation_middle.
Qed.

Lemma exec_streams_owned (a : Action) (c c' : Config) :
  exec a c = Some c' -> streams_owned c -> streams_owned c'.
Proof.
  destruct a; simpl; intros H.
  - destruct (input_disabled _); inversion H; subst. tauto.
  - destruct (input_disabled _); inversion H; subst.
    apply handleSend_streams_owned. reflexivity.
  - destruct (send_disabled _); inversion H; subst.
    apply handleSend_streams_owned. reflexivity.
  - destruct (mic_disabled _); inversion H; subst.
    apply handleVoiceInput_streams_owned.
  - destruct (pending c !! i) as [k|] eqn:Hk; [|discriminate].
    destruct (resume k o (world c)) as [e|] eqn:He; inversion H; subst.
    eapply resume_streams_owned; eassumption.
  - inversion H; subst. tauto.
  - inversion H; subst. tauto.
Qed.

Lemma reachable_streams_owned (c : Config) : reachable c -> streams_owned c.
Proof.
  induction 1 as [l u|c c' Hr IH [a Ha]].
  - split; [apply NoDup_nil_2 | apply Forall_nil_2].
  - eapply exec_streams_owned; eassumption.
Qed.

Lemma live_stream_micHeld (w : World) s :
  streams w !! s = Some true -> micHeld w = true.
Proof.
  intros H. unfold micHeld. apply existsb_exists.
  exists true. split; [|reflexivity].
  apply list_elem_of_In. eapply list_elem_of_lookup_2. exact H.
Qed.

Lemma voice_call_cont_stream k s : voice_call k = Some s -> cont_stream k = Some s.
Proof. destruct k; simpl; congruence. Qed.

(** C3, as stated, fails: in a plain voice interaction the microphone is
    still held while the transcription call is in flight, and while the
    reply call that follows it is in flight; no track has been stopped. *)
Lemma C3_microphone_held_during_calls :
  exists c1 c2,
    run (capture [Byte.x01]) (start (initial (lit "hi") None)) = Some c1
    /\ pending c1 = [K_transcribe 0 (lit "hi") [Byte.x01] None]
    /\ micHeld (world c1) = true
    /\ (track_stop 0 ∉ log c1)
    /\ exec (Complete 0 (TranscribeReply
               (OkBody (Some (mkTranscribeResult true
                                (Some (lit "Mujhe paani ki salah chahiye"))
                                (Some (lit "hi"))))))) c1 = Some c2
    /\ pending c2 = [K_voiceChat 0 (lit "Mujhe paani ki salah chahiye") (lit "hi") None]
    /\ micHeld (world c2) = true
    /\ track_stop 0 ∉ log c2.
Proof.
  eexists _, _. split; [reflexivity|].
  split; [reflexivity|]. split; [reflexivity|].
  split.
  { intros Hin. repeat (apply elem_of_cons in Hin as [Hin|Hin]; [discriminate|]).
    inversion Hin. }
  split; [reflexivity|]. split; [reflexivity|]. split; [reflexivity|].
  intros Hin. repeat (apply elem_of_cons in Hin as [Hin|Hin]; [discriminate|]).
  inversion Hin.
Qed.

(** C3, amended.  In every configuration the session can reach, the stream
    of a voice interaction is live, so the microphone is held, as long as
    its transcription call or its reply call is in flight.  When the
    transcription settles, either the reply call of the same interaction is
    sent, the stream still live, or the stream is released as the last
    thing of the turn; when the reply call settles the stream is released
    as the last thing of the turn.  The microphone is released after
    [processVoiceInput] has finished, on every path. *)
Theorem C3_microphone_released_after_processing (c : Config) :
  reachable c ->
  (forall k s,
      k ∈ pending c -> voice_call k = Some s ->
      streams (world c) !! s = Some true /\ micHeld (world c) = true)
  /\ (forall i stream lang audioBlob farmerId r,
        pending c !! i = Some (K_transcribe stream lang audioBlob farmerId) ->
        exists c',
          exec (Complete i (TranscribeReply r)) c = Some c'
          /\ ((exists k', pending c' = delete i (pending c) ++ [k']
                          /\ voice_call k' = Some stream
                          /\ streams (world c') !! stream = Some true)
              \/ released_at_end c c' i stream))
  /\ (forall i stream text lang farmerId r random,
        pending c !! i = Some (K_voiceChat stream text lang farmerId) ->
        exists c',
          exec (Complete i (ChatReply r random)) c = Some c'
          /\ released_at_end c c' i stream).
Proof.
  intros Hr. pose proof (reachable_streams_owned c Hr) as [_ Hlive].
  rewrite Forall_forall in Hlive.
  assert (Hheld : forall k s, k ∈ pending c -> voice_call k = Some s ->
                              streams (world c) !! s = Some true).
  { intros k s Hin Hv. apply Hlive. unfold owners. apply elem_of_app. right.
    apply list_elem_of_omap. exists k. split; [exact Hin|].
    apply voice_call_cont_stream. exact Hv. }
  split.
  { intros k s Hin Hv. split; [exact (Hheld k s Hin Hv)|].
    eapply live_stream_micHeld. exact (Hheld k s Hin Hv). }
  split.
  - (* the transcription settles *)
    intros i stream lang audioBlob farmerId r Hk.
    pose proof (Hheld _ stream (list_elem_of_lookup_2 _ _ _ Hk) eq_refl) as Hs.
    assert (Hlt : (stream < length (streams (world c)))%nat)
      by (eapply lookup_lt_Some; exact Hs).
    unfold exec. rewrite Hk. simpl. unfold transcribe_resume, voice_catch.
    destruct (fst (settle _ r)) as [result|].
    + destruct (tr_success result && truthy (tr_text result)).
      * eexists. split; [reflexivity|]. left.
        eexists. simpl. split; [reflexivity|]. split; [reflexivity | exact Hs].
      * eexists. split; [reflexivity|]. right. unfold released_at_end. simpl.
        rewrite app_nil_r. split; [reflexivity|].
        split; [apply list_lookup_insert_eq; exact Hlt|].
        exists []. reflexivity.
    + eexists. split; [reflexivity|]. right. unfold released_at_end. simpl.
      rewrite app_nil_r. split; [reflexivity|].
      split; [apply list_lookup_insert_eq; exact Hlt|].
      exists [console_error "Voice processing error:"]. reflexivity.
  - (* the reply settles *)
    intros i stream text lang farmerId r random Hk.
    pose proof (Hheld _ stream (list_elem_of_lookup_2 _ _ _ Hk) eq_refl) as Hs.
    assert (Hlt : (stream < length (streams (world c)))%nat)
      by (eapply lookup_lt_Some; exact Hs).
    destruct (voiceChat_turn c i _ _ _ _ r random Hk) as (m & evs & Hex & _).
    eexists. split; [exact Hex|].
    unfold released_at_end. simpl. split; [reflexivity|].
    split; [apply list_lookup_insert_eq; exact Hlt|].
    exists evs. reflexivity.
Qed.

Lemma C3_microphone_released_after_processing_witness :
  exists c c',
    run (capture [Byte.x01]) (start (initial (lit "hi") None)) = Some c
    /\ micHeld (world c) = true
    /\ exec (Complete 0 (TranscribeReply (Rejected (lit "Failed to fetch")))) c = Some c'
    /\ micHeld (world c') = false.
Proof.
  assert (Hrun : run (capture [Byte.x01]) (start (initial (lit "hi") None))
                 = Some (mkConfig (captured (initial (lit "hi") None) [Byte.x01])
                           [K_transcribe 0 (lit "hi") [Byte.x01] None]
                           [getUserMedia; recorder_start 0; recorder_stop 0;
                            fetch (PostForm "/voice/transcribe"
                                     [("audio", FormFile [Byte.x01] "recording.webm")])]))
    by reflexivity.
  destruct (C3_microphone_released_after_processing _
              (run_reachable _ _ _ (reachable_start (lit "hi") None) Hrun))
    as (H1 & H2 & _).
  destruct (H1 (K_transcribe 0 (lit "hi") [Byte.x01] None) 0%nat) as [_ Hheld];
    [apply list_elem_of_singleton; reflexivity | reflexivity |].
  destruct (H2 0%nat 0%nat (lit "hi") [Byte.x01] None (Rejected (lit "Failed to fetch"))
              eq_refl) as (c' & Hex & _).
  eexists _, c'. split; [exact Hrun|]. split; [exact Hheld|].
  split; [exact Hex|].
  simpl in Hex. injection Hex as <-. reflexivity.
Defined.

(** * Further properties of the chat component *)

(** ** The transcript over a whole session *)

Lemma run_appends (acts : list Action) (c c' : Config) :
  run acts c = Some c' ->
  exists added, messages (world c') = messages (world c) ++ added.
Proof.
  revert c. induction acts as [|a acts IH]; intros c; simpl.
  - intros [= <-]. exists []. rewrite app_nil_r. reflexivity.
  - destruct (exec a c) as [c1|] eqn:Ha; [|discriminate].
    intros Hrun. destruct (IH _ Hrun) as [l2 H2].
    destruct (exec_appends _ _ _ Ha) as [l1 H1].
    exists (l1 ++ l2). rewrite H2, H1, app_assoc. reflexivity.
Qed.

(** X1.  While the component is mounted, whatever the user and the
    network do, in whatever order, a message that is in the transcript
    stays where it is: after any run that leaves the component mounted the
    old transcript is a prefix of the new one, so no message is removed,
    replaced or moved.  The component does not stay mounted on every
    answer of the network: a 2xx reply with body [null] to a reply request
    that is in flight makes the updater given to [setMessages] throw when
    React renders, the component is unmounted and there is no transcript
    left to speak of; the run has no next configuration. *)
Theorem transcript_is_append_only (acts : list Action) (c c' : Config) :
  run acts c = Some c' ->
  messages (world c) `prefix_of` messages (world c')
  /\ (forall i m,
        messages (world c) !! i = Some m -> messages (world c') !! i = Some m)
  /\ (forall i k,
        pending c' !! i = Some k -> awaits_reply k = true ->
        unmounts k ChatReplyNull = true
        /\ exec (Complete i ChatReplyNull) c' = None
        /\ run (acts ++ [Complete i ChatReplyNull]) c = None).
Proof.
  intros Hrun. destruct (run_appends _ _ _ Hrun) as [added Hadd].
  assert (Hp : messages (world c) `prefix_of` messages (world c'))
    by (exists added; exact Hadd).
  split; [exact Hp|].
  split; [intros i m Hi; eapply prefix_lookup_Some; eassumption|].
  intros i k Hk Hreply.
  assert (Hex : exec (Complete i ChatReplyNull) c' = None)
    by (unfold exec; rewrite Hk; destruct k; try discriminate; reflexivity).
  split; [destruct k; try discriminate; reflexivity|].
  split; [exact Hex|].
  rewrite run_app, Hrun. cbn [run]. rewrite Hex. reflexivity.
Qed.

Lemma transcript_is_append_only_witness :
  exists c',
    run (capture [Byte.x01] ++ [Complete 0 (TranscribeReply (NotOk None))])
      (start (initial (lit "en") None)) = Some c'
    /\ messages (world c') !! 0%nat = Some greeting.
Proof.
  eexists. split; [vm_compute; reflexivity|].
  eapply (proj1 (proj2 (transcript_is_append_only
            (capture [Byte.x01] ++ [Complete 0 (TranscribeReply (NotOk None))])
            (start (initial (lit "en") None)) _ _)) 0%nat greeting).
  reflexivity.
  Unshelve. vm_compute. reflexivity.
Defined.

(** ** The busy flags and what is in flight *)

Lemma omap_length_delete {A B} (f : A -> option B) (l : list A) i x :
  l !! i = Some x ->
  length (omap f l) = (length (option_list (f x)) + length (omap f (delete i l)))%nat.
Proof.
  intros H. rewrite (omap_lookup_delete f l i x H), length_app. reflexivity.
Qed.

Lemma omap_snoc_length {A B} (f : A -> option B) (l : list A) x :
  length (omap f (l ++ [x])) = (length (omap f l) + length (option_list (f x)))%nat.
Proof.
  rewrite omap_app, length_app. simpl. destruct (f x); reflexivity.
Qed.

Lemma handleVoiceInput_keeps_flags (w : World) :
  exists w' ks evs,
    handleVoiceInput w = (w', ks, evs)
    /\ isLoading w' = isLoading w
    /\ isProcessing w' = isProcessing w
    /\ omap text_call ks = []
    /\ messages w' = messages w.
Proof.
  unfold handleVoiceInput, startRecording, stopRecording.
  destruct (isListening w); [|eexists _, _, _; repeat split].
  destruct (mediaRecorderRef w) as [rid|]; [|eexists _, _, _; repeat split].
  destruct (recorders w !! rid) as [r|]; [|eexists _, _, _; repeat split].
  destruct (rec_state r); eexists _, _, _; repeat split.
Qed.

Lemma resume_loading (c : Config) i k o e :
  pending c !! i = Some k ->
  resume k o (world c) = Some e ->
  loading_counts c ->
  loading_counts (apply_effect c (delete i (pending c)) e).
Proof.
  intros Hk He Hinv. unfold loading_counts in *.
  rewrite (omap_length_delete text_call _ i k Hk) in Hinv.
  destruct k, o; simpl in He; inversion He; subst e; clear He; simpl in Hinv.
  - simpl. rewrite app_nil_r. exact Hinv.
  - simpl. rewrite app_nil_r. exact Hinv.
  - simpl. rewrite app_nil_r. exact Hinv.
  - simpl. rewrite app_nil_r. exact Hinv.
  - unfold onstop, processVoiceInput, ondataavailable.
    destruct (0 <? size data)%nat; simpl;
      rewrite omap_snoc_length; simpl; rewrite Nat.add_0_r; exact Hinv.
  - unfold handleSend_resume.
    destruct (isLoading (world c)); [|discriminate].
    destruct (fst (settle _ r)); simpl; rewrite app_nil_r; lia.
  - unfold transcribe_resume, voice_catch.
    destruct (fst (settle _ r)) as [result|].
    + destruct (tr_success result && truthy (tr_text result)); simpl.
      * rewrite omap_snoc_length. simpl. rewrite Nat.add_0_r. exact Hinv.
      * rewrite app_nil_r. exact Hinv.
    + simpl. rewrite app_nil_r. exact Hinv.
  - unfold voice_catch. simpl. rewrite app_nil_r. exact Hinv.
  - unfold voiceChat_resume, voice_catch.
    destruct (fst (settle _ r)); simpl; rewrite app_nil_r; exact Hinv.
Qed.

Lemma exec_loading (a : Action) (c c' : Config) :
  exec a c = Some c' -> loading_counts c -> loading_counts c'.
Proof.
  assert (Hsend : loading_counts c ->
                  loading_counts (apply_effect c (pending c) (handleSend (world c)))).
  { unfold loading_counts, handleSend. intros Hinv.
    destruct (negb (truthy_str (trim (input (world c))))); simpl.
    - rewrite app_nil_r. exact Hinv.
    - destruct (isLoading (world c)) eqn:Hlo; simpl.
      + rewrite app_nil_r, Hlo. exact Hinv.
      + rewrite omap_snoc_length, Hinv. reflexivity. }
  destruct a; simpl; intros H.
  - destruct (input_disabled _); inversion H; subst. tauto.
  - destruct (input_disabled _); inversion H; subst. exact Hsend.
  - destruct (send_disabled _); inversion H; subst. exact Hsend.
  - destruct (mic_disabled _); inversion H; subst.
    destruct (handleVoiceInput_keeps_flags (world c))
      as (w' & ks & evs & -> & Hlo & _ & Hks & _).
    unfold loading_counts. simpl. intros Hinv.
    rewrite omap_app, Hks, app_nil_r, Hlo. exact Hinv.
  - destruct (pending c !! i) as [k|] eqn:Hk; [|discriminate].
    destruct (resume k o (world c)) as [e|] eqn:He; inversion H; subst.
    eapply resume_loading; eassumption.
  - inversion H; subst. tauto.
  - inversion H; subst. tauto.
Qed.

Lemma reachable_loading (c : Config) : reachable c -> loading_counts c.
Proof.
  induction 1 as [l u|c c' Hr IH [a Ha]]; [reflexivity|].
  eapply exec_loading; eassumption.
Qed.

(** X2.  In every configuration the session can reach, [isLoading] is
    raised exactly while one typed message awaits its reply, and there is
    never more than one: a second text cannot be sent before the first has
    been answered. *)
Theorem one_text_request_at_a_time (c : Config) :
  reachable c ->
  (length (omap text_call (pending c)) <= 1)%nat
  /\ (isLoading (world c) = true
      <-> exists currentInput lang farmerId,
            K_handleSend currentInput lang farmerId ∈ pending c).
Proof.
  intros Hr. pose proof (reachable_loading c Hr) as Hinv.
  unfold loading_counts in Hinv. split.
  - rewrite Hinv. destruct (isLoading (world c)); lia.
  - split.
    + intros Hlo. rewrite Hlo in Hinv.
      destruct (omap text_call (pending c)) as [|u l] eqn:Ho; [discriminate|].
      assert (Hin : u ∈ omap text_call (pending c)) by (rewrite Ho; left).
      apply list_elem_of_omap in Hin as (k & Hin & Hk).
      destruct k; try discriminate. eexists _, _, _. exact Hin.
    + intros (ci & l & f & Hin).
      destruct (isLoading (world c)); [reflexivity|].
      assert (Hin' : tt ∈ omap text_call (pending c)).
      { apply list_elem_of_omap. eexists. split; [exact Hin | reflexivity]. }
      destruct (omap text_call (pending c)); [inversion Hin' | discriminate].
Qed.

Lemma one_text_request_at_a_time_witness :
  exists c,
    run [Typing (lit "rain?"); PressEnter; Typing (lit "again"); PressEnter]
      (start (initial (lit "en") None)) = Some c
    /\ (length (omap text_call (pending c)) <= 1)%nat.
Proof.
  eexists. split; [vm_compute; reflexivity|].
  eapply (proj1 (one_text_request_at_a_time _ _)).
  Unshelve.
  apply (run_reachable
           [Typing (lit "rain?"); PressEnter; Typing (lit "again"); PressEnter]
           (start (initial (lit "en") None)));
    [apply reachable_start | vm_compute; reflexivity].
Defined.

Lemma elem_of_delete_other {A} (l : list A) i x y :
  l !! i = Some x -> y ∈ l -> y = x \/ y ∈ delete i l.
Proof.
  intros Hi Hy. rewrite (delete_Permutation l i x Hi) in Hy.
  apply elem_of_cons in Hy. exact Hy.
Qed.

Lemma processing_kept (c : Config) i k w' evs :
  pending c !! i = Some k ->
  voice_call k = None ->
  isProcessing w' = isProcessing (world c) ->
  processing_means_call c ->
  processing_means_call (apply_effect c (delete i (pending c)) (w', [], evs)).
Proof.
  intros Hk Hv Hp Hinv. unfold processing_means_call, apply_effect. simpl.
  rewrite Hp, app_nil_r. intros Hpr.
  destruct (Hinv Hpr) as (k' & s & Hin & Hk').
  exists k', s. split; [|exact Hk'].
  destruct (elem_of_delete_other _ _ _ _ Hk Hin) as [-> | H]; [congruence | exact H].
Qed.

Lemma resume_processing (c : Config) i k o e :
  pending c !! i = Some k ->
  resume k o (world c) = Some e ->
  processing_means_call c ->
  processing_means_call (apply_effect c (delete i (pending c)) e).
Proof.
  intros Hk He.
  destruct k, o; simpl in He; inversion He; subst e; clear He.
  - unfold startRecording_resume.
    apply (processing_kept c i _ _ _ Hk); reflexivity.
  - unfold startRecording_resume.
    apply (processing_kept c i _ _ _ Hk); reflexivity.
  - unfold startRecording_resume.
    apply (processing_kept c i _ _ _ Hk); reflexivity.
  - unfold startRecording_resume.
    apply (processing_kept c i _ _ _ Hk); reflexivity.
  - intros _ _. unfold onstop, processVoiceInput, apply_effect. simpl.
    eexists _, stream. split; [apply elem_of_app; right; left|]. reflexivity.
  - unfold handleSend_resume.
    destruct (fst (settle _ r)); apply (processing_kept c i _ _ _ Hk); reflexivity.
  - unfold transcribe_resume, voice_catch.
    destruct (fst (settle _ r)) as [result|].
    + destruct (tr_success result && truthy (tr_text result)).
      * intros _ _. unfold apply_effect. simpl.
        eexists _, stream. split; [apply elem_of_app; right; left|]. reflexivity.
      * intros _ Hpr. discriminate.
    + intros _ Hpr. discriminate.
  - unfold voice_catch. intros _ Hpr. discriminate.
  - unfold voiceChat_resume, voice_catch.
    destruct (fst (settle _ r)); intros _ Hpr; discriminate.
Qed.

Lemma exec_processing (a : Action) (c c' : Config) :
  exec a c = Some c' -> processing_means_call c -> processing_means_call c'.
Proof.
  assert (Hgrow : forall w' ks evs,
            isProcessing w' = isProcessing (world c) ->
            processing_means_call c ->
            processing_means_call (apply_effect c (pending c) (w', ks, evs))).
  { intros w' ks evs Hp Hinv. unfold processing_means_call, apply_effect. simpl.
    rewrite Hp. intros Hpr. destruct (Hinv Hpr) as (k & s & Hin & Hk).
    exists k, s. split; [apply elem_of_app; left; exact Hin | exact Hk]. }
  assert (Hsend : processing_means_call c ->
                  processing_means_call
                    (apply_effect c (pending c) (handleSend (world c)))).
  { unfold handleSend. destruct (negb _ || _); apply Hgrow; reflexivity. }
  destruct a; simpl; intros H.
  - destruct (input_disabled _); inversion H; subst. tauto.
  - destruct (input_disabled _); inversion H; subst. exact Hsend.
  - destruct (send_disabled _); inversion H; subst. exact Hsend.
  - destruct (mic_disabled _); inversion H; subst.
    destruct (handleVoiceInput_keeps_flags (world c))
      as (w' & ks & evs & -> & _ & Hp & _).
    apply Hgrow. exact Hp.
  - destruct (pending c !! i) as [k|] eqn:Hk; [|discriminate].
    destruct (resume k o (world c)) as [e|] eqn:He; inversion H; subst.
    eapply resume_processing; eassumption.
  - inversion H; subst. tauto.
  - inversion H; subst. tauto.
Qed.

Lemma reachable_processing (c : Config) : reachable c -> processing_means_call c.
Proof.
  induction 1 as [l u|c c' Hr IH [a Ha]]; [intros H; discriminate|].
  eapply exec_processing; eassumption.
Qed.

(** X3.  The busy indicators cannot stay on by themselves: in every
    configuration the session can reach, [isProcessing] is raised only
    while a transcription or a reply of a voice interaction is in flight,
    and when nothing at all is in flight both [isProcessing] and
    [isLoading] are down, so the controls they disable are enabled again. *)
Theorem busy_flags_need_a_call (c : Config) :
  reachable c ->
  (isProcessing (world c) = true ->
   exists k s, k ∈ pending c /\ voice_call k = Some s)
  /\ (pending c = [] ->
      isProcessing (world c) = false /\ isLoading (world c) = false
      /\ mic_disabled (world c) = false).
Proof.
  intros Hr. pose proof (reachable_processing c Hr) as Hp.
  pose proof (reachable_loading c Hr) as Hl.
  split; [exact Hp|].
  intros Hnil. unfold loading_counts in Hl. rewrite Hnil in Hl.
  assert (Hpr : isProcessing (world c) = false).
  { destruct (isProcessing (world c)) eqn:Hpr; [|reflexivity].
    destruct (Hp Hpr) as (k & s & Hin & _). rewrite Hnil in Hin. inversion Hin. }
  split; [exact Hpr|]. split.
  - destruct (isLoading (world c)); [discriminate | reflexivity].
  - exact Hpr.
Qed.

Lemma busy_flags_need_a_call_witness :
  exists c,
    run (voice_interaction [Byte.x01]
           (mkTranscribeResult true (Some (lit "hello")) None) (NotOk None) 0)
      (start (initial (lit "en") None)) = Some c
    /\ pending c = []
    /\ isProcessing (world c) = false.
Proof.
  eexists. split; [vm_compute; reflexivity|].
  match goal with
  | |- pending ?c = [] /\ _ =>
      assert (Hr : reachable c)
        by (apply (run_reachable
                     (voice_interaction [Byte.x01]
                        (mkTranscribeResult true (Some (lit "hello")) None)
                        (NotOk None) 0)
                     (start (initial (lit "en") None)));
            [apply reachable_start | vm_compute; reflexivity]);
      pose proof (proj2 (busy_flags_need_a_call c Hr) eq_refl) as Hflags
  end.
  split; [reflexivity | exact (proj1 Hflags)].
Defined.

(** ** Listening *)

Lemma listening_kept (c : Config) waiting w' ks evs :
  isListening w' = isListening (world c) ->
  mediaRecorderRef w' = mediaRecorderRef (world c) ->
  recorders w' = recorders (world c) ->
  listening_means_recording c ->
  listening_means_recording (apply_effect c waiting (w', ks, evs)).
Proof.
  intros Hl Href Hrs Hinv. unfold listening_means_recording, ref_recording, apply_effect.
  simpl. rewrite Hl, Href, Hrs. exact Hinv.
Qed.

Lemma resume_listening (c : Config) i k o e :
  o <> StartThrows ->
  resume k o (world c) = Some e ->
  listening_means_recording c ->
  listening_means_recording (apply_effect c (delete i (pending c)) e).
Proof.
  intros Ho He.
  destruct k, o; simpl in He; inversion He; subst e; clear He.
  - intros _ _. unfold startRecording_resume, apply_effect, ref_recording. simpl.
    eexists _, _. split; [reflexivity|].
    split; [apply list_lookup_middle; reflexivity | reflexivity].
  - unfold startRecording_resume. apply listening_kept; reflexivity.
  - unfold startRecording_resume. apply listening_kept; reflexivity.
  - contradiction.
  - unfold onstop, processVoiceInput, ondataavailable.
    destruct (0 <? size data)%nat; apply listening_kept; reflexivity.
  - unfold handleSend_resume.
    destruct (fst (settle _ r)); apply listening_kept; reflexivity.
  - unfold transcribe_resume, voice_catch.
    destruct (fst (settle _ r)) as [result|];
      [destruct (tr_success result && truthy (tr_text result))|];
      apply listening_kept; reflexivity.
  - unfold voice_catch. apply listening_kept; reflexivity.
  - unfold voiceChat_resume, voice_catch.
    destruct (fst (settle _ r)); apply listening_kept; reflexivity.
Qed.

Lemma exec_listening (a : Action) (c c' : Config) :
  start_failed a = false ->
  exec a c = Some c' -> listening_means_recording c -> listening_means_recording c'.
Proof.
  intros Hok.
  assert (Hsend : listening_means_recording c ->
                  listening_means_recording
                    (apply_effect c (pending c) (handleSend (world c)))).
  { unfold handleSend. destruct (negb _ || _); apply listening_kept; reflexivity. }
  destruct a; simpl; intros H.
  - destruct (input_disabled _); inversion H; subst. tauto.
  - destruct (input_disabled _); inversion H; subst. exact Hsend.
  - destruct (send_disabled _); inversion H; subst. exact Hsend.
  - destruct (mic_disabled _); inversion H; subst.
    unfold handleVoiceInput, startRecording, stopRecording.
    destruct (isListening (world c)) eqn:Hl; [|apply listening_kept; reflexivity].
    destruct (mediaRecorderRef (world c)) as [rid|];
      [|apply listening_kept; reflexivity].
    destruct (recorders (world c) !! rid) as [r|];
      [|apply listening_kept; reflexivity].
    destruct (rec_state r); [apply listening_kept; reflexivity|].
    intros _ Hl'. discriminate.
  - destruct (pending c !! i) as [k|] eqn:Hk; [|discriminate].
    destruct (resume k o (world c)) as [e|] eqn:He; inversion H; subst.
    eapply resume_listening; [|eassumption].
    intros ->. discriminate.
  - inversion H; subst. tauto.
  - inversion H; subst. tauto.
Qed.

Lemma run_listening (acts : list Action) (c c' : Config) :
  existsb start_failed acts = false ->
  run acts c = Some c' ->
  listening_means_recording c -> listening_means_recording c'.
Proof.
  revert c. induction acts as [|a acts IH]; intros c Hok Hrun Hinv; simpl in *.
  - injection Hrun as <-. exact Hinv.
  - apply orb_false_iff in Hok as [Ha Hok].
    destruct (exec a c) as [c1|] eqn:He; [|discriminate].
    apply (IH c1 Hok Hrun). eapply exec_listening; eassumption.
Qed.

(** X4.  In a session in which no [start()] of a recorder has thrown,
    while the session listens the ref points to a recorder that is
    recording; so a press of the microphone button then always ends that
    recording: the recorder is stopped, the session stops listening, and
    the recorder's last events are awaited. *)
Theorem mic_button_ends_the_recording
    (acts : list Action) (language : JsString) (userId : option JsString)
    (c : Config) :
  run acts (start (initial language userId)) = Some c ->
  existsb start_failed acts = false ->
  isListening (world c) = true ->
  mic_disabled (world c) = false ->
  exists rid r c',
    mediaRecorderRef (world c) = Some rid
    /\ recorders (world c) !! rid = Some r
    /\ rec_state r = recording
    /\ exec ClickMic c = Some c'
    /\ isListening (world c') = false
    /\ recorders (world c') !! rid
       = Some (mkRecorder (rec_stream r) inactive (rec_language r))
    /\ pending c' = pending c ++ [K_onstop (rec_stream r) (rec_language r)]
    /\ log c' = log c ++ [recorder_stop rid].
Proof.
  intros Hrun Hok Hl Hm.
  assert (Hinv : listening_means_recording c).
  { apply (run_listening acts _ c Hok Hrun). intros H. discriminate. }
  destruct (Hinv Hl) as (rid & r & Href & Hrec & Hst).
  exists rid, r. eexists.
  split; [exact Href|]. split; [exact Hrec|]. split; [exact Hst|].
  unfold exec. rewrite Hm. unfold handleVoiceInput. rewrite Hl.
  unfold stopRecording. rewrite Href, Hrec, Hst. unfold apply_effect. simpl.
  split; [reflexivity|]. split; [reflexivity|].
  split; [|split; reflexivity].
  apply list_lookup_insert_eq. eapply lookup_lt_Some. exact Hrec.
Qed.

Lemma mic_button_ends_the_recording_witness :
  exists c c',
    run [ClickMic; Complete 0 MediaGranted] (start (initial (lit "en") None)) = Some c
    /\ exec ClickMic c = Some c'
    /\ isListening (world c') = false.
Proof.
  eexists. 
  assert (Hrun : run [ClickMic; Complete 0 MediaGranted] (start (initial (lit "en") None))
                 = Some (mkConfig
                           (mkWorld [greeting] [] true false false (Some 0%nat) []
                              (lit "en") None [mkRecorder 0 recording (lit "en")] [true])
                           [] [getUserMedia; recorder_start 0]))
    by reflexivity.
  destruct (mic_button_ends_the_recording _ _ _ _ Hrun eq_refl eq_refl eq_refl)
    as (rid & r & c' & _ & _ & _ & Hex & Hl & _).
  exists c'. split; [exact Hrun|]. split; [exact Hex | exact Hl].
Defined.

(** When [start()] throws while the session listens, the ref is left on
    a recorder that does not record: the session goes on listening, the
    first recorder goes on recording, and the button no longer stops
    it. *)
Example start_failure_while_listening :
  exists c,
    run (double_click ++ [Complete 0 StartThrows]) (start (initial (lit "en") None))
    = Some c
    /\ isListening (world c) = true
    /\ recorders (world c)
       = [mkRecorder 0 recording (lit "en"); mkRecorder 1 inactive (lit "en")]
    /\ mediaRecorderRef (world c) = Some 1%nat
    /\ streams (world c) = [true; true]
    /\ exec ClickMic c = Some c.
Proof. eexists. split; [reflexivity|]. repeat split. Qed.

Lemma stopRecording_idempotent (w : World) :
  stopRecording (fst (fst (stopRecording w))) = (fst (fst (stopRecording w)), [], []).
Proof.
  unfold stopRecording at 2 3.
  destruct (mediaRecorderRef w) as [rid|] eqn:Href.
  2:{ simpl. unfold stopRecording. rewrite Href. reflexivity. }
  destruct (recorders w !! rid) as [r|] eqn:Hr.
  2:{ simpl. unfold stopRecording. rewrite Href, Hr. reflexivity. }
  destruct (rec_state r) eqn:Hst.
  { simpl. unfold stopRecording. rewrite Href, Hr, Hst. reflexivity. }
  simpl. unfold stopRecording. simpl. rewrite Href.
  rewrite list_lookup_insert_eq by (eapply lookup_lt_Some; exact Hr).
  reflexivity.
Qed.

(** X5.  [stopRecording] is a no-op when no recording is active, that is
    unless the ref points to a recorder that is recording: then it changes
    nothing, suspends nothing and does nothing to the outside.  When the
    ref does point to a recording recorder, that recorder is stopped, after
    which no recording is active.  So stopping is idempotent: once
    [stopRecording] has run, running it again is a no-op. *)
Theorem stopRecording_twice (w : World) :
  (~ ref_recording w -> stopRecording w = (w, [], []))
  /\ (ref_recording w ->
      exists rid, snd (stopRecording w) = [recorder_stop rid]
                  /\ mediaRecorderRef w = Some rid)
  /\ ~ ref_recording (fst (fst (stopRecording w)))
  /\ stopRecording (fst (fst (stopRecording w)))
     = (fst (fst (stopRecording w)), [], []).
Proof.
  assert (Hnoop : forall w', ~ ref_recording w' -> stopRecording w' = (w', [], [])).
  { intros w' Hn. unfold stopRecording.
    destruct (mediaRecorderRef w') as [rid|] eqn:Href; [|reflexivity].
    destruct (recorders w' !! rid) as [r|] eqn:Hr; [|reflexivity].
    destruct (rec_state r) eqn:Hst; [reflexivity|].
    exfalso. apply Hn. exists rid, r. auto. }
  split; [apply Hnoop|]. split; [|split; [|apply stopRecording_idempotent]].
  - intros (rid & r & Href & Hr & Hst). exists rid.
    unfold stopRecording. rewrite Href, Hr, Hst. split; reflexivity.
  - intros (rid & r & Href & Hr & Hst). revert Href Hr Hst. unfold stopRecording.
    destruct (mediaRecorderRef w) as [rid0|] eqn:Href0; simpl;
      [|rewrite Href0; discriminate].
    destruct (recorders w !! rid0) as [r0|] eqn:Hr0; simpl;
      [|rewrite Href0; intros [= <-]; rewrite Hr0; discriminate].
    destruct (rec_state r0) eqn:Hst0; simpl.
    + rewrite Href0. intros [= <-]. rewrite Hr0. intros [= <-]. congruence.
    + rewrite Href0. intros [= <-].
      rewrite list_lookup_insert_eq by (eapply lookup_lt_Some; exact Hr0).
      intros [= <-]. discriminate.
Qed.

(** ** No stream is left behind *)

Lemma handleVoiceInput_stream_turn (c : Config) :
  stream_turn false c (apply_effect c (pending c) (handleVoiceInput (world c))).
Proof.
  unfold handleVoiceInput, startRecording, stopRecording, stream_turn.
  destruct (isListening (world c)).
  2:{ left. split; [|reflexivity].
      unfold owners. simpl. rewrite omap_app. simpl. rewrite app_nil_r. reflexivity. }
  assert (Hsame : stream_turn false c (apply_effect c (pending c) (world c, [], []))).
  { rewrite apply_effect_none. left. split; reflexivity. }
  destruct (mediaRecorderRef (world c)) as [rid|]; [|exact Hsame].
  destruct (recorders (world c) !! rid) as [r|] eqn:Hr; [|exact Hsame].
  destruct (rec_state r) eqn:Hst; [exact Hsame|].
  left. split; [|reflexivity].
  unfold owners. simpl.
  rewrite (omap_insert_delete recording_stream _ rid r _ Hr).
  rewrite (omap_lookup_delete recording_stream _ rid r Hr).
  unfold recording_stream at 1 3. rewrite Hst. simpl.
  rewrite omap_app. simpl.
  rewrite (Permutation_app_comm (omap cont_stream (pending c)) [rec_stream r]).
  simpl. symmetry. apply Permutation_middle.
Qed.

Lemma resume_stream_turn (c : Config) i k o e :
  pending c !! i = Some k ->
  resume k o (world c) = Some e ->
  stream_turn (recorder_failed (Complete i o)) c
    (apply_effect c (delete i (pending c)) e).
Proof.
  intros Hk He.
  pose proof (omap_lookup_delete cont_stream _ i k Hk) as Hp.
  destruct k, o; simpl in He; inversion He; subst e; clear He; simpl in Hp;
    unfold stream_turn, recorder_failed.
  - right. right. split; [|reflexivity].
    unfold owners. simpl. rewrite !omap_app, Hp. simpl. rewrite app_nil_r.
    rewrite <- app_assoc. simpl. symmetry. apply Permutation_middle.
  - left. split; [|reflexivity].
    unfold owners. simpl. rewrite app_nil_r, Hp. reflexivity.
  - split; [|reflexivity].
    unfold owners. simpl. rewrite app_nil_r, Hp. reflexivity.
  - split; [|reflexivity].
    unfold owners. simpl. rewrite omap_app. simpl. rewrite !app_nil_r, Hp.
    reflexivity.
  - left. unfold owners, onstop, processVoiceInput, ondataavailable.
    destruct (0 <? size data)%nat; simpl; (split; [|reflexivity]);
      rewrite omap_app, Hp; simpl;
      rewrite (Permutation_app_comm _ [stream]); reflexivity.
  - left. unfold owners, handleSend_resume.
    destruct (fst (settle _ r)); simpl; (split; [|reflexivity]);
      rewrite app_nil_r, Hp; reflexivity.
  - unfold transcribe_resume, voice_catch.
    destruct (fst (settle _ r)) as [result|].
    + destruct (tr_success result && truthy (tr_text result)).
      * left. split; [|reflexivity].
        unfold owners. simpl. rewrite omap_app, Hp. simpl.
        rewrite (Permutation_app_comm _ [stream]). reflexivity.
      * right. left. exists stream. split; [|reflexivity].
        unfold owners. simpl. rewrite app_nil_r, Hp.
        symmetry. apply Permutation_middle.
    + right. left. exists stream. split; [|reflexivity].
      unfold owners. simpl. rewrite app_nil_r, Hp.
      symmetry. apply Permutation_middle.
  - unfold voice_catch.
    right. left. exists stream. split; [|reflexivity].
    unfold owners. simpl. rewrite app_nil_r, Hp.
    symmetry. apply Permutation_middle.
  - unfold voiceChat_resume, voice_catch.
    destruct (fst (settle _ r)); right; left; exists stream; (split; [|reflexivity]);
      unfold owners; simpl; rewrite app_nil_r, Hp;
      symmetry; apply Permutation_middle.
Qed.

Lemma exec_stream_turn (a : Action) (c c' : Config) :
  exec a c = Some c' -> stream_turn (recorder_failed a) c c'.
Proof.
  assert (Hsend : stream_turn false c
                    (apply_effect c (pending c) (handleSend (world c)))).
  { left. unfold owners, handleSend.
    destruct (negb _ || _); simpl; (split; [|reflexivity]);
      rewrite omap_app; simpl; rewrite app_nil_r; reflexivity. }
  destruct a; simpl; intros H.
  - destruct (input_disabled _); inversion H; subst. left. split; reflexivity.
  - destruct (input_disabled _); inversion H; subst. exact Hsend.
  - destruct (send_disabled _); inversion H; subst. exact Hsend.
  - destruct (mic_disabled _); inversion H; subst.
    apply handleVoiceInput_stream_turn.
  - destruct (pending c !! i) as [k|] eqn:Hk; [|discriminate].
    destruct (resume k o (world c)) as [e|] eqn:He; inversion H; subst.
    apply (resume_stream_turn c i k o e Hk He).
  - inversion H; subst. left. split; reflexivity.
  - inversion H; subst. left. split; reflexivity.
Qed.

Lemma stream_turn_live (c c' : Config) :
  stream_turn false c c' -> live_streams_owned c -> live_streams_owned c'.
Proof.
  unfold live_streams_owned.
  intros [[Hp Hs] | [(s0 & Hp & Hs) | [Hp Hs]]] Hinv s Hlive.
  - rewrite Hp. apply Hinv. rewrite <- Hs. exact Hlive.
  - rewrite Hs in Hlive.
    destruct (decide (s0 = s)) as [-> | Hne].
    + destruct (decide (s < length (streams (world c)))%nat) as [Hlt|Hge].
      * rewrite list_lookup_insert_eq in Hlive by exact Hlt. discriminate.
      * rewrite list_insert_ge in Hlive by lia.
        apply lookup_lt_Some in Hlive. lia.
    + rewrite list_lookup_insert_ne in Hlive by exact Hne.
      apply Hinv in Hlive. rewrite Hp in Hlive.
      apply elem_of_cons in Hlive as [-> | Hin]; [contradiction | exact Hin].
  - rewrite Hp. rewrite Hs in Hlive.
    destruct (decide (s < length (streams (world c)))%nat) as [Hlt|Hge].
    + rewrite lookup_app_l in Hlive by exact Hlt. right. apply Hinv. exact Hlive.
    + pose proof (lookup_lt_Some _ _ _ Hlive) as Hlen.
      rewrite length_app in Hlen. simpl in Hlen.
      replace s with (length (streams (world c))) by lia. left.
Qed.

Lemma live_granted (l : list bool) :
  length (filter (fun live => live = true) (l ++ [true]))
  = S (length (filter (fun live => live = true) l)).
Proof.
  rewrite filter_app, length_app. simpl. lia.
Qed.

Lemma live_released (l : list bool) (s : nat) :
  l !! s = Some true ->
  S (length (filter (fun live => live = true) (<[s := false]> l)))
  = length (filter (fun live => live = true) l).
Proof.
  revert s. induction l as [|b l IH]; intros [|s] Hs; try discriminate.
  - injection Hs as ->. reflexivity.
  - simpl in Hs. specialize (IH s Hs). destruct b.
    + simpl. simpl in IH. rewrite IH. reflexivity.
    + simpl. simpl in IH. exact IH.
Qed.

(** One turn keeps the account of the live streams: those in use, and one
    for every recorder that could not be built or started. *)
Lemma stream_turn_count (failed : bool) (c c' : Config) (n : nat) :
  stream_turn failed c c' -> streams_owned c ->
  live_streams (world c) = (length (owners c) + n)%nat ->
  live_streams (world c')
  = (length (owners c') + (n + if failed then 1 else 0))%nat.
Proof.
  unfold live_streams. intros Ht [_ Hlive] Hcount. destruct failed.
  - destruct Ht as [Hp Hs]. rewrite Hs, live_granted, Hp. lia.
  - destruct Ht as [[Hp Hs] | [(s & Hp & Hs) | [Hp Hs]]].
    + rewrite Hs, Hp. lia.
    + assert (Hs' : streams (world c) !! s = Some true).
      { rewrite Forall_forall in Hlive. apply Hlive. rewrite Hp. left. }
      pose proof (live_released _ s Hs') as Hrel.
      rewrite Hp in Hcount. simpl in Hcount. rewrite Hs. lia.
    + rewrite Hs, live_granted, Hp. simpl. lia.
Qed.

Lemma failures_cons (a : Action) (acts : list Action) :
  failures (a :: acts)
  = ((if recorder_failed a then 1 else 0) + failures acts)%nat.
Proof.
  unfold failures. destruct (recorder_failed a) eqn:Hf.
  - rewrite filter_cons_True by exact Hf. reflexivity.
  - rewrite filter_cons_False by congruence. reflexivity.
Qed.

Lemma run_streams (acts : list Action) (c c' : Config) (n : nat) :
  run acts c = Some c' ->
  streams_owned c ->
  live_streams (world c) = (length (owners c) + n)%nat ->
  (n = 0%nat -> live_streams_owned c) ->
  streams_owned c'
  /\ live_streams (world c') = (length (owners c') + (n + failures acts))%nat
  /\ ((n + failures acts = 0)%nat -> live_streams_owned c').
Proof.
  revert c n. induction acts as [|a acts IH]; intros c n Hrun Hown Hcount Hlive;
    simpl in Hrun.
  - injection Hrun as <-. unfold failures. simpl. rewrite Nat.add_0_r. auto.
  - destruct (exec a c) as [c1|] eqn:He; [|discriminate].
    pose proof (exec_stream_turn a c c1 He) as Ht.
    pose proof (stream_turn_count _ c c1 n Ht Hown Hcount) as Hcount1.
    destruct (IH c1 _ Hrun (exec_streams_owned a c c1 He Hown) Hcount1)
      as (Hown' & Hcount' & Hlive').
    + intros Hz. destruct (recorder_failed a); [lia|].
      apply (stream_turn_live c c1 Ht). apply Hlive. lia.
    + rewrite failures_cons. split; [exact Hown'|].
      split; [rewrite Hcount'; lia|].
      intros Hz. apply Hlive'. lia.
Qed.

(** X6.  In every session, as long as the component is mounted, the
    streams in use, by a recorder that is recording or by a voice
    interaction that has not reached the end of [onstop], are live, and the
    live streams are as many as those in use
    and the recorders that could not be built or started together: every
    such failure leaves one stream live that nothing will stop.  In a
    session without such a failure a stream is live exactly when it is in
    use, so once no recorder records and no voice interaction is
    unfinished the microphone is free. *)
Theorem microphone_held_only_by_users
    (acts : list Action) (language : JsString) (userId : option JsString)
    (c : Config) :
  run acts (start (initial language userId)) = Some c ->
  (forall s, s ∈ owners c -> streams (world c) !! s = Some true)
  /\ live_streams (world c) = (length (owners c) + failures acts)%nat
  /\ (failures acts = 0%nat ->
      (forall s, streams (world c) !! s = Some true <-> s ∈ owners c)
      /\ ((forall r, r ∈ recorders (world c) -> rec_state r = inactive) ->
          (forall k, k ∈ pending c -> cont_stream k = None) ->
          micHeld (world c) = false)).
Proof.
  intros Hrun.
  destruct (run_streams acts _ c 0 Hrun) as ([_ Howned] & Hcount & Hlive).
  { split; [apply NoDup_nil_2 | apply Forall_nil_2]. }
  { reflexivity. }
  { intros _ s Hs. discriminate. }
  rewrite Forall_forall in Howned.
  split; [exact Howned|]. split; [exact Hcount|].
  intros Hnone. specialize (Hlive Hnone). split.
  - intros s. split; [apply Hlive | apply Howned].
  - intros Hrec Hpen.
    destruct (micHeld (world c)) eqn:Hheld; [|reflexivity].
    unfold micHeld in Hheld. apply existsb_exists in Hheld as (b & Hin & ->).
    apply list_elem_of_In, list_elem_of_lookup_1 in Hin as [s Hs].
    apply Hlive in Hs. unfold owners in Hs.
    apply elem_of_app in Hs as [Hs | Hs];
      apply list_elem_of_omap in Hs as (x & Hx & Hsome).
    + unfold recording_stream in Hsome. rewrite (Hrec x Hx) in Hsome. discriminate.
    + rewrite (Hpen x Hx) in Hsome. discriminate.
Qed.

Lemma microphone_held_only_by_users_witness :
  exists c,
    run (voice_interaction [Byte.x01]
           (mkTranscribeResult true (Some (lit "hello")) None) (Rejected []) 0)
      (start (initial (lit "en") None)) = Some c
    /\ micHeld (world c) = false.
Proof.
  eexists. split; [vm_compute; reflexivity|].
  refine (proj2 (proj2 (proj2
            (microphone_held_only_by_users
               (voice_interaction [Byte.x01]
                  (mkTranscribeResult true (Some (lit "hello")) None) (Rejected []) 0)
               (lit "en") None _ _)) _) _ _).
  - vm_compute. reflexivity.
  - reflexivity.
  - intros r Hin. apply list_elem_of_singleton in Hin. subst r. reflexivity.
  - intros k Hin. inversion Hin.
Defined.

(** The microphone is granted, the recorder cannot be built: the stream
    stays live, and the session has nothing left that would stop it. *)
Example unbuilt_recorder_keeps_the_microphone :
  exists c,
    run unbuilt (start (initial (lit "en") None)) = Some c
    /\ micHeld (world c) = true
    /\ owners c = []
    /\ pending c = []
    /\ isListening (world c) = false
    /\ log c = [getUserMedia; console_error "Error accessing microphone:";
                alert "Could not access microphone. Please check permissions."].
Proof. eexists. split; [reflexivity|]. repeat split. Qed.

(** ** A whole voice interaction *)

(** A transcription with a text, at the turn on which it settles: the
    user's voice message is appended and the reply is requested, in the
    detected language, or in the interface language if none came back. *)
Lemma transcribe_success_turn (c : Config) i stream lang audioBlob farmerId result ch text :
  pending c !! i = Some (K_transcribe stream lang audioBlob farmerId) ->
  tr_success result = true ->
  tr_text result = Some (ch :: text) ->
  exec (Complete i (TranscribeReply (OkBody (Some result)))) c
  = Some (mkConfig
            (setMessages
               (fun prev => prev ++
                  [Msg.mk Msg.user (Some (ch :: text)) true
                     (Some (or_str (tr_language result) lang))])
               (world c))
            (delete i (pending c)
             ++ [K_voiceChat stream (ch :: text) (or_str (tr_language result) lang)
                   (userId (world c))])
            (log c ++ [fetch (PostJson "/voice/chat" (ch :: text)
                                (or_str (tr_language result) lang)
                                (userId (world c)))])).
Proof.
  intros Hk Hs Ht. unfold exec. rewrite Hk. simpl.
  unfold transcribe_resume. rewrite transcribeAudio_ok, Hs, Ht. reflexivity.
Qed.

(** X7.  A voice interaction in an otherwise idle session whose
    transcription comes back with a text.  On every answer [r] of the
    reply service (no HTTP response, an error status, a 2xx reply with a
    JSON object or with a body that is not JSON) the transcript gains
    exactly two messages, the user's voice-flagged message with the
    transcribed text and one assistant message (the reply, or the apology
    if the reply call failed); two requests are sent, the transcription and
    then the reply request for the transcribed text, in the detected
    language or else the interface language; the microphone stream is
    released and the session is idle.  On the one answer that is left, a
    2xx reply with body [null], the interaction does not end so: the
    component is unmounted, the run has no last configuration. *)
Theorem voice_interaction_end_to_end
    (w : World) (data : Blob) (result : TranscribeResult) (ch : N) (text : JsString)
    (r : Fetched ChatResult) (random : Q) :
  idle (start w) ->
  tr_success result = true ->
  tr_text result = Some (ch :: text) ->
  (exists c' m evs,
    run (voice_interaction data result r random) (start w) = Some c'
    /\ messages (world c')
       = messages w
         ++ [Msg.mk Msg.user (Some (ch :: text)) true
               (Some (or_str (tr_language result) (language w)));
             m]
    /\ Msg.role m = Msg.assistant
    /\ (answer_fails r = true -> m = apology)
    /\ (forall reply, r = OkBody (Some reply) ->
          m = Msg.mk Msg.assistant (cr_response reply) false (cr_language reply))
    /\ log c'
       = [getUserMedia; recorder_start (length (recorders w));
          recorder_stop (length (recorders w))]
         ++ map fetch (issued (transcribeAudio
                                 (new_Blob (if (0 <? size data)%nat then [data] else []))
                                 (userId w)))
         ++ [fetch (PostJson "/voice/chat" (ch :: text)
                      (or_str (tr_language result) (language w)) (userId w))]
         ++ evs ++ [track_stop (length (streams w))]
    /\ (forall req, fetch req ∉ evs)
    /\ streams (world c') = streams w ++ [false]
    /\ idle c')
  /\ run (capture data
          ++ [Complete 0 (TranscribeReply (OkBody (Some result)));
              Complete 0 ChatReplyNull]) (start w) = None.
Proof.
  intros Hidle Hs Ht.
  pose proof Hidle as (Hl & Hp & Hlo & _). simpl in Hl, Hp, Hlo.
  pose proof (capture_run w data Hl Hp) as Hrun.
  set (blob := new_Blob (if (0 <? size data)%nat then [data] else [])) in *.
  match type of Hrun with _ = Some ?c => set (c1 := c) in * end.
  pose proof (transcribe_success_turn c1 0 _ _ _ _ result ch text eq_refl Hs Ht) as H1.
  match type of H1 with _ = Some ?c => set (c2 := c) in * end.
  split; [|rewrite run_app, Hrun; cbn [run]; rewrite H1; reflexivity].
  destruct (voiceChat_turn c2 0 _ _ _ _ r random eq_refl)
    as (m & evs & H2 & Hrole & Hfail & Hok & Hnofetch).
  eexists _, m, evs.
  split.
  { unfold voice_interaction. rewrite run_app, Hrun. cbn [run].
    rewrite H1, H2. reflexivity. }
  split; [simpl; symmetry; apply (app_assoc (messages w) [_] [_])|].
  split; [exact Hrole|]. split; [exact Hfail|]. split; [exact Hok|].
  split; [subst c1 c2; simpl; rewrite <- ?app_assoc; reflexivity|].
  split; [exact Hnofetch|].
  split.
  { simpl. rewrite (insert_app_r_alt (streams w) _ (length (streams w))) by lia.
    rewrite Nat.sub_diag. reflexivity. }
  repeat split; simpl; assumption.
Qed.

Lemma voice_interaction_end_to_end_witness :
  exists c',
    run (voice_interaction [Byte.x52]
           (mkTranscribeResult true (Some (lit "Mujhe paani ki salah chahiye")) None)
           (OkBody (Some (mkChatResult (Some (lit "Subah sinchai karein")) None))) 0)
      (start (initial (lit "hi") None)) = Some c'
    /\ messages (world c')
       = [greeting;
          Msg.mk Msg.user (Some (lit "Mujhe paani ki salah chahiye")) true
            (Some (lit "hi"));
          Msg.mk Msg.assistant (Some (lit "Subah sinchai karein")) false None].
Proof.
  destruct (voice_interaction_end_to_end (initial (lit "hi") None) [Byte.x52]
              (mkTranscribeResult true (Some (lit "Mujhe paani ki salah chahiye")) None)
              77 (lit "ujhe paani ki salah chahiye")
              (OkBody (Some (mkChatResult (Some (lit "Subah sinchai karein")) None))) 0)
    as [(c' & m & evs & Hrun & Hmsgs & _ & _ & Hok & _) _].
  - repeat split.
  - reflexivity.
  - reflexivity.
  - exists c'. split; [exact Hrun|].
    rewrite Hmsgs, (Hok _ eq_refl). reflexivity.
Defined.

(** ** No retries *)

Lemma work_left_delete (l : list Cont) i k :
  l !! i = Some k ->
  sum_list_with turns_left l
  = (turns_left k + sum_list_with turns_left (delete i l))%nat.
Proof.
  intros H. rewrite (delete_Permutation l i k H) at 1. reflexivity.
Qed.

Lemma resume_work_left (k : Cont) (o : Outcome) (w : World) (e : Effect) :
  resume k o w = Some e ->
  (sum_list_with turns_left (snd (fst e)) < turns_left k)%nat.
Proof.
  destruct k, o; intros He; try discriminate He;
    cbn [resume] in He; injection He as <-.
  - simpl. lia.
  - simpl. lia.
  - simpl. lia.
  - simpl. lia.
  - unfold onstop, processVoiceInput. simpl. lia.
  - unfold handleSend_resume. destruct (fst (settle _ r)); simpl; lia.
  - unfold transcribe_resume, voice_catch.
    destruct (fst (settle _ r)) as [result|];
      [destruct (tr_success result && truthy (tr_text result))|]; simpl; lia.
  - unfold voice_catch. simpl. lia.
  - unfold voiceChat_resume, voice_catch.
    destruct (fst (settle _ r)); simpl; lia.
Qed.

Lemma complete_work_left (c c' : Config) i o :
  exec (Complete i o) c = Some c' -> (work_left c' < work_left c)%nat.
Proof.
  unfold exec, work_left.
  destruct (pending c !! i) as [k|] eqn:Hk; [|discriminate].
  destruct (resume k o (world c)) as [e|] eqn:He; [|discriminate].
  intros [= <-]. pose proof (resume_work_left _ _ _ _ He) as Hlt.
  destruct e as [[w' ks] evs]. simpl in *.
  rewrite (work_left_delete _ _ _ Hk), sum_list_with_app. lia.
Qed.

(** X8.  Nothing is retried and nothing loops: every settling turn uses up
    some of the work that is left in flight (a stopped recorder is followed
    by at most a transcription and a reply, a transcription by at most a
    reply, a request for the microphone or a typed message by nothing), so
    a run of settlings is never longer than that work, and at the end of a
    run of that length nothing is in flight. *)
Theorem settling_terminates (acts : list Action) (c c' : Config) :
  forallb is_Complete acts = true ->
  run acts c = Some c' ->
  (length acts + work_left c' <= work_left c)%nat
  /\ (length acts = work_left c -> pending c' = []).
Proof.
  intros Hall Hrun.
  assert (Hle : (length acts + work_left c' <= work_left c)%nat).
  { revert c Hall Hrun. induction acts as [|a acts IH]; intros c Hall; simpl.
    - intros [= <-]. lia.
    - simpl in Hall. apply andb_true_iff in Hall as [Ha Hall].
      destruct a; try discriminate.
      destruct (exec (Complete i o) c) as [c1|] eqn:Hex; [|discriminate].
      intros Hrun. specialize (IH c1 Hall Hrun).
      pose proof (complete_work_left _ _ _ _ Hex). lia. }
  split; [exact Hle|].
  intros Hlen. assert (Hz : work_left c' = 0%nat) by lia.
  unfold work_left in Hz.
  destruct (pending c') as [|k l]; [reflexivity|].
  simpl in Hz. destruct k; simpl in Hz; lia.
Qed.

Lemma settling_terminates_witness :
  exists c c',
    run [ClickMic; Complete 0 MediaGranted; ClickMic]
      (start (initial (lit "en") None)) = Some c
    /\ work_left c = 3%nat
    /\ run [Complete 0 (FinalData [Byte.x01]);
            Complete 0 (TranscribeReply
              (OkBody (Some (mkTranscribeResult true (Some (lit "hi")) None))));
            Complete 0 (ChatReply (Rejected []) 0)] c = Some c'
    /\ pending c' = [].
Proof.
  let v := eval vm_compute in
        (run [ClickMic; Complete 0 MediaGranted; ClickMic]
           (start (initial (lit "en") None))) in
  match v with
  | Some ?c =>
      let v' := eval vm_compute in
            (run [Complete 0 (FinalData [Byte.x01]);
                  Complete 0 (TranscribeReply
                    (OkBody (Some (mkTranscribeResult true (Some (lit "hi")) None))));
                  Complete 0 (ChatReply (Rejected []) 0)] c) in
      match v' with
      | Some ?c' =>
          exists c, c';
          assert (Hrun : run [Complete 0 (FinalData [Byte.x01]);
                              Complete 0 (TranscribeReply
                                (OkBody (Some (mkTranscribeResult true
                                                 (Some (lit "hi")) None))));
                              Complete 0 (ChatReply (Rejected []) 0)] c = Some c')
            by (vm_compute; reflexivity);
          match type of Hrun with
          | run ?acts _ = _ =>
              pose proof (proj2 (settling_terminates acts c c' eq_refl Hrun) eq_refl)
                as Hnil
          end
      end
  end.
  split; [vm_compute; reflexivity|]. split; [reflexivity|].
  split; [exact Hrun | exact Hnil].
Defined.

(** * Properties of the endpoints the service builds *)

Import Uri Rest.

(** ** [encodeURIComponent] *)

Lemma below_16 (P : N -> Prop) :
  (forall n, (n < 16)%nat -> P (N.of_nat n)) -> forall d, d < 16 -> P d.
Proof.
  intros H d Hd. rewrite <- (N2Nat.id d). apply H. lia.
Qed.

Lemma hex_digit_alnum (d : N) : d < 16 -> is_alnum (hex_digit d) = true.
Proof.
  revert d. apply below_16. intros n Hn.
  do 16 (destruct n as [|n]; [reflexivity|]). lia.
Qed.

Lemma alnum_uri_char (c : N) : is_alnum c = true -> uri_char c = true.
Proof. intros H. unfold uri_char, unreserved. rewrite H. reflexivity. Qed.

Lemma percent_uri_chars (byte : N) :
  byte < 256 -> Forall (fun c => uri_char c = true) (percent byte).
Proof.
  intros Hb. unfold percent.
  repeat apply Forall_cons_2; [reflexivity| | |apply Forall_nil_2];
    apply alnum_uri_char, hex_digit_alnum.
  - zify. Z.to_euclidean_division_equations. lia.
  - zify. Z.to_euclidean_division_equations. lia.
Qed.

Lemma utf8_bytes (cp : N) : cp < 1114112 -> Forall (fun b => b < 256) (utf8 cp).
Proof.
  intros Hcp. unfold utf8.
  destruct (N.ltb_spec cp 128); [repeat constructor; lia|].
  destruct (N.ltb_spec cp 2048).
  { repeat apply Forall_cons_2; [| |apply Forall_nil_2];
      zify; Z.to_euclidean_division_equations; lia. }
  destruct (N.ltb_spec cp 65536).
  { repeat apply Forall_cons_2; [| | |apply Forall_nil_2];
      zify; Z.to_euclidean_division_equations; lia. }
  repeat apply Forall_cons_2; [| | | |apply Forall_nil_2];
    zify; Z.to_euclidean_division_equations; lia.
Qed.

Lemma escape_uri_chars (cp : N) :
  cp < 1114112 -> Forall (fun c => uri_char c = true) (escape cp).
Proof.
  intros Hcp. unfold escape. apply Forall_concat, Forall_fmap.
  eapply Forall_impl; [apply utf8_bytes; exact Hcp|].
  intros b Hb. apply percent_uri_chars. exact Hb.
Qed.

Lemma code_point_range (hi lo : N) :
  is_high hi = true -> is_low lo = true -> code_point hi lo < 1114112.
Proof.
  unfold is_high, is_low, in_range, code_point.
  rewrite !andb_true_iff, !N.leb_le. lia.
Qed.

Lemma unreserved_ascii (c : N) : unreserved c = true -> c < 128.
Proof.
  unfold unreserved, is_alnum, in_range. simpl.
  rewrite !orb_true_iff, !andb_true_iff, !N.leb_le, !N.eqb_eq. lia.
Qed.

Lemma unreserved_not_surrogate (c : N) :
  unreserved c = true -> is_high c = false /\ is_low c = false.
Proof.
  intros H. apply unreserved_ascii in H.
  unfold is_high, is_low, in_range.
  split; apply andb_false_iff; left; apply N.leb_gt; lia.
Qed.

(** Induction on the length of a string: [encodeURIComponent] consumes one
    code unit or one surrogate pair at a time. *)
Lemma by_length (P : JsString -> Prop) :
  (forall s, (forall t, (length t < length s)%nat -> P t) -> P s) ->
  forall s, P s.
Proof.
  intros H s. remember (length s) as n eqn:Hn. revert s Hn.
  induction n as [n IH] using lt_wf_ind. intros s ->.
  apply H. intros t Ht. exact (IH _ Ht t eq_refl).
Qed.

Lemma encode_uri_chars (s out : JsString) :
  valid16 s -> encode s = Some out -> Forall (fun c => uri_char c = true) out.
Proof.
  revert out. induction s as [s IH] using by_length. intros out Hv.
  destruct s as [|c rest]; simpl.
  { intros [= <-]. constructor. }
  apply Forall_cons in Hv as [Hc Hv].
  destruct (unreserved c) eqn:Hu.
  { destruct (encode rest) as [o|] eqn:He; [|discriminate]. intros [= <-].
    constructor.
    - unfold uri_char. rewrite Hu. reflexivity.
    - apply (IH rest); [simpl; lia | exact Hv | exact He]. }
  destruct (is_high c) eqn:Hh.
  { destruct rest as [|d rest']; [discriminate|].
    destruct (is_low d) eqn:Hl; [|discriminate].
    destruct (encode rest') as [o|] eqn:He; [|discriminate]. intros [= <-].
    apply Forall_cons in Hv as [_ Hv].
    apply Forall_app. split.
    - apply escape_uri_chars, code_point_range; assumption.
    - apply (IH rest'); [simpl; lia | exact Hv | exact He]. }
  destruct (is_low c); [discriminate|].
  destruct (encode rest) as [o|] eqn:He; [|discriminate]. intros [= <-].
  apply Forall_app. split.
  - apply escape_uri_chars. lia.
  - apply (IH rest); [simpl; lia | exact Hv | exact He].
Qed.

Lemma encode_fails_iff (s : JsString) : encode s = None <-> well_formed s = false.
Proof.
  induction s as [s IH] using by_length.
  destruct s as [|c rest]; simpl; [split; discriminate|].
  destruct (unreserved c) eqn:Hu.
  { destruct (unreserved_not_surrogate c Hu) as [-> ->]. simpl.
    rewrite <- (IH rest) by (simpl; lia).
    destruct (encode rest); simpl; split; congruence. }
  destruct (is_high c) eqn:Hh.
  { destruct rest as [|d rest']; [tauto|].
    destruct (is_low d) eqn:Hl; simpl; [|tauto].
    rewrite <- (IH rest') by (simpl; lia).
    destruct (encode rest'); simpl; split; congruence. }
  destruct (is_low c); simpl; [tauto|].
  rewrite <- (IH rest) by (simpl; lia).
  destruct (encode rest); simpl; split; congruence.
Qed.

Lemma uri_char_not_delimiter (c : N) : uri_char c = true -> delimiter c = false.
Proof.
  intros Hu. destruct (delimiter c) eqn:Hd; [|reflexivity].
  unfold delimiter in Hd. simpl in Hd.
  rewrite !orb_true_iff, !N.eqb_eq in Hd.
  repeat (destruct Hd as [-> | Hd]; [vm_compute in Hu; discriminate|]).
  discriminate.
Qed.

Lemma occurrences_app (c : N) (s t : JsString) :
  occurrences c (s ++ t) = (occurrences c s + occurrences c t)%nat.
Proof. unfold occurrences. rewrite filter_app, length_app. reflexivity. Qed.

Lemma occurrences_none (c : N) (s : JsString) :
  Forall (fun x => x <> c) s -> occurrences c s = 0%nat.
Proof.
  unfold occurrences. induction 1 as [|x s Hx _ IH]; [reflexivity|].
  rewrite filter_cons_False by exact Hx. exact IH.
Qed.

Lemma occurrences_uri_chars (c : N) (s : JsString) :
  delimiter c = true -> Forall (fun x => uri_char x = true) s ->
  occurrences c s = 0%nat.
Proof.
  intros Hd Hs. apply occurrences_none.
  eapply Forall_impl; [exact Hs|].
  intros x Hx ->. apply uri_char_not_delimiter in Hx. congruence.
Qed.

Lemma encoding_methods_spec {A} (before : JsString) (method : JsString -> Call A) :
  (before, method) ∈ encoding_methods A ->
  forall arg, method arg = with_encoded before arg.
Proof.
  unfold encoding_methods. intros Hin arg.
  repeat (apply elem_of_cons in Hin as [[= -> ->] | Hin]; [reflexivity|]).
  inversion Hin.
Qed.

(** X9.  For [getPriceHistory], [getDiseasesByCrop], [getDiseaseInfo],
    [searchPesticides] and [getPesticidesForCrop]: whatever well-formed
    text is passed, the endpoint requested is the method's fixed prefix
    followed by code units that are unreserved or [%]; so the argument adds
    no [/ ? # & = +] and no space to the endpoint: it can neither add a
    path segment nor start or extend a query. *)
Theorem encoded_argument_adds_no_delimiter
    {A} (before : JsString) (method : JsString -> Call A) (arg : JsString) :
  (before, method) ∈ encoding_methods A ->
  valid16 arg ->
  well_formed arg = true ->
  exists segment k,
    method arg = Gets (before ++ segment) k
    /\ Forall (fun c => uri_char c = true) segment
    /\ forall c, delimiter c = true ->
         occurrences c (before ++ segment) = occurrences c before.
Proof.
  intros Hin Hv Hwf. rewrite (encoding_methods_spec _ _ Hin).
  unfold with_encoded, encodeURIComponent.
  destruct (encode arg) as [out|] eqn:He.
  2:{ apply encode_fails_iff in He. congruence. }
  pose proof (encode_uri_chars _ _ Hv He) as Hout.
  eexists _, _. split; [reflexivity|]. split; [exact Hout|].
  intros c Hc. rewrite occurrences_app, (occurrences_uri_chars c out Hc Hout). lia.
Qed.

Lemma encoded_argument_adds_no_delimiter_witness :
  exists segment k,
    @getPriceHistory unit (lit "Rice/Paddy & more?") 
    = Gets (lit "/mandi/price-history/" ++ segment) k
    /\ occurrences 47 (lit "/mandi/price-history/" ++ segment) = 3%nat
    /\ occurrences 63 (lit "/mandi/price-history/" ++ segment) = 0%nat.
Proof.
  destruct (@encoded_argument_adds_no_delimiter unit (lit "/mandi/price-history/")
              getPriceHistory (lit "Rice/Paddy & more?"))
    as (segment & k & Heq & _ & Hocc).
  - left.
  - unfold valid16. vm_compute. repeat constructor.
  - reflexivity.
  - exists segment, k. split; [exact Heq|].
    rewrite (Hocc 47 eq_refl), (Hocc 63 eq_refl). split; reflexivity.
Defined.

(** X10.  The same five methods throw, without sending anything, exactly
    when the argument contains a surrogate without its partner (the
    [URIError] of [encodeURIComponent]); on every other text they send
    exactly one [GET]. *)
Theorem ill_formed_argument_is_not_sent
    {A} (before : JsString) (method : JsString -> Call A) (arg : JsString) :
  (before, method) ∈ encoding_methods A ->
  (well_formed arg = false <-> exists msg, method arg = Rejects msg)
  /\ (well_formed arg = true <-> exists endpoint k, method arg = Gets endpoint k).
Proof.
  intros Hin. rewrite (encoding_methods_spec _ _ Hin).
  unfold with_encoded, encodeURIComponent.
  destruct (encode arg) as [out|] eqn:He.
  - assert (Hwf : well_formed arg = true).
    { destruct (well_formed arg) eqn:Hwf; [reflexivity|].
      apply encode_fails_iff in Hwf. congruence. }
    rewrite Hwf. split; split.
    + discriminate.
    + intros [msg Hm]. discriminate.
    + intros _. eexists _, _. reflexivity.
    + reflexivity.
  - pose proof (proj1 (encode_fails_iff arg) He) as Hwf. rewrite Hwf.
    split; split.
    + intros _. eexists. reflexivity.
    + reflexivity.
    + discriminate.
    + intros (ep & k & Hm). discriminate.
Qed.

Lemma ill_formed_argument_is_not_sent_witness :
  exists msg, @searchPesticides unit (lit "neem " ++ [55357]) = Rejects msg.
Proof.
  apply (proj1 (proj1 (@ill_formed_argument_is_not_sent unit
                         (lit "/pesticide/search?q=") searchPesticides
                         (lit "neem " ++ [55357])
                         ltac:(unfold encoding_methods; do 3 right; left)))).
  reflexivity.
Defined.

(** ** [encodeURIComponent] loses nothing *)

Lemma hex_digit_inj (d1 d2 : N) :
  d1 < 16 -> d2 < 16 -> hex_digit d1 = hex_digit d2 -> d1 = d2.
Proof.
  unfold hex_digit. intros H1 H2.
  destruct (N.ltb_spec d1 10), (N.ltb_spec d2 10); lia.
Qed.

Lemma percent_app_inj (b1 b2 : N) (x y : JsString) :
  b1 < 256 -> b2 < 256 ->
  percent b1 ++ x = percent b2 ++ y -> b1 = b2 /\ x = y.
Proof.
  intros H1 H2. unfold percent. simpl. intros [= Hhi Hlo ->].
  split; [|reflexivity].
  apply hex_digit_inj in Hhi; [|zify; Z.to_euclidean_division_equations; lia..].
  apply hex_digit_inj in Hlo; [|zify; Z.to_euclidean_division_equations; lia..].
  zify. Z.to_euclidean_division_equations. lia.
Qed.

Lemma percents_app_inj (bs1 bs2 : list N) (x y : JsString) :
  Forall (fun b => b < 256) bs1 -> Forall (fun b => b < 256) bs2 ->
  length bs1 = length bs2 ->
  concat (map percent bs1) ++ x = concat (map percent bs2) ++ y ->
  bs1 = bs2 /\ x = y.
Proof.
  revert bs2. induction bs1 as [|b1 bs1 IH]; intros [|b2 bs2] H1 H2 Hlen;
    try discriminate.
  - simpl. intros ->. split; reflexivity.
  - apply Forall_cons in H1 as [Hb1 H1]. apply Forall_cons in H2 as [Hb2 H2].
    cbn [map concat]. rewrite <- !app_assoc. intros Heq.
    apply percent_app_inj in Heq as [-> Heq]; [|assumption..].
    injection Hlen as Hlen.
    destruct (IH bs2 H1 H2 Hlen Heq) as [-> ->]. split; reflexivity.
Qed.

(** The first byte of the UTF-8 form tells how many bytes follow. *)
Lemma utf8_shape (cp : N) :
  exists b bs,
    utf8 cp = b :: bs
    /\ ((b < 128 /\ length bs = 0%nat)
        \/ (192 <= b /\ b < 224 /\ length bs = 1%nat /\ cp < 2048)
        \/ (224 <= b /\ b < 240 /\ length bs = 2%nat /\ cp < 65536)
        \/ (240 <= b /\ length bs = 3%nat)).
Proof.
  unfold utf8.
  destruct (N.ltb_spec cp 128).
  { eexists _, _. split; [reflexivity|]. left. split; [assumption | reflexivity]. }
  destruct (N.ltb_spec cp 2048).
  { eexists _, _. split; [reflexivity|]. right. left.
    repeat split; try assumption; zify; Z.to_euclidean_division_equations; lia. }
  destruct (N.ltb_spec cp 65536).
  { eexists _, _. split; [reflexivity|]. right. right. left.
    repeat split; try assumption; zify; Z.to_euclidean_division_equations; lia. }
  eexists _, _. split; [reflexivity|]. right. right. right.
  split; [zify; Z.to_euclidean_division_equations; lia | reflexivity].
Qed.

Lemma utf8_inj (cp1 cp2 : N) : utf8 cp1 = utf8 cp2 -> cp1 = cp2.
Proof.
  unfold utf8.
  destruct (N.ltb_spec cp1 128), (N.ltb_spec cp2 128);
    [intros [= ->]; reflexivity | | |].
  1,2: destruct (N.ltb_spec cp1 2048), (N.ltb_spec cp2 2048);
         try destruct (N.ltb_spec cp1 65536); try destruct (N.ltb_spec cp2 65536);
         discriminate.
  destruct (N.ltb_spec cp1 2048), (N.ltb_spec cp2 2048).
  - intros [= Ha Hb]. zify. Z.to_euclidean_division_equations. lia.
  - destruct (N.ltb_spec cp2 65536); discriminate.
  - destruct (N.ltb_spec cp1 65536); discriminate.
  - destruct (N.ltb_spec cp1 65536), (N.ltb_spec cp2 65536); try discriminate.
    + intros [= Ha Hb Hc]. zify. Z.to_euclidean_division_equations. lia.
    + intros [= Ha Hb Hc Hd]. zify. Z.to_euclidean_division_equations. lia.
Qed.

Lemma escape_head (cp : N) :
  exists tail, escape cp = 37 :: tail.
Proof.
  destruct (utf8_shape cp) as (b & bs & Hu & _).
  unfold escape. rewrite Hu. simpl. eexists. reflexivity.
Qed.

Lemma escape_app_inj (cp1 cp2 : N) (x y : JsString) :
  cp1 < 1114112 -> cp2 < 1114112 ->
  escape cp1 ++ x = escape cp2 ++ y -> cp1 = cp2 /\ x = y.
Proof.
  intros H1 H2 Heq.
  pose proof (utf8_bytes cp1 H1) as Hb1. pose proof (utf8_bytes cp2 H2) as Hb2.
  destruct (utf8_shape cp1) as (b1 & bs1 & Hu1 & Hs1).
  destruct (utf8_shape cp2) as (b2 & bs2 & Hu2 & Hs2).
  assert (Hlen : length (utf8 cp1) = length (utf8 cp2)).
  { unfold escape in Heq. rewrite Hu1, Hu2 in Heq |- *. simpl in Heq.
    rewrite Hu1 in Hb1. rewrite Hu2 in Hb2.
    apply Forall_cons in Hb1 as [Hb1 _]. apply Forall_cons in Hb2 as [Hb2 _].
    injection Heq as Hhi Hlo _.
    apply hex_digit_inj in Hhi; [|zify; Z.to_euclidean_division_equations; lia..].
    apply hex_digit_inj in Hlo; [|zify; Z.to_euclidean_division_equations; lia..].
    assert (b1 = b2) by (zify; Z.to_euclidean_division_equations; lia).
    simpl. lia. }
  unfold escape in Heq.
  destruct (percents_app_inj _ _ _ _ Hb1 Hb2 Hlen Heq) as [Hu ->].
  split; [apply utf8_inj; exact Hu | reflexivity].
Qed.

Lemma code_point_inj (h1 l1 h2 l2 : N) :
  is_high h1 = true -> is_low l1 = true -> is_high h2 = true -> is_low l2 = true ->
  code_point h1 l1 = code_point h2 l2 -> h1 = h2 /\ l1 = l2.
Proof.
  unfold is_high, is_low, in_range, code_point.
  rewrite !andb_true_iff, !N.leb_le. lia.
Qed.

Lemma code_point_astral (h l : N) :
  is_high h = true -> is_low l = true -> 65536 <= code_point h l.
Proof. unfold code_point. lia. Qed.

Lemma encode_inj (s1 s2 out : JsString) :
  valid16 s1 -> valid16 s2 ->
  encode s1 = Some out -> encode s2 = Some out -> s1 = s2.
Proof.
  revert s2 out. induction s1 as [s1 IH] using by_length.
  intros s2 out Hv1 Hv2 H1 H2.
  assert (Hnot37 : forall c, unreserved c = true -> c <> 37).
  { intros c Hc ->. discriminate. }
  destruct s1 as [|c1 r1], s2 as [|c2 r2]; [reflexivity| | |].
  - (* [s1] empty, [s2] not *)
    simpl in H1. injection H1 as <-. simpl in H2.
    destruct (unreserved c2);
      [destruct (encode r2); discriminate|].
    destruct (is_high c2).
    { destruct r2 as [|d r2']; [discriminate|].
      destruct (is_low d); [|discriminate].
      destruct (encode r2'); [|discriminate].
      destruct (escape_head (code_point c2 d)) as [t Ht].
      simpl in H2. rewrite Ht in H2. discriminate. }
    destruct (is_low c2); [discriminate|].
    destruct (encode r2); [|discriminate].
    destruct (escape_head c2) as [t Ht]. simpl in H2. rewrite Ht in H2. discriminate.
  - (* [s2] empty, [s1] not *)
    simpl in H2. injection H2 as <-. simpl in H1.
    destruct (unreserved c1);
      [destruct (encode r1); discriminate|].
    destruct (is_high c1).
    { destruct r1 as [|d r1']; [discriminate|].
      destruct (is_low d); [|discriminate].
      destruct (encode r1'); [|discriminate].
      destruct (escape_head (code_point c1 d)) as [t Ht].
      simpl in H1. rewrite Ht in H1. discriminate. }
    destruct (is_low c1); [discriminate|].
    destruct (encode r1); [|discriminate].
    destruct (escape_head c1) as [t Ht]. simpl in H1. rewrite Ht in H1. discriminate.
  - apply Forall_cons in Hv1 as [Hc1 Hv1]. apply Forall_cons in Hv2 as [Hc2 Hv2].
    simpl in H1, H2.
    destruct (unreserved c1) eqn:Hu1.
    + (* an unreserved code unit first *)
      destruct (encode r1) as [o1|] eqn:He1; [|discriminate].
      injection H1 as <-.
      destruct (unreserved c2) eqn:Hu2.
      * destruct (encode r2) as [o2|] eqn:He2; [|discriminate].
        injection H2 as -> ->. f_equal.
        apply (IH r1 ltac:(simpl; lia) r2 o1); assumption.
      * exfalso. apply (Hnot37 c1 Hu1).
        destruct (is_high c2).
        { destruct r2 as [|d r2']; [discriminate|].
          destruct (is_low d); [|discriminate].
          destruct (encode r2'); [|discriminate].
          destruct (escape_head (code_point c2 d)) as [t Ht].
          simpl in H2. rewrite Ht in H2. injection H2 as H2 _. congruence. }
        destruct (is_low c2); [discriminate|].
        destruct (encode r2); [|discriminate].
        destruct (escape_head c2) as [t Ht].
        simpl in H2. rewrite Ht in H2. injection H2 as H2 _. congruence.
    + destruct (unreserved c2) eqn:Hu2.
      { (* escaped against unreserved *)
        exfalso. apply (Hnot37 c2 Hu2).
        destruct (encode r2) as [o2|]; [|discriminate]. injection H2 as <-.
        destruct (is_high c1).
        { destruct r1 as [|d r1']; [discriminate|].
          destruct (is_low d); [|discriminate].
          destruct (encode r1'); [|discriminate].
          destruct (escape_head (code_point c1 d)) as [t Ht].
          simpl in H1. rewrite Ht in H1. injection H1 as H1 _. congruence. }
        destruct (is_low c1); [discriminate|].
        destruct (encode r1); [|discriminate].
        destruct (escape_head c1) as [t Ht].
        simpl in H1. rewrite Ht in H1. injection H1 as H1 _. congruence. }
      destruct (is_high c1) eqn:Hh1.
      * (* a surrogate pair first *)
        destruct r1 as [|d1 r1']; [discriminate|].
        destruct (is_low d1) eqn:Hl1; [|discriminate].
        destruct (encode r1') as [o1|] eqn:He1; [|discriminate].
        injection H1 as <-.
        apply Forall_cons in Hv1 as [_ Hv1].
        pose proof (code_point_range _ _ Hh1 Hl1) as Hr1.
        destruct (is_high c2) eqn:Hh2.
        -- destruct r2 as [|d2 r2']; [discriminate|].
           destruct (is_low d2) eqn:Hl2; [|discriminate].
           destruct (encode r2') as [o2|] eqn:He2; [|discriminate].
           injection H2 as H2. apply Forall_cons in Hv2 as [_ Hv2].
           apply escape_app_inj in H2 as [Hcp ->];
             [|apply code_point_range; assumption | exact Hr1].
           apply code_point_inj in Hcp as [-> ->]; [|assumption..].
           do 2 f_equal.
           apply (IH r1' ltac:(simpl; lia) r2' o1); assumption.
        -- destruct (is_low c2); [discriminate|].
           destruct (encode r2) as [o2|]; [|discriminate].
           injection H2 as H2.
           apply escape_app_inj in H2 as [Hcp _]; [|lia | exact Hr1].
           pose proof (code_point_astral _ _ Hh1 Hl1). lia.
      * destruct (is_low c1) eqn:Hl1; [discriminate|].
        destruct (encode r1) as [o1|] eqn:He1; [|discriminate].
        injection H1 as <-.
        destruct (is_high c2) eqn:Hh2.
        -- destruct r2 as [|d2 r2']; [discriminate|].
           destruct (is_low d2) eqn:Hl2; [|discriminate].
           destruct (encode r2') as [o2|]; [|discriminate].
           injection H2 as H2.
           apply escape_app_inj in H2 as [Hcp _];
             [|apply code_point_range; assumption | lia].
           pose proof (code_point_astral _ _ Hh2 Hl2). lia.
        -- destruct (is_low c2); [discriminate|].
           destruct (encode r2) as [o2|] eqn:He2; [|discriminate].
           injection H2 as H2.
           apply escape_app_inj in H2 as [-> ->]; [|lia..].
           f_equal. apply (IH r1 ltac:(simpl; lia) r2 o1); assumption.
Qed.

(** X11.  [encodeURIComponent] loses nothing: two texts with the same
    encoding are the same text.  So each of the five methods requests
    different endpoints for different arguments. *)
Theorem different_arguments_different_endpoints
    {A} (before : JsString) (method : JsString -> Call A)
    (arg1 arg2 endpoint : JsString) k1 k2 :
  (before, method) ∈ encoding_methods A ->
  valid16 arg1 -> valid16 arg2 ->
  method arg1 = Gets endpoint k1 ->
  method arg2 = Gets endpoint k2 ->
  arg1 = arg2.
Proof.
  intros Hin Hv1 Hv2. rewrite !(encoding_methods_spec _ _ Hin).
  unfold with_encoded, encodeURIComponent, request.
  destruct (encode arg1) as [o1|] eqn:H1; [|discriminate].
  destruct (encode arg2) as [o2|] eqn:H2; [|discriminate].
  intros [= <-] [= Heq]. apply app_inv_head in Heq. subst o2.
  eapply encode_inj; eassumption.
Qed.

Lemma different_arguments_different_endpoints_witness :
  lit "Wheat" = lit "Wheat".
Proof.
  apply (@different_arguments_different_endpoints unit
           (lit "/diseases/") getDiseasesByCrop (lit "Wheat") (lit "Wheat")
           (lit "/diseases/Wheat") (settle (Api.request "" [] [] None))
           (settle (Api.request "" [] [] None))).
  - unfold encoding_methods. right. left.
  - unfold valid16. vm_compute. repeat constructor.
  - unfold valid16. vm_compute. repeat constructor.
  - reflexivity.
  - reflexivity.
Defined.

(** ** Query strings *)

Lemma query_separator_false (c : N) :
  c <> 63 -> c <> 38 -> c <> 61 -> c <> 35 -> c <> 47 -> query_separator c = false.
Proof.
  intros. unfold query_separator. simpl.
  repeat (rewrite (proj2 (N.eqb_neq _ _)) by assumption). reflexivity.
Qed.

Lemma query_separator_true (c : N) :
  query_separator c = true -> c = 63 \/ c = 38 \/ c = 61 \/ c = 35 \/ c = 47.
Proof.
  unfold query_separator. simpl.
  rewrite !orb_true_iff, !N.eqb_eq. intuition discriminate.
Qed.

Lemma hex_digit_no_separator (d : N) : query_separator (hex_digit d) = false.
Proof.
  unfold hex_digit. destruct (N.ltb_spec d 10); apply query_separator_false; lia.
Qed.

Lemma form_safe_no_separator (c : N) :
  form_safe c = true -> query_separator c = false.
Proof.
  intros Hs. destruct (query_separator c) eqn:Hq; [|reflexivity].
  apply query_separator_true in Hq.
  repeat (destruct Hq as [-> | Hq]; [vm_compute in Hs; discriminate|]).
  subst c. vm_compute in Hs. discriminate.
Qed.

Lemma form_byte_no_separator (byte : N) :
  Forall (fun c => query_separator c = false) (form_byte byte).
Proof.
  unfold form_byte.
  destruct (byte =? 32); [repeat constructor|].
  destruct (form_safe byte) eqn:Hs.
  - repeat constructor. apply form_safe_no_separator. exact Hs.
  - unfold percent. repeat constructor; apply hex_digit_no_separator.
Qed.

Lemma form_encode_no_separator (s : JsString) :
  Forall (fun c => query_separator c = false) (form_encode s).
Proof.
  unfold form_encode. apply Forall_concat, Forall_fmap, Forall_forall.
  intros b _. apply form_byte_no_separator.
Qed.

Lemma occurrences_form_encode (c : N) (s : JsString) :
  query_separator c = true -> occurrences c (form_encode s) = 0%nat.
Proof.
  intros Hc. apply occurrences_none.
  eapply Forall_impl; [apply form_encode_no_separator|].
  intros x Hx ->. congruence.
Qed.

Lemma occurrences_cons (c x : N) (s : JsString) :
  occurrences c (x :: s)
  = ((if (x =? c)%N then 1 else 0) + occurrences c s)%nat.
Proof.
  unfold occurrences. destruct (N.eqb_spec x c) as [-> | Hne].
  - rewrite filter_cons_True by reflexivity. reflexivity.
  - rewrite filter_cons_False by exact Hne. reflexivity.
Qed.

(** The endpoint of a method with two optional filters. *)
Lemma two_filters_shape (path : JsString) (name1 name2 : string)
    (v1 v2 : option JsString) (c : N) :
  query_separator c = true ->
  let endpoint :=
    with_query path (append_if_truthy name2 v2 (append_if_truthy name1 v1 [])) in
  (given [v1; v2] = 0%nat -> endpoint = path)
  /\ occurrences c endpoint
     = (occurrences c path
        + (if (c =? 63)%N then Nat.min 1 (given [v1; v2]) else 0)
        + (if (c =? 61)%N then given [v1; v2] else 0)
        + (if (c =? 38)%N then given [v1; v2] - 1 else 0))%nat.
Proof.
  intros Hc. unfold given, with_query, append_if_truthy. simpl.
  assert (Hq : forall a b : JsString, truthy_str (a ++ 61 :: b) = true)
    by (intros [|] ?; reflexivity).
  apply query_separator_true in Hc as Hcases.
  destruct (truthy v1) eqn:H1, (truthy v2) eqn:H2; simpl;
    repeat first [ rewrite filter_cons_True by congruence
                 | rewrite filter_cons_False by congruence ]; simpl.
  - split; [discriminate|].
    rewrite Hq.
    repeat first [rewrite occurrences_app | rewrite occurrences_cons].
    rewrite !occurrences_form_encode by exact Hc.
    destruct Hcases as [->|[->|[->|[->| ->]]]]; simpl; lia.
  - split; [discriminate|].
    rewrite Hq.
    repeat first [rewrite occurrences_app | rewrite occurrences_cons].
    rewrite !occurrences_form_encode by exact Hc.
    destruct Hcases as [->|[->|[->|[->| ->]]]]; simpl; lia.
  - split; [discriminate|].
    rewrite Hq.
    repeat first [rewrite occurrences_app | rewrite occurrences_cons].
    rewrite !occurrences_form_encode by exact Hc.
    destruct Hcases as [->|[->|[->|[->| ->]]]]; simpl; lia.
  - split; [intros _; apply app_nil_r|].
    rewrite app_nil_r.
    destruct Hcases as [->|[->|[->|[->| ->]]]]; simpl; lia.
Qed.

(** X12.  The endpoints of [getMarketPrices] and [getVillages]: with no
    filter given the endpoint is the bare path, without a [?]; otherwise it
    has exactly one [?], one [=] per filter given and one [&] between two
    filters, and no [#] or further [/], whatever the filter values
    contain.  A filter value cannot add a parameter or cut the query. *)
Theorem filter_values_cannot_inject
    (prices : PriceFilters) (villages : VillageFilters) :
  let p := getMarketPrices_endpoint prices in
  let n := given [crop_name prices; mandi_name prices] in
  let v := getVillages_endpoint villages in
  let m := given [state villages; district villages] in
  (n = 0%nat -> p = lit "/market-prices")
  /\ occurrences 63 p = Nat.min 1 n
  /\ occurrences 61 p = n
  /\ occurrences 38 p = (n - 1)%nat
  /\ occurrences 35 p = 0%nat
  /\ occurrences 47 p = 1%nat
  /\ (m = 0%nat -> v = lit "/villages")
  /\ occurrences 63 v = Nat.min 1 m
  /\ occurrences 61 v = m
  /\ occurrences 38 v = (m - 1)%nat
  /\ occurrences 35 v = 0%nat
  /\ occurrences 47 v = 1%nat.
Proof.
  intros p n v m.
  pose proof (fun c H => two_filters_shape (lit "/market-prices")
                "crop_name" "mandi_name" (crop_name prices) (mandi_name prices) c H)
    as Hp.
  pose proof (fun c H => two_filters_shape (lit "/villages")
                "state" "district" (state villages) (district villages) c H)
    as Hv.
  subst p n v m. unfold getMarketPrices_endpoint, getVillages_endpoint.
  cbv zeta in Hp, Hv.
  split; [exact (proj1 (Hp 63 eq_refl))|].
  split; [rewrite (proj2 (Hp 63 eq_refl)); simpl; lia|].
  split; [rewrite (proj2 (Hp 61 eq_refl)); simpl; lia|].
  split; [rewrite (proj2 (Hp 38 eq_refl)); simpl; lia|].
  split; [rewrite (proj2 (Hp 35 eq_refl)); simpl; lia|].
  split; [rewrite (proj2 (Hp 47 eq_refl)); simpl; lia|].
  split; [exact (proj1 (Hv 63 eq_refl))|].
  split; [rewrite (proj2 (Hv 63 eq_refl)); simpl; lia|].
  split; [rewrite (proj2 (Hv 61 eq_refl)); simpl; lia|].
  split; [rewrite (proj2 (Hv 38 eq_refl)); simpl; lia|].
  split; [rewrite (proj2 (Hv 35 eq_refl)); simpl; lia|].
  rewrite (proj2 (Hv 47 eq_refl)); simpl; lia.
Qed.

Example market_prices_endpoint :
  getMarketPrices_endpoint
    (mkPriceFilters (Some (lit "Basmati Rice")) (Some (lit "A&B=1")))
  = lit "/market-prices?crop_name=Basmati+Rice&mandi_name=A%26B%3D1".
Proof. vm_compute. reflexivity. Qed.

(** * What the service throws *)

(** X13.  [request]: it throws exactly on the answers that are not a 2xx
    reply with a JSON body, and it writes to the console exactly when it
    throws.  On a non-2xx reply the message of the error thrown is never
    empty, and it is chosen in this order: the [detail] of the body if that
    is truthy; else the [message] of the body if that is truthy; else
    [Request failed], which is also the message when the body is not JSON.
    (The body of an error reply is read as far as [ErrorBody] goes: [detail]
    and [message] are strings or missing.) *)
Theorem request_failure_is_logged_and_named {A} (endpoint : string)
    (msg language : JsString) (farmer_id : option JsString)
    (r : Fetched A) (body : option ErrorBody) :
  let call := Api.request (A := A) endpoint msg language farmer_id in
  failed (settle call r) = answer_fails r
  /\ snd (settle call r) = failed (settle call r)
  /\ exists thrown,
       fst (settle call (NotOk body)) = Throw (Some thrown)
       /\ truthy_str thrown = true
       /\ match body with
          | Some e =>
              if truthy (detail e) then detail e = Some thrown
              else if truthy (message e) then message e = Some thrown
              else thrown = lit "Request failed"
          | None => thrown = lit "Request failed"
          end.
Proof.
  intros call. split; [|split].
  - destruct r as [?|[?|]|[?|]]; reflexivity.
  - destruct r as [?|[?|]|[?|]]; reflexivity.
  - destruct body as [[d m]|]; simpl.
    + destruct d as [[|x d]|]; simpl.
      * destruct m as [[|y m]|]; simpl;
          (eexists; split; [reflexivity|]; split; reflexivity).
      * eexists; split; [reflexivity|]. split; reflexivity.
      * destruct m as [[|y m]|]; simpl;
          (eexists; split; [reflexivity|]; split; reflexivity).
    + eexists; split; [reflexivity|]. split; reflexivity.
Qed.

(** * Reading a reply aloud *)

Import Obj.

Lemma strict_eq_spec (a b : JsString) : strict_eq a b = true <-> a = b.
Proof.
  revert b. induction a as [|x a IH]; intros [|y b]; simpl; split;
    try discriminate; try reflexivity.
  - intros H. apply andb_true_iff in H as [Hx Hab].
    apply N.eqb_eq in Hx. apply IH in Hab. congruence.
  - intros [= -> ->]. rewrite N.eqb_refl. simpl. apply IH. reflexivity.
Qed.

(** [obj[key]] is a property of the literal, under one of its keys, or
    inherited, or missing. *)
Lemma get_cases {A} (obj : list (string * A)) (key : JsString) :
  (exists name v, get obj key = Own v /\ (name, v) ∈ obj /\ lit name = key)
  \/ (get obj key = Inherited /\ inherited key = true)
  \/ (get obj key = Missing /\ inherited key = false /\ key ∉ keys obj).
Proof.
  unfold get.
  destruct (find (fun kv => strict_eq (lit (fst kv)) key) obj) as [[name v]|] eqn:Hf.
  - left. exists name, v. apply find_some in Hf as [Hin Heq].
    apply strict_eq_spec in Heq. simpl in *.
    split; [reflexivity|]. split; [|exact Heq].
    apply list_elem_of_In. exact Hin.
  - right. assert (Hk : key ∉ keys obj).
    { intros Hin. unfold keys in Hin. apply list_elem_of_fmap in Hin as [kv [-> Hin]].
      apply list_elem_of_In in Hin.
      pose proof (find_none _ _ Hf kv Hin) as Hn. simpl in Hn.
      assert (strict_eq (lit (fst kv)) (lit (fst kv)) = true)
        by (apply strict_eq_spec; reflexivity).
      congruence. }
    destruct (inherited key) eqn:Hi; [left|right]; auto.
Qed.

Lemma own_key {A} (obj : list (string * A)) (name : string) (v : A) :
  (name, v) ∈ obj -> lit name ∈ keys obj.
Proof.
  intros Hin. unfold keys. apply list_elem_of_fmap. exists (name, v).
  split; [reflexivity|exact Hin].
Qed.

Lemma langMap_truthy (name : string) (v : JsString) :
  (name, v) ∈ Speech.langMap -> truthy_str v = true.
Proof.
  unfold Speech.langMap. intros H.
  repeat (apply elem_of_cons in H as [[= -> ->]|H]; [reflexivity|]).
  apply elem_of_nil in H. contradiction.
Qed.

(** The locale of an utterance is one of the map, unless the language of
    the message or of the interface names an inherited property. *)
Lemma utterance_lang_cases (lang : option JsString) (language : JsString) :
  (exists locale, Speech.utterance_lang lang language = Some locale
                  /\ locale ∈ Speech.locales)
  \/ (Speech.utterance_lang lang language = None
      /\ (inherited (key_of lang) = true \/ inherited language = true)).
Proof.
  unfold Speech.utterance_lang, Speech.or_property.
  assert (Hloc : forall name v, (name, v) ∈ Speech.langMap -> v ∈ Speech.locales).
  { intros name v Hin. unfold Speech.locales.
    apply list_elem_of_fmap. exists (name, v). split; [reflexivity|exact Hin]. }
  destruct (get_cases Speech.langMap (key_of lang))
    as [(n1 & v1 & -> & Hin1 & _) | [[-> Hi1] | [-> _]]]; simpl.
  - repeat (rewrite (langMap_truthy _ _ Hin1); simpl).
    left. exists v1. split; [reflexivity|]. eapply Hloc; exact Hin1.
  - right. split; [reflexivity|]. left. exact Hi1.
  - destruct (get_cases Speech.langMap language)
      as [(n2 & v2 & -> & Hin2 & _) | [[-> Hi2] | [-> _]]]; simpl.
    + repeat (rewrite (langMap_truthy _ _ Hin2); simpl).
      left. exists v2. split; [reflexivity|]. eapply Hloc; exact Hin2.
    + right. split; [reflexivity|]. right. exact Hi2.
    + left. exists (lit "en-US"). split; [reflexivity|].
      apply (Hloc "en"). unfold Speech.langMap. apply elem_of_cons. left. reflexivity.
Qed.

(** X14.  However often [Listen] is pressed and whatever the synthesiser
    was saying or had queued, after a press it holds exactly one utterance,
    that of the message pressed last, at rate 0.9; its locale is one of the
    ten of [langMap], unless the language of the message or of the
    interface is the name of a property every object inherits.  Where the
    browser has no synthesiser nothing is queued. *)
Theorem last_listen_is_spoken
    (queue : list Speech.Utterance) (earlier : list Speech.Listen)
    (l : Speech.Listen) :
  (exists u,
     fold_left (Speech.listen true) (earlier ++ [l]) queue = [u]
     /\ Speech.text u = Msg.content (Speech.message l)
     /\ Speech.rate u = (9 # 10)%Q
     /\ ((exists locale, Speech.lang u = Some locale /\ locale ∈ Speech.locales)
         \/ (Speech.lang u = None
             /\ (inherited (key_of (Msg.language (Speech.message l))) = true
                 \/ inherited (Speech.at_language l) = true))))
  /\ fold_left (Speech.listen false) (earlier ++ [l]) queue = queue.
Proof.
  split.
  - rewrite fold_left_app. simpl.
    unfold Speech.listen at 1, Speech.speakResponse, Speech.speak, Speech.cancel.
    simpl. eexists. split; [reflexivity|]. simpl.
    split; [reflexivity|]. split; [reflexivity|].
    apply utterance_lang_cases.
  - generalize (earlier ++ [l]). intros calls. revert queue.
    induction calls as [|c calls IH]; intros queue; simpl; [reflexivity|].
    apply IH.
Qed.

(** * The language of the interface *)

Lemma has_table_cases (lang : JsString) :
  Language.has_table lang = true ->
  lang ∈ keys Language.translations \/ inherited lang = true.
Proof.
  unfold Language.has_table.
  destruct (get_cases Language.translations lang)
    as [(n & v & -> & Hin & Hk) | [[-> Hi] | [-> _]]];
    cbn [truthy_property]; intros H.
  - left. rewrite <- Hk. eapply own_key. exact Hin.
  - right. exact Hi.
  - discriminate.
Qed.

Lemma has_table_truthy (lang : JsString) :
  Language.has_table lang = true -> truthy_str lang = true.
Proof. destruct lang; [discriminate|reflexivity]. Qed.

Lemma provider_snoc item calls call :
  Language.provider item (calls ++ [call])
  = Language.changeLanguage (fst call) (snd call) (Language.provider item calls).
Proof. unfold Language.provider. rewrite fold_left_app. reflexivity. Qed.

(** X15.  As long as the browser stores what [changeLanguage] writes, the
    language shown is the one a reload of the page would show. *)
Theorem reload_shows_the_same_language
    (item : option JsString) (calls : list (JsString * bool)) :
  forallb snd calls = true ->
  Language.language (Language.reloaded (Language.provider item calls))
  = Language.language (Language.provider item calls).
Proof.
  induction calls as [|call calls IH] using rev_ind; intros Hw.
  - unfold Language.provider, Language.reloaded, Language.mount. simpl.
    destruct item as [storedLang|]; simpl; [|reflexivity].
    destruct (truthy_str storedLang && Language.has_table storedLang) eqn:Hc;
      simpl; rewrite Hc; reflexivity.
  - rewrite forallb_app in Hw. apply andb_true_iff in Hw as [Hw Hcall].
    simpl in Hcall. rewrite andb_true_r in Hcall.
    rewrite provider_snoc, Hcall. specialize (IH Hw).
    unfold Language.changeLanguage.
    destruct (Language.has_table (fst call)) eqn:Ht; [|exact IH].
    unfold Language.reloaded, Language.mount. simpl.
    rewrite Ht, (has_table_truthy _ Ht). reflexivity.
Qed.

Lemma reload_shows_the_same_language_witness :
  forallb snd [(lit "hi", true); (lit "xx", true); (lit "mr", true)] = true
  /\ Language.language
       (Language.reloaded
          (Language.provider (Some (lit "fr"))
             [(lit "hi", true); (lit "xx", true); (lit "mr", true)]))
     = Language.language
         (Language.provider (Some (lit "fr"))
            [(lit "hi", true); (lit "xx", true); (lit "mr", true)]).
Proof.
  split; [reflexivity|].
  apply (reload_shows_the_same_language (Some (lit "fr"))
           [(lit "hi", true); (lit "xx", true); (lit "mr", true)]).
  reflexivity.
Defined.

(** A write the browser refuses is lost at the next reload. *)
Example refused_write_is_lost :
  let s := Language.provider None [(lit "hi", false)] in
  Language.language s = lit "hi"
  /\ Language.language (Language.reloaded s) = lit "en".
Proof. split; reflexivity. Qed.

(** X16.  The language of the interface is never any text: it is [en], or
    what the browser had stored, or what [changeLanguage] was called with,
    and [translations] always has an entry under it, so [t] can read it.
    It is one of [en], [hi] and [mr], unless it is the name of a property
    every object inherits. *)
Theorem language_always_has_a_table
    (item : option JsString) (calls : list (JsString * bool)) :
  let shown := Language.language (Language.provider item calls) in
  Language.has_table shown = true
  /\ (shown = lit "en" \/ item = Some shown \/ shown ∈ map fst calls)
  /\ (shown ∈ [lit "en"; lit "hi"; lit "mr"] \/ inherited shown = true).
Proof.
  intros shown. subst shown.
  assert (H : Language.has_table (Language.language (Language.provider item calls)) = true
              /\ (Language.language (Language.provider item calls) = lit "en"
                  \/ item = Some (Language.language (Language.provider item calls))
                  \/ Language.language (Language.provider item calls) ∈ map fst calls)).
  { induction calls as [|call calls IH] using rev_ind.
    - unfold Language.provider, Language.mount. simpl.
      destruct item as [storedLang|]; simpl; [|split; [reflexivity|left; reflexivity]].
      destruct (truthy_str storedLang && Language.has_table storedLang) eqn:Hc; simpl.
      + apply andb_true_iff in Hc as [_ Hc]. split; [exact Hc|]. right. left. reflexivity.
      + split; [reflexivity|left; reflexivity].
    - rewrite provider_snoc. unfold Language.changeLanguage.
      rewrite map_app. simpl.
      destruct (Language.has_table (fst call)) eqn:Ht; simpl.
      + split; [exact Ht|]. right. right. apply elem_of_app. right.
        apply elem_of_cons. left. reflexivity.
      + destruct IH as [IH1 [IH2|[IH2|IH2]]]; (split; [exact IH1|]); auto.
        right. right. apply elem_of_app. left. exact IH2. }
  destruct H as [Ht Hfrom]. split; [exact Ht|]. split; [exact Hfrom|].
  destruct (has_table_cases _ Ht) as [Hk|Hi]; [left|right; exact Hi].
  exact Hk.
Qed.

(** * The disease detection page *)

Import PestDetection.

(** What the page asks the server when it is first shown. *)
Example start_requests :
  log start
  = [get (lit "/detection/models"); get (lit "/detection/history?limit=10")]
  /\ sent (getDetectionHistory None) = [lit "/detection/history?limit=20"].
Proof. split; vm_compute; reflexivity. Qed.

Lemma omap_delete_none {A B} (f : A -> option B) (l : list A) i x :
  l !! i = Some x -> f x = None -> omap f (delete i l) = omap f l.
Proof.
  intros H Hf. rewrite <- (take_drop_middle l i x H) at 2.
  rewrite delete_take_drop, !omap_app. simpl. rewrite Hf. reflexivity.
Qed.

Lemma omap_delete_some {A B} (f : A -> option B) (l : list A) i x y :
  l !! i = Some x -> f x = Some y -> length (omap f l) = 1%nat ->
  omap f l = [y] /\ omap f (delete i l) = [].
Proof.
  intros H Hf Hlen.
  pose proof (omap_length_delete f l i x H) as Hd. rewrite Hf in Hd. simpl in Hd.
  assert (Hnil : omap f (delete i l) = [])
    by (apply length_zero_iff_nil; lia).
  split; [|exact Hnil].
  pose proof (omap_lookup_delete f l i x H) as Hp.
  rewrite Hf, Hnil in Hp. simpl in Hp.
  apply Permutation_singleton_r in Hp. exact Hp.
Qed.

Lemma exec_timers_owned a c c' :
  exec a c = Some c' -> timers_owned c -> timers_owned c'.
Proof.
  intros He [Hlen Hlive]. destruct c as [w ks evs].
  unfold timers_owned, timers in *. simpl in *.
  destruct a; simpl in He.
  - destruct (selectable value w); [|discriminate]. injection He as <-. simpl. auto.
  - unfold handleImageUpload in He. destruct file as [f|].
    + destruct (max_size <? file_size f); injection He as <-; simpl;
        rewrite ?omap_app, ?app_nil_r; simpl; rewrite ?app_nil_r; auto.
    + injection He as <-; simpl; rewrite ?omap_app, ?app_nil_r; auto.
  - destruct (detect_disabled w) eqn:Hd; [discriminate|]. injection He as <-.
    unfold detect_disabled in Hd. apply orb_false_iff in Hd as [_ Hdet].
    rewrite Hdet in Hlen. apply length_zero_iff_nil in Hlen.
    rewrite Hlen in Hlive. unfold handleDetection.
    destruct (imageFile w) as [file|];
      [destruct (truthy (uploadedImage w))|]; simpl;
      rewrite ?app_nil_r, ?Hdet, ?Hlen; auto.
    rewrite omap_app, Hlen. simpl. split; [reflexivity|].
    intros interval. rewrite list_elem_of_singleton. split.
    + intros Hl. destruct (decide (interval < length (intervals w))%nat) as [Hlt|Hge].
      * rewrite lookup_app_l in Hl by exact Hlt. apply Hlive in Hl.
        apply elem_of_nil in Hl. contradiction.
      * apply lookup_lt_Some in Hl. rewrite length_app in Hl. simpl in Hl. lia.
    + intros ->. rewrite lookup_app_r by lia. rewrite Nat.sub_diag. reflexivity.
  - destruct (intervals w !! interval) as [[|]|]; try discriminate.
    injection He as <-. simpl. auto.
  - destruct (ks !! i) as [k|] eqn:Hk; [|discriminate].
    destruct k, o; simpl in He; try discriminate; injection He as <-.
    + unfold loadAvailableModels_resume.
      destruct r as [?|[?|]|[[[[[|? ?]|]]|]|]]; simpl;
        rewrite ?app_nil_r, (omap_delete_none _ _ _ _ Hk eq_refl); auto.
    + unfold loadDetectionHistory_resume.
      destruct r as [?|[?|]|[[?|]|]]; simpl;
        rewrite ?app_nil_r, (omap_delete_none _ _ _ _ Hk eq_refl); auto.
    + simpl. rewrite ?app_nil_r, (omap_delete_none _ _ _ _ Hk eq_refl). auto.
    + assert (Hone : length (omap cont_interval ks) = 1%nat).
      { pose proof (omap_length_delete cont_interval ks i _ Hk) as Hd.
        simpl in Hd. destruct (detecting w); lia. }
      destruct (omap_delete_some cont_interval ks i _ progressInterval Hk eq_refl Hone)
        as [Hall Hrest].
      assert (Hfree : forall l interval,
                 l = intervals w \/ l = <[progressInterval := false]> (intervals w) ->
                 <[progressInterval := false]> l !! interval = Some true
                 <-> interval ∈ @nil nat).
      { intros l interval Hl. split; [|intros Hin; apply elem_of_nil in Hin; contradiction].
        intros Hin. exfalso.
        assert (Hin' : <[progressInterval := false]> (intervals w) !! interval = Some true)
          by (destruct Hl as [-> | ->]; [|rewrite list_insert_insert_eq in Hin]; exact Hin).
        apply list_lookup_insert_Some in Hin' as [(_ & Hft & _)|[Hne Hin']];
          [discriminate|].
        apply Hlive in Hin'. rewrite Hall in Hin'.
        apply list_elem_of_singleton in Hin'. congruence. }
      unfold handleDetection_resume.
      destruct r as [?|[?|]|[[[[|] ? ? ? ? ? ? ? ?]|]|]]; simpl;
        rewrite ?omap_app, ?app_nil_r, ?Hrest; simpl;
        (split; [reflexivity|]); intros interval; apply Hfree; auto.
Qed.

Lemma start_timers_owned : timers_owned start.
Proof.
  split; [reflexivity|]. intros interval. simpl. split.
  - rewrite lookup_nil. discriminate.
  - intros H. apply elem_of_nil in H. contradiction.
Qed.

Lemma reachable_timers_owned c : reachable c -> timers_owned c.
Proof.
  induction 1 as [|a c c' _ IH He]; [apply start_timers_owned|].
  eapply exec_timers_owned; eassumption.
Qed.

(** X17.  The progress timer lives exactly as long as its detection: in
    every state the page can reach, a timer is live if and only if it is
    the timer of a detection that awaits its answer; [detecting] is raised
    exactly while there is such a detection, and there is never more than
    one.  So whichever way a detection ends, its timer is cleared, and no
    timer fires when nothing is being detected. *)
Theorem progress_timer_lives_with_its_detection (c : Config) :
  reachable c ->
  (forall interval,
     intervals (world c) !! interval = Some true
     <-> exists file crop, K_analyzeImage interval file crop ∈ pending c)
  /\ (length (timers c) <= 1)%nat
  /\ (detecting (world c) = true
      <-> exists interval file crop, K_analyzeImage interval file crop ∈ pending c)
  /\ (detecting (world c) = false ->
      forall interval, exec (Tick interval) c = None).
Proof.
  intros Hr. destruct (reachable_timers_owned c Hr) as [Hlen Hlive].
  assert (Hin : forall interval,
             interval ∈ timers c
             <-> exists file crop, K_analyzeImage interval file crop ∈ pending c).
  { intros interval. unfold timers. rewrite list_elem_of_omap. split.
    - intros [k [Hk Hc]]. destruct k; try discriminate.
      injection Hc as ->. eauto.
    - intros (file & crop & Hk). eexists. split; [exact Hk|reflexivity]. }
  split; [intros interval; rewrite Hlive; apply Hin|].
  split; [destruct (detecting (world c)); lia|].
  split; [split|].
  - intros Hd. rewrite Hd in Hlen.
    destruct (timers c) as [|interval rest] eqn:Ht; [discriminate|].
    exists interval. apply Hin. apply elem_of_cons. left. reflexivity.
  - intros (interval & file & crop & Hk).
    assert (Hi : interval ∈ timers c) by (apply Hin; eauto).
    destruct (detecting (world c)); [reflexivity|].
    apply length_zero_iff_nil in Hlen. rewrite Hlen in Hi.
    apply elem_of_nil in Hi. contradiction.
  - intros Hd interval. rewrite Hd in Hlen. apply length_zero_iff_nil in Hlen.
    simpl. destruct (intervals (world c) !! interval) as [[|]|] eqn:Hl; try reflexivity.
    apply Hlive in Hl. rewrite Hlen in Hl. apply elem_of_nil in Hl. contradiction.
Qed.

Lemma run_reachable_page acts c c' :
  reachable c -> run acts c = Some c' -> reachable c'.
Proof.
  revert c. induction acts as [|a acts IH]; intros c Hr Hrun; simpl in Hrun.
  - injection Hrun as <-. exact Hr.
  - destruct (exec a c) as [c1|] eqn:He; [|discriminate].
    apply (IH c1); [|exact Hrun]. eapply reachable_step; eassumption.
Qed.

Lemma progress_timer_lives_with_its_detection_witness :
  exists c,
    run detection_started start = Some c
    /\ (length (timers c) <= 1)%nat.
Proof.
  eexists. split; [vm_compute; reflexivity|].
  eapply (proj1 (proj2 (progress_timer_lives_with_its_detection _ _))).
  Unshelve.
  apply (run_reachable_page detection_started start);
    [apply reachable_start | vm_compute; reflexivity].
Defined.

(** ** The progress shown *)

Lemma exec_progress_in_range a c c' :
  exec a c = Some c' -> progress_in_range c -> progress_in_range c'.
Proof.
  intros He [Hstep Hdet]. destruct c as [w ks evs].
  unfold progress_in_range in *. simpl in *.
  destruct a; simpl in He.
  - destruct (selectable value w); [|discriminate]. injection He as <-. simpl. auto.
  - unfold handleImageUpload in He. destruct file as [f|];
      [destruct (max_size <? file_size f)|]; injection He as <-; simpl; auto.
  - destruct (detect_disabled w); [discriminate|]. injection He as <-.
    unfold handleDetection.
    destruct (imageFile w) as [file|];
      [destruct (truthy (uploadedImage w))|]; simpl; auto.
    split; [lia|]. intros _. lia.
  - destruct (intervals w !! interval) as [[|]|]; try discriminate.
    injection He as <-. simpl.
    destruct (N.ltb_spec (step w) 3); split; try lia; intros Hd;
      try (specialize (Hdet Hd)); lia.
  - destruct (ks !! i) as [k|] eqn:Hk; [|discriminate].
    destruct k, o; simpl in He; try discriminate; injection He as <-.
    + unfold loadAvailableModels_resume.
      destruct r as [?|[?|]|[[[[[|? ?]|]]|]|]]; simpl; auto.
    + unfold loadDetectionHistory_resume.
      destruct r as [?|[?|]|[[?|]|]]; simpl; auto.
    + simpl. auto.
    + unfold handleDetection_resume.
      destruct r as [?|[?|]|[[[[|] ? ? ? ? ? ? ? ?]|]|]]; simpl;
        (split; [lia|discriminate]).
Qed.

Lemma reachable_progress_in_range c : reachable c -> progress_in_range c.
Proof.
  induction 1 as [|a c c' _ IH He].
  - split; simpl; [lia|discriminate].
  - eapply exec_progress_in_range; eassumption.
Qed.

(** X18.  In every state the page can reach the progress shown is one of
    the steps 1 to 4, and it is below 4 while a detection awaits its
    answer: however often the timer fires, the last step is shown only
    once the analysis has answered. *)
Theorem progress_shows_the_last_step_only_at_the_end (c : Config) :
  reachable c ->
  1 <= step (world c) <= 4
  /\ ((exists interval file crop, K_analyzeImage interval file crop ∈ pending c) ->
      step (world c) <= 3).
Proof.
  intros Hr. destruct (reachable_progress_in_range c Hr) as [Hstep Hdet].
  split; [exact Hstep|]. intros Hk. apply Hdet.
  destruct (reachable_timers_owned c Hr) as [Hlen _].
  destruct Hk as (interval & file & crop & Hk).
  destruct (detecting (world c)); [reflexivity|].
  apply length_zero_iff_nil in Hlen.
  assert (Hin : interval ∈ timers c).
  { unfold timers. apply list_elem_of_omap. eexists. split; [exact Hk|reflexivity]. }
  rewrite Hlen in Hin. apply elem_of_nil in Hin. contradiction.
Qed.

Lemma progress_shows_the_last_step_only_at_the_end_witness :
  exists c,
    run (detection_started ++ [Tick 0; Tick 0; Tick 0]) start = Some c
    /\ 1 <= step (world c) <= 4.
Proof.
  eexists. split; [vm_compute; reflexivity|].
  eapply (proj1 (progress_shows_the_last_step_only_at_the_end _ _)).
  Unshelve.
  apply (run_reachable_page (detection_started ++ [Tick 0; Tick 0; Tick 0]) start);
    [apply reachable_start | vm_compute; reflexivity].
Defined.

(** ** The file that is analysed *)

Lemma analysed_unsent (evs : list Event) :
  Forall (fun e => analysed e = None) evs -> omap analysed evs = [].
Proof.
  induction 1 as [|e evs He _ IH]; [reflexivity|].
  simpl. rewrite He. exact IH.
Qed.

Lemma exec_files_within_limit a c c' :
  exec a c = Some c' -> files_within_limit c -> files_within_limit c'.
Proof.
  intros He (Hkept & Hsent & Hshown). destruct c as [w ks evs].
  unfold files_within_limit in *. simpl in *.
  destruct a; simpl in He.
  - destruct (selectable value w); [|discriminate]. injection He as <-. simpl. auto.
  - unfold handleImageUpload in He. destruct file as [f|];
      [destruct (N.ltb_spec max_size (file_size f))|]; injection He as <-; simpl;
      rewrite ?omap_app, ?app_nil_r; simpl; rewrite ?app_nil_r; auto.
    split; [intros file [= <-]; assumption|]. split; [exact Hsent|]. discriminate.
  - destruct (detect_disabled w); [discriminate|]. injection He as <-.
    unfold handleDetection.
    destruct (imageFile w) as [file|] eqn:Hfile;
      [destruct (truthy (uploadedImage w)) eqn:Hup|]; simpl;
      rewrite ?omap_app, ?app_nil_r; simpl; rewrite ?app_nil_r;
      try solve [rewrite ?Hfile; auto].
    split; [rewrite Hfile; exact Hkept|]. split.
    + apply Forall_app. split; [exact Hsent|]. constructor; [|constructor].
      apply (Hkept file). reflexivity.
    + rewrite Hfile. discriminate.
  - destruct (intervals w !! interval) as [[|]|]; try discriminate.
    injection He as <-. simpl. auto.
  - destruct (ks !! i) as [k|] eqn:Hk; [|discriminate].
    destruct k, o; simpl in He; try discriminate; injection He as <-.
    + unfold loadAvailableModels_resume.
      destruct r as [?|[?|]|[[[[[|? ?]|]]|]|]]; simpl;
        rewrite ?omap_app, ?app_nil_r; simpl; rewrite ?app_nil_r;
        (split; [exact Hkept|]); (split; [exact Hsent|]);
        intros [Hup|Hin]; apply Hshown; auto;
        right; eapply list_elem_of_delete_inv; exact Hin.
    + unfold loadDetectionHistory_resume.
      destruct r as [?|[?|]|[[?|]|]]; simpl;
        rewrite ?omap_app, ?app_nil_r; simpl; rewrite ?app_nil_r;
        (split; [exact Hkept|]); (split; [exact Hsent|]);
        intros [Hup|Hin]; apply Hshown; auto;
        right; eapply list_elem_of_delete_inv; exact Hin.
    + simpl. rewrite ?omap_app, ?app_nil_r. simpl. rewrite ?app_nil_r.
      split; [exact Hkept|]. split; [exact Hsent|]. intros _.
      apply Hshown. right. eapply list_elem_of_lookup_2; exact Hk.
    + unfold handleDetection_resume.
      destruct r as [?|[?|]|[[[[|] ? ? ? ? ? ? ? ?]|]|]]; simpl;
        rewrite ?omap_app, ?app_nil_r; simpl; rewrite ?app_nil_r;
        (split; [exact Hkept|]); (split; [exact Hsent|]);
        intros [Hup|Hin]; apply Hshown; auto; right;
        first [ eapply list_elem_of_delete_inv; exact Hin
              | apply elem_of_app in Hin as [Hin|Hin];
                [ eapply list_elem_of_delete_inv; exact Hin
                | repeat (apply elem_of_cons in Hin as [Hin|Hin]; [discriminate|]);
                  apply elem_of_nil in Hin; contradiction ] ].
Qed.

Lemma reachable_files_within_limit c : reachable c -> files_within_limit c.
Proof.
  induction 1 as [|a c c' _ IH He].
  - split; [discriminate|]. split; [constructor|].
    intros [Hup|Hin]; [discriminate|].
    repeat (apply elem_of_cons in Hin as [Hin|Hin]; [discriminate|]).
    apply elem_of_nil in Hin. contradiction.
  - eapply exec_files_within_limit; eassumption.
Qed.

(** X19.  No file above 10 MB is ever posted for analysis, whatever is
    chosen and in whatever order the reads and the replies end.  And the
    detect button, whenever it is enabled, sends the analysis request: a
    timer is started and the file kept last, itself within the limit, is
    posted with the crop chosen; [Please upload an image first] is not
    shown. *)
Theorem analysed_files_are_within_the_limit (c : Config) :
  reachable c ->
  Forall (fun file => file_size file <= 10485760) (omap analysed (log c))
  /\ (detect_disabled (world c) = false ->
      exists file c',
        imageFile (world c) = Some file
        /\ file_size file <= 10485760
        /\ exec ClickDetect c = Some c'
        /\ log c'
           = log c
             ++ [ interval_set (length (intervals (world c)));
                  post (PostForm "/detection/analyze"
                          [ ("file", FormFile (data file) (name file));
                            ("crop_type", FormText (selectedCrop (world c))) ]) ]).
Proof.
  intros Hr. destruct (reachable_files_within_limit c Hr) as (Hkept & Hsent & Hshown).
  split; [exact Hsent|]. intros Hen.
  assert (Hup : truthy (uploadedImage (world c)) = true).
  { unfold detect_disabled in Hen. apply orb_false_iff in Hen as [Hen _].
    apply negb_false_iff in Hen. exact Hen. }
  destruct (imageFile (world c)) as [file|] eqn:Hfile;
    [|exfalso; apply Hshown; auto].
  exists file. eexists. split; [reflexivity|]. split; [apply Hkept; reflexivity|].
  simpl. rewrite Hen. unfold handleDetection. rewrite Hfile, Hup. simpl.
  split; reflexivity.
Qed.

Lemma analysed_files_are_within_the_limit_witness :
  exists c,
    run detection_started start = Some c
    /\ Forall (fun file => file_size file <= 10485760) (omap analysed (log c)).
Proof.
  eexists. split; [vm_compute; reflexivity|].
  eapply (proj1 (analysed_files_are_within_the_limit _ _)).
  Unshelve.
  apply (run_reachable_page detection_started start);
    [apply reachable_start | vm_compute; reflexivity].
Defined.

(** ** The model chosen *)

Lemma offered_general (w : World) :
  availableModels w = fallbackModels -> offered (lit "general") w.
Proof.
  intros Hm. exists (mkModel (lit "general") (lit "General Plant Scan") true []).
  rewrite Hm. split; [|split; reflexivity].
  unfold fallbackModels. do 5 apply list_elem_of_further. apply list_elem_of_here.
Qed.

Lemma offered_first_available (w : World) (first : Model) (rest : list Model) :
  availableModels w = first :: rest ->
  (exists model, model ∈ availableModels w /\ available model = true) ->
  offered
    (id (match find available (first :: rest) with Some c => c | None => first end))
    w.
Proof.
  intros Hm (model & Hin & Hav). rewrite Hm in Hin.
  destruct (find available (first :: rest)) as [c|] eqn:Hf.
  - apply find_some in Hf as [Hc Hcav]. exists c. rewrite Hm.
    split; [apply list_elem_of_In; exact Hc|]. split; [reflexivity|exact Hcav].
  - apply list_elem_of_In in Hin. pose proof (find_none _ _ Hf model Hin). congruence.
Qed.

Lemma exec_choice_is_offered a c c' :
  exec a c = Some c' -> choice_is_offered c -> choice_is_offered c'.
Proof.
  intros He (Hone & Hfirst & Hoff). destruct c as [w ks evs].
  unfold choice_is_offered in *. simpl in *.
  destruct a; simpl in He.
  - destruct (selectable value w) eqn:Hsel; [|discriminate]. injection He as <-. simpl.
    unfold selectable in Hsel. apply andb_true_iff in Hsel as [Hl Hex].
    apply negb_true_iff in Hl. rewrite Hl in *.
    split; [exact Hone|]. split; [discriminate|]. intros _ _.
    apply existsb_exists in Hex as (model & Hin & Hm).
    apply andb_true_iff in Hm as [Hid Hav]. apply strict_eq_spec in Hid.
    exists model. simpl. split; [apply list_elem_of_In; exact Hin|]. auto.
  - unfold handleImageUpload in He. destruct file as [f|];
      [destruct (max_size <? file_size f)|]; injection He as <-; simpl;
      rewrite ?omap_app, ?app_nil_r; simpl; rewrite ?app_nil_r; auto.
  - destruct (detect_disabled w); [discriminate|]. injection He as <-.
    unfold handleDetection.
    destruct (imageFile w) as [file|];
      [destruct (truthy (uploadedImage w))|]; simpl;
      rewrite ?omap_app, ?app_nil_r; simpl; rewrite ?app_nil_r; auto.
  - destruct (intervals w !! interval) as [[|]|]; try discriminate.
    injection He as <-. simpl. auto.
  - destruct (ks !! i) as [k|] eqn:Hk; [|discriminate].
    destruct k, o; simpl in He; try discriminate; injection He as <-.
    + assert (Hload : loadingModels w = true).
      { pose proof (omap_length_delete models_call ks i _ Hk) as Hd.
        simpl in Hd. destruct (loadingModels w); [reflexivity|lia]. }
      assert (Hnone : omap models_call (delete i ks) = []).
      { rewrite Hload in Hone.
        apply (omap_delete_some models_call ks i _ tt Hk eq_refl Hone). }
      specialize (Hfirst Hload).
      unfold loadAvailableModels_resume.
      destruct r as [?|[?|]|[[[[[|first rest]|]]|]|]]; simpl;
        rewrite ?app_nil_r, Hnone;
        (split; [reflexivity|]); (split; [discriminate|]); intros _;
        try (intros _; rewrite Hfirst; apply offered_general; reflexivity);
        try (intros (model & Hin & _); apply elem_of_nil in Hin; contradiction).
      intros Hex. apply (offered_first_available _ first rest); [reflexivity|exact Hex].
    + unfold loadDetectionHistory_resume.
      destruct r as [?|[?|]|[[?|]|]]; simpl;
        rewrite ?app_nil_r, (omap_delete_none _ _ _ _ Hk eq_refl); auto.
    + simpl. rewrite ?app_nil_r, (omap_delete_none _ _ _ _ Hk eq_refl). auto.
    + unfold handleDetection_resume.
      destruct r as [?|[?|]|[[[[|] ? ? ? ? ? ? ? ?]|]|]]; simpl;
        rewrite ?omap_app, ?app_nil_r; simpl;
        rewrite ?app_nil_r, (omap_delete_none _ _ _ _ Hk eq_refl); auto.
Qed.

Lemma reachable_choice_is_offered c : reachable c -> choice_is_offered c.
Proof.
  induction 1 as [|a c c' _ IH He].
  - split; [reflexivity|]. split; [reflexivity|discriminate].
  - eapply exec_choice_is_offered; eassumption.
Qed.

Lemma find_first {A} (p : A -> bool) (before : list A) (m : A) (after : list A) :
  Forall (fun x => p x = false) before -> p m = true ->
  find p (before ++ m :: after) = Some m.
Proof.
  intros Hb Hm. induction Hb as [|x before Hx _ IH]; simpl.
  - rewrite Hm. reflexivity.
  - rewrite Hx. exact IH.
Qed.

Lemma find_no_one {A} (p : A -> bool) (l : list A) :
  Forall (fun x => p x = false) l -> find p l = None.
Proof.
  intros Hl. induction Hl as [|x l Hx _ IH]; simpl; [reflexivity|].
  rewrite Hx. exact IH.
Qed.

(** X20.  The models are asked for once, and until the answer is there
    the crop chosen is [general] and cannot be changed.  When the answer
    comes, the list shown and the crop chosen are these.  On a 2xx reply
    with a JSON object, the list is the server's list ([crops], or the
    empty list if that is missing), and the crop chosen is the first model
    of that list that is available, whatever precedes it being
    unavailable; if no model of the list is available it is the first
    model of the list; if the list is empty or missing it stays [general].
    On any other answer the list is the seven models of the page and the
    crop stays [general].  From then on the crop chosen is one the list
    offers with an available model, if the list offers any: the choice made
    at the answer, or the user's choice since. *)
Theorem chosen_crop_is_offered (c : Config) :
  reachable c ->
  (loadingModels (world c) = true <-> K_models ∈ pending c)
  /\ (loadingModels (world c) = true -> selectedCrop (world c) = lit "general")
  /\ (loadingModels (world c) = false ->
      (exists model, model ∈ availableModels (world c) /\ available model = true) ->
      exists model,
        model ∈ availableModels (world c)
        /\ id model = selectedCrop (world c) /\ available model = true)
  /\ (forall i r,
        pending c !! i = Some K_models ->
        exists c',
          exec (Complete i (Models r)) c = Some c'
          /\ loadingModels (world c') = false
          /\ match r with
             | OkBody (Some (Some response)) =>
                 match crops response with
                 | Some (first :: rest) =>
                     availableModels (world c') = first :: rest
                     /\ (forall before m after,
                           first :: rest = before ++ m :: after ->
                           Forall (fun x => available x = false) before ->
                           available m = true ->
                           selectedCrop (world c') = id m)
                     /\ (Forall (fun x => available x = false) (first :: rest) ->
                         selectedCrop (world c') = id first)
                 | _ =>
                     availableModels (world c') = []
                     /\ selectedCrop (world c') = lit "general"
                 end
             | _ =>
                 availableModels (world c') = fallbackModels
                 /\ selectedCrop (world c') = lit "general"
             end).
Proof.
  intros Hr. destruct (reachable_choice_is_offered c Hr) as (Hone & Hfirst & Hoff).
  assert (Hiff : loadingModels (world c) = true <-> K_models ∈ pending c);
    [|split; [exact Hiff|]; split; [exact Hfirst|]; split; [exact Hoff|];
      intros i r Hk;
      assert (Hgen : selectedCrop (world c) = lit "general")
        by (apply Hfirst, Hiff; eapply list_elem_of_lookup_2; exact Hk);
      eexists; split; [unfold exec; rewrite Hk; reflexivity|];
      split;
      [ cbn [apply_effect world]; unfold loadAvailableModels_resume;
        destruct (let '(w1, evs) := _ in _) as [[w1 ks] evs] eqn:E;
        revert E;
        destruct r as [?|[?|]|[[[[[|first rest]|]]|]|]]; simpl;
        intros [= <- <- <-]; reflexivity
      | destruct r as [?|[?|]|[[[[[|first rest]|]]|]|]];
        try (split; [reflexivity|exact Hgen]);
        split; [reflexivity|]; split;
        [ intros before m after Hl Hb Hm; cbn [apply_effect world];
          unfold loadAvailableModels_resume; cbn -[find];
          rewrite Hl, (find_first _ _ _ _ Hb Hm); reflexivity
        | intros Hnone; cbn [apply_effect world];
          unfold loadAvailableModels_resume; cbn -[find];
          rewrite (find_no_one _ _ Hnone); reflexivity ] ] ].
  split.
  - intros Hl. rewrite Hl in Hone.
    destruct (omap models_call (pending c)) as [|[] rest] eqn:Ho; [discriminate|].
    assert (Hin : tt ∈ omap models_call (pending c))
      by (rewrite Ho; apply list_elem_of_here).
    apply list_elem_of_omap in Hin as (k & Hk & Hm).
    destruct k; try discriminate. exact Hk.
  - intros Hk. destruct (loadingModels (world c)); [reflexivity|].
    apply length_zero_iff_nil in Hone.
    assert (Hin : tt ∈ omap models_call (pending c))
      by (apply list_elem_of_omap; exists K_models; split; [exact Hk|reflexivity]).
    rewrite Hone in Hin. apply elem_of_nil in Hin. contradiction.
Qed.

Lemma chosen_crop_is_offered_witness :
  exists c,
    run [Complete 0 (Models (OkBody (Some (Some (mkModelsBody (Some
           [ mkModel (lit "rice") (lit "Rice") false [];
             mkModel (lit "wheat") (lit "Wheat") true [] ]))))))] start = Some c
    /\ exists model,
         model ∈ availableModels (world c)
         /\ id model = selectedCrop (world c) /\ available model = true.
Proof.
  eexists. split; [vm_compute; reflexivity|].
  match goal with
  | |- exists model, model ∈ availableModels (world ?c) /\ _ =>
      assert (Hr : reachable c)
        by (apply (run_reachable_page
                     [Complete 0 (Models (OkBody (Some (Some (mkModelsBody (Some
                        [ mkModel (lit "rice") (lit "Rice") false [];
                          mkModel (lit "wheat") (lit "Wheat") true [] ]))))))]
                     start);
            [apply reachable_start | vm_compute; reflexivity]);
      apply (proj1 (proj2 (proj2 (chosen_crop_is_offered c Hr))))
  end.
  - reflexivity.
  - exists (mkModel (lit "wheat") (lit "Wheat") true []).
    split; [|reflexivity]. apply list_elem_of_further, list_elem_of_here.
Defined.

(** ** How a detection ends *)

Lemma or_str_truthy (a : option JsString) (b : JsString) :
  truthy_str b = true -> truthy_str (or_str a b) = true.
Proof. destruct a as [[|x a]|]; simpl; auto. Qed.

(** X21.  However the analysis is answered, the detection ends:
    [detecting] is lowered, the progress timer is not live, and exactly one
    toast is shown, whose text is never empty.  The preview is left as it
    is, and the detect button, disabled by [!uploadedImage || detecting],
    is enabled again exactly when a preview is still shown: if the preview
    was lost while the analysis was in flight, the button stays disabled.
    The toast reports success, and a result is shown, exactly when the
    reply was a 2xx JSON object whose [success] holds; otherwise the result
    shown is left as it was. *)
Theorem detection_ends_with_one_toast
    (progressInterval : nat) (file : File) (crop : JsString)
    (r : Fetched (option Analysis)) (w : World) :
  let e := handleDetection_resume progressInterval file crop r w in
  let succeeded :=
    match r with
    | OkBody (Some (Some response)) => success response
    | _ => false
    end in
  detecting (fst (fst e)) = false
  /\ uploadedImage (fst (fst e)) = uploadedImage w
  /\ detect_disabled (fst (fst e)) = negb (truthy (uploadedImage w))
  /\ intervals (fst (fst e)) !! progressInterval <> Some true
  /\ (exists text,
        omap toast_text (snd e) = [text]
        /\ truthy_str text = true
        /\ (if succeeded then toast_success else toast_error) text ∈ snd e)
  /\ (if succeeded then result (fst (fst e)) <> None
      else result (fst (fst e)) = result w).
Proof.
  assert (Hcleared : forall l : list bool,
             <[progressInterval := false]> l !! progressInterval <> Some true).
  { intros l Hl. apply list_lookup_insert_Some in Hl as [(_ & Hft & _)|[Hne _]];
      [discriminate|congruence]. }
  unfold handleDetection_resume.
  destruct r as [reason|[[d m]|]|[[[[|] ? ? ? ? ? ? ? err]|]|]]; simpl;
    repeat (match goal with
            | |- context [match ?x with _ => _ end] => destruct x
            end; simpl);
    (split; [reflexivity|]); (split; [reflexivity|]);
    (split; [unfold detect_disabled; simpl; apply orb_false_r|]);
    (split; [apply Hcleared|]);
    (split;
     [ eexists; split; [reflexivity|];
       split; [first [reflexivity | apply or_str_truthy; reflexivity]|];
       repeat first [apply list_elem_of_here | apply list_elem_of_further]
     | first [reflexivity | discriminate] ]).
Qed.

(** The preview is lost while the analysis is in flight (a second file is
    chosen and cannot be read): the detection ends, and the button stays
    disabled. *)
Example detection_over_button_still_disabled :
  exists c,
    run [ Upload (Some photo); Complete 2 (LoadEnd (Some (lit "data:")));
          ClickDetect;
          Upload (Some photo); Complete 3 (LoadEnd None);
          Complete 2 (Analysed (Rejected (lit "Failed to fetch"))) ] start = Some c
    /\ detecting (world c) = false
    /\ detect_disabled (world c) = true
    /\ exec ClickDetect c = None.
Proof. eexists. split; [vm_compute; reflexivity|]. repeat split. Qed.
